(** * vcontrold: the XML configuration loader (src/xmlconfig.c)

    A shallow embedding of the loader that turns the vcontrold XML
    configuration into chains of protocols, units, devices, commands and
    the server configuration, together with the lookup routines the
    dispatcher calls and the release routines used on reload.

    Conventions of the embedding.
    - A C pointer into a singly linked chain is the list of the nodes from
      the pointed node on, in [next] order; [NULL] is the empty list and
      [p->next] is the tail.
    - A [char *] obtained from [calloc] is a pair of the address of its
      block and its contents; two pointers are the same pointer exactly
      when they are equal as such pairs.  [NULL] is [None].
    - The allocator is a break counter and the set of live blocks.
    - Undefined behaviour of the C program (dereferencing [NULL], reading
      an uninitialised local, releasing a block twice) is the outcome
      [Crash]; a loop that has used up its iteration budget is [Timeout].
    - Logging ([logIT], [printNode]) has no effect on the model and is
      left out. *)

From stdpp Require Import gmap strings list.
From Stdlib Require Import ZArith String Ascii.

#[local] Set Warnings "-clear-no-such-hyp".

Open Scope string_scope.
Open Scope list_scope.
Open Scope Z_scope.

(** ** Outcomes and the allocator *)

Inductive outcome (A : Type) : Type :=
| Ret (a : A)
| Crash
| Timeout.

Arguments Ret {A} a.
Arguments Crash {A}.
Arguments Timeout {A}.

Record heap := Heap { brk : nat; live : gset nat }.

(** Computations that use the allocator. *)
Definition M (A : Type) : Type := heap → outcome (A * heap).

Definition ret {A} (a : A) : M A := λ h, Ret (a, h).

Definition bind {A B} (m : M A) (k : A → M B) : M B :=
  λ h, match m h with
       | Ret (a, h') => k a h'
       | Crash => Crash
       | Timeout => Timeout
       end.

Definition crash {A} : M A := λ _, Crash.
Definition timeout {A} : M A := λ _, Timeout.

Notation "'let*' x ':=' m 'in' k" := (bind m (λ x, k))
  (at level 10, x pattern, m at level 100, k at level 200).

(** Lifting of a computation that does not touch the allocator. *)
Definition lift {A} (o : outcome A) : M A :=
  λ h, match o with Ret a => Ret (a, h) | Crash => Crash | Timeout => Timeout end.

(** Reading a local variable that may not have been assigned yet. *)
Definition rd {A} (v : option A) : outcome A :=
  match v with Some a => Ret a | None => Crash end.

(** [calloc]: a block at a fresh address.  Allocation failure ends the
    process ([exit(1)]) and is not modelled. *)
Definition calloc : M nat :=
  λ h, Ret (brk h, Heap (S (brk h)) ({[ brk h ]} ∪ live h)).

(** [free(p)] for [p != NULL]. *)
Definition free_block (p : nat) : M unit :=
  λ h, if decide (p ∈ live h)
       then Ret (tt, Heap (brk h) (live h ∖ {[ p ]}))
       else Crash.

(** ** C strings *)

Record cstr := CStr { addr : nat; val : string }.

Definition charp : Type := option cstr.

Definition deref (p : charp) : option string := val <$> p.

(** [free(p)], a no-op on [NULL]. *)
Definition free (p : charp) : M unit :=
  match p with
  | None => ret tt
  | Some s => free_block (addr s)
  end.

(** [p = calloc(strlen(s) + 1, 1); strcpy(p, s)]. *)
Definition strdup (s : string) : M charp :=
  let* a := calloc in ret (Some (CStr a s)).

(** [nullIT(&p)]: a fresh empty string. *)
Definition nullIT : M charp := strdup "".

(** The copy the builders make of a text that may be missing:
    [if (chrPtr) { p = calloc(..); strcpy(p, chrPtr); } else nullIT(&p);] *)
Definition copy_or_empty (chrPtr : option string) : M charp :=
  match chrPtr with
  | Some s => strdup s
  | None => nullIT
  end.

(** [strstr(hay, needle) != NULL]. *)
Fixpoint strstr (hay needle : string) : bool :=
  String.prefix needle hay ||
  match hay with
  | EmptyString => false
  | String _ rest => strstr rest needle
  end.

(** [strchr(s, c)], as the offset of the first occurrence. *)
Fixpoint strchr (s : string) (c : ascii) : option nat :=
  match s with
  | EmptyString => None
  | String a rest =>
      if Ascii.eqb a c then Some 0%nat else S <$> strchr rest c
  end.

(** [strcmp(a, b) == 0]. *)
Definition streq (a b : string) : bool := String.eqb a b.

(** [memcmp(a, b, n) == 0]; reading past the end of a buffer is undefined. *)
Definition memcmp_eq (a b : string) (n : nat) : outcome bool :=
  if (n <=? String.length a)%nat && (n <=? String.length b)%nat
  then Ret (String.eqb (String.substring 0 n a) (String.substring 0 n b))
  else Crash.

(** What the loader takes from libc and from the codec unit (common.c). *)
Record Externals := {
  atoi : string → Z;
  inet_addr : string → Z;
  ntohl : Z → Z;
  hex2chr : string → Z;
  string2chr : string → nat → string
}.

Definition INADDR_NONE : Z := 0xFFFFFFFF.

(** ** The document tree (libxml2) *)

Inductive xmlElementType :=
| XML_ELEMENT_NODE
| XML_ATTRIBUTE_NODE
| XML_TEXT_NODE
| XML_CDATA_SECTION_NODE
| XML_COMMENT_NODE.

Definition is_text_type (t : xmlElementType) : bool :=
  match t with XML_TEXT_NODE => true | _ => false end.

Definition is_attribute_type (t : xmlElementType) : bool :=
  match t with XML_ATTRIBUTE_NODE => true | _ => false end.

#[local] Unset Elimination Schemes.
(** Elements, text nodes and attributes share one layout, as [xmlNode] and
    [xmlAttr] do in their common prefix; the loader reads attributes
    through a cast to [xmlNodePtr]. *)
Inductive xmlNode := XmlNode {
  n_type : xmlElementType;
  n_name : string;
  n_content : option string;
  n_properties : list xmlNode;
  n_children : list xmlNode
}.
#[local] Set Elimination Schemes.

Definition xmlNodePtr : Type := list xmlNode.

Definition is_blank_char (c : ascii) : bool :=
  let n := nat_of_ascii c in
  (n =? 32)%nat || (n =? 9)%nat || (n =? 10)%nat || (n =? 13)%nat.

Fixpoint all_blank (s : string) : bool :=
  match s with
  | EmptyString => true
  | String c rest => is_blank_char c && all_blank rest
  end.

(** [xmlIsBlankNode]: a text or CDATA node with only blank content. *)
Definition xmlIsBlankNode (n : xmlNode) : bool :=
  match n_type n with
  | XML_TEXT_NODE | XML_CDATA_SECTION_NODE =>
      match n_content n with
      | None => true
      | Some s => all_blank s
      end
  | _ => false
  end.

Definition non_null {A} (p : list A) : bool :=
  match p with [] => false | _ :: _ => true end.

(** [getNextNode]: forward when the next node is not a text node or has a
    successor, else back to the successor of [prevPtr], else [NULL]. *)
Definition getNextNode (cur prevPtr : xmlNodePtr) : outcome xmlNodePtr :=
  match cur with
  | [] => Crash
  | _ :: next =>
      if match next with
         | [] => false
         | n :: nn => negb (is_text_type (n_type n)) || non_null nn
         end
      then Ret next
      else match prevPtr with
           | [] => Ret []
           | _ :: pnext => Ret pnext
           end
  end.

(** [getNextNode(cur, prevPtr)] where [prevPtr] is a local that may not
    have been assigned. *)
Definition nextNode (cur : xmlNodePtr) (prevPtr : option xmlNodePtr)
  : outcome xmlNodePtr :=
  match prevPtr with
  | None => Crash
  | Some p => getNextNode cur p
  end.

Definition getTextNode (cur : xmlNode) : option string :=
  match n_children cur with
  | c :: _ => if is_text_type (n_type c) then n_content c else None
  | [] => None
  end.

Fixpoint getPropertyNode (cur : list xmlNode) (name : string) : option string :=
  match cur with
  | [] => None
  | a :: next =>
      if is_attribute_type (n_type a) && strstr (n_name a) name
      then getTextNode a
      else getPropertyNode next name
  end.

(** ** The model entities (xmlconfig.h)

    Every record starts with the address of its own block. *)

Record Macro := {
  m_self : nat;
  m_name : charp;
  m_command : charp
}.

Record iCmd := {
  ic_self : nat;
  ic_name : charp;
  ic_send : charp;
  ic_retry : Z;
  ic_recvTimeout : Z
}.

Record Protocol := {
  p_self : nat;
  p_name : charp;
  p_id : Z;
  p_mPtr : list Macro;
  p_icPtr : list iCmd
}.

Record Enumerate := {
  e_self : nat;
  e_text : charp;
  e_bytes : charp;
  e_len : Z
}.

Record Unit := {
  u_self : nat;
  u_name : charp;
  u_abbrev : charp;
  u_gCalc : charp;
  u_sCalc : charp;
  u_gICalc : charp;
  u_sICalc : charp;
  u_entity : charp;
  u_type : charp;
  u_ePtr : list Enumerate
}.

(** [c_cmpPtr] is the chain built by the expression compiler (parser.c),
    as the addresses of its blocks; the loader only ever stores [NULL]. *)
Record Command := {
  c_self : nat;
  c_name : charp;
  c_pcmd : charp;
  c_send : charp;
  c_addr : charp;
  c_unit : charp;
  c_errStr : charp;
  c_precmd : charp;
  c_description : charp;
  c_len : Z;
  c_bit : Z;
  c_nodeType : Z;
  c_cmpPtr : list nat
}.

Record Device := {
  d_self : nat;
  d_name : charp;
  d_id : charp;
  d_protoPtr : list Protocol;
  d_cmdPtr : list Command
}.

Record Allow := {
  a_self : nat;
  a_text : charp;
  a_ip : Z;
  a_mask : Z
}.

Record Config := {
  cfg_self : nat;
  cfg_tty : charp;
  cfg_port : Z;
  cfg_logfile : charp;
  cfg_syslog : Z;
  cfg_debug : Z;
  cfg_devID : charp;
  cfg_devPtr : list Device;
  cfg_aPtr : list Allow
}.

(** Field assignments [ptr->field = v]. *)

Definition set_m_name v (m : Macro) := Build_Macro (m_self m) v (m_command m).
Definition set_m_command v (m : Macro) := Build_Macro (m_self m) (m_name m) v.

Definition set_ic_name v (i : iCmd) :=
  Build_iCmd (ic_self i) v (ic_send i) (ic_retry i) (ic_recvTimeout i).
Definition set_ic_send v (i : iCmd) :=
  Build_iCmd (ic_self i) (ic_name i) v (ic_retry i) (ic_recvTimeout i).
Definition set_ic_retry v (i : iCmd) :=
  Build_iCmd (ic_self i) (ic_name i) (ic_send i) v (ic_recvTimeout i).
Definition set_ic_recvTimeout v (i : iCmd) :=
  Build_iCmd (ic_self i) (ic_name i) (ic_send i) (ic_retry i) v.

Definition set_p_name v (p : Protocol) :=
  Build_Protocol (p_self p) v (p_id p) (p_mPtr p) (p_icPtr p).
Definition set_p_id v (p : Protocol) :=
  Build_Protocol (p_self p) (p_name p) v (p_mPtr p) (p_icPtr p).
Definition set_p_mPtr v (p : Protocol) :=
  Build_Protocol (p_self p) (p_name p) (p_id p) v (p_icPtr p).
Definition set_p_icPtr v (p : Protocol) :=
  Build_Protocol (p_self p) (p_name p) (p_id p) (p_mPtr p) v.

Definition set_e_text v (e : Enumerate) :=
  Build_Enumerate (e_self e) v (e_bytes e) (e_len e).
Definition set_e_bytes v (e : Enumerate) :=
  Build_Enumerate (e_self e) (e_text e) v (e_len e).
Definition set_e_len v (e : Enumerate) :=
  Build_Enumerate (e_self e) (e_text e) (e_bytes e) v.

Definition set_u_name v (u : Unit) :=
  Build_Unit (u_self u) v (u_abbrev u) (u_gCalc u) (u_sCalc u) (u_gICalc u)
    (u_sICalc u) (u_entity u) (u_type u) (u_ePtr u).
Definition set_u_abbrev v (u : Unit) :=
  Build_Unit (u_self u) (u_name u) v (u_gCalc u) (u_sCalc u) (u_gICalc u)
    (u_sICalc u) (u_entity u) (u_type u) (u_ePtr u).
Definition set_u_gCalc v (u : Unit) :=
  Build_Unit (u_self u) (u_name u) (u_abbrev u) v (u_sCalc u) (u_gICalc u)
    (u_sICalc u) (u_entity u) (u_type u) (u_ePtr u).
Definition set_u_sCalc v (u : Unit) :=
  Build_Unit (u_self u) (u_name u) (u_abbrev u) (u_gCalc u) v (u_gICalc u)
    (u_sICalc u) (u_entity u) (u_type u) (u_ePtr u).
Definition set_u_gICalc v (u : Unit) :=
  Build_Unit (u_self u) (u_name u) (u_abbrev u) (u_gCalc u) (u_sCalc u) v
    (u_sICalc u) (u_entity u) (u_type u) (u_ePtr u).
Definition set_u_sICalc v (u : Unit) :=
  Build_Unit (u_self u) (u_name u) (u_abbrev u) (u_gCalc u) (u_sCalc u)
    (u_gICalc u) v (u_entity u) (u_type u) (u_ePtr u).
Definition set_u_entity v (u : Unit) :=
  Build_Unit (u_self u) (u_name u) (u_abbrev u) (u_gCalc u) (u_sCalc u)
    (u_gICalc u) (u_sICalc u) v (u_type u) (u_ePtr u).
Definition set_u_type v (u : Unit) :=
  Build_Unit (u_self u) (u_name u) (u_abbrev u) (u_gCalc u) (u_sCalc u)
    (u_gICalc u) (u_sICalc u) (u_entity u) v (u_ePtr u).
Definition set_u_ePtr v (u : Unit) :=
  Build_Unit (u_self u) (u_name u) (u_abbrev u) (u_gCalc u) (u_sCalc u)
    (u_gICalc u) (u_sICalc u) (u_entity u) (u_type u) v.

Definition set_c_name v (c : Command) :=
  Build_Command (c_self c) v (c_pcmd c) (c_send c) (c_addr c) (c_unit c)
    (c_errStr c) (c_precmd c) (c_description c) (c_len c) (c_bit c)
    (c_nodeType c) (c_cmpPtr c).
Definition set_c_pcmd v (c : Command) :=
  Build_Command (c_self c) (c_name c) v (c_send c) (c_addr c) (c_unit c)
    (c_errStr c) (c_precmd c) (c_description c) (c_len c) (c_bit c)
    (c_nodeType c) (c_cmpPtr c).
Definition set_c_addr v (c : Command) :=
  Build_Command (c_self c) (c_name c) (c_pcmd c) (c_send c) v (c_unit c)
    (c_errStr c) (c_precmd c) (c_description c) (c_len c) (c_bit c)
    (c_nodeType c) (c_cmpPtr c).
Definition set_c_unit v (c : Command) :=
  Build_Command (c_self c) (c_name c) (c_pcmd c) (c_send c) (c_addr c) v
    (c_errStr c) (c_precmd c) (c_description c) (c_len c) (c_bit c)
    (c_nodeType c) (c_cmpPtr c).
Definition set_c_errStr v (c : Command) :=
  Build_Command (c_self c) (c_name c) (c_pcmd c) (c_send c) (c_addr c)
    (c_unit c) v (c_precmd c) (c_description c) (c_len c) (c_bit c)
    (c_nodeType c) (c_cmpPtr c).
Definition set_c_precmd v (c : Command) :=
  Build_Command (c_self c) (c_name c) (c_pcmd c) (c_send c) (c_addr c)
    (c_unit c) (c_errStr c) v (c_description c) (c_len c) (c_bit c)
    (c_nodeType c) (c_cmpPtr c).
Definition set_c_description v (c : Command) :=
  Build_Command (c_self c) (c_name c) (c_pcmd c) (c_send c) (c_addr c)
    (c_unit c) (c_errStr c) (c_precmd c) v (c_len c) (c_bit c)
    (c_nodeType c) (c_cmpPtr c).
Definition set_c_len v (c : Command) :=
  Build_Command (c_self c) (c_name c) (c_pcmd c) (c_send c) (c_addr c)
    (c_unit c) (c_errStr c) (c_precmd c) (c_description c) v (c_bit c)
    (c_nodeType c) (c_cmpPtr c).
Definition set_c_bit v (c : Command) :=
  Build_Command (c_self c) (c_name c) (c_pcmd c) (c_send c) (c_addr c)
    (c_unit c) (c_errStr c) (c_precmd c) (c_description c) (c_len c) v
    (c_nodeType c) (c_cmpPtr c).
Definition set_c_nodeType v (c : Command) :=
  Build_Command (c_self c) (c_name c) (c_pcmd c) (c_send c) (c_addr c)
    (c_unit c) (c_errStr c) (c_precmd c) (c_description c) (c_len c)
    (c_bit c) v (c_cmpPtr c).

Definition set_d_name v (d : Device) :=
  Build_Device (d_self d) v (d_id d) (d_protoPtr d) (d_cmdPtr d).
Definition set_d_id v (d : Device) :=
  Build_Device (d_self d) (d_name d) v (d_protoPtr d) (d_cmdPtr d).
Definition set_d_protoPtr v (d : Device) :=
  Build_Device (d_self d) (d_name d) (d_id d) v (d_cmdPtr d).
Definition set_d_cmdPtr v (d : Device) :=
  Build_Device (d_self d) (d_name d) (d_id d) (d_protoPtr d) v.

Definition set_a_text v (a : Allow) :=
  Build_Allow (a_self a) v (a_ip a) (a_mask a).
Definition set_a_ip v (a : Allow) :=
  Build_Allow (a_self a) (a_text a) v (a_mask a).
Definition set_a_mask v (a : Allow) :=
  Build_Allow (a_self a) (a_text a) (a_ip a) v.

Definition set_cfg_tty v (c : Config) :=
  Build_Config (cfg_self c) v (cfg_port c) (cfg_logfile c) (cfg_syslog c)
    (cfg_debug c) (cfg_devID c) (cfg_devPtr c) (cfg_aPtr c).
Definition set_cfg_port v (c : Config) :=
  Build_Config (cfg_self c) (cfg_tty c) v (cfg_logfile c) (cfg_syslog c)
    (cfg_debug c) (cfg_devID c) (cfg_devPtr c) (cfg_aPtr c).
Definition set_cfg_logfile v (c : Config) :=
  Build_Config (cfg_self c) (cfg_tty c) (cfg_port c) v (cfg_syslog c)
    (cfg_debug c) (cfg_devID c) (cfg_devPtr c) (cfg_aPtr c).
Definition set_cfg_syslog v (c : Config) :=
  Build_Config (cfg_self c) (cfg_tty c) (cfg_port c) (cfg_logfile c) v
    (cfg_debug c) (cfg_devID c) (cfg_devPtr c) (cfg_aPtr c).
Definition set_cfg_debug v (c : Config) :=
  Build_Config (cfg_self c) (cfg_tty c) (cfg_port c) (cfg_logfile c)
    (cfg_syslog c) v (cfg_devID c) (cfg_devPtr c) (cfg_aPtr c).
Definition set_cfg_devID v (c : Config) :=
  Build_Config (cfg_self c) (cfg_tty c) (cfg_port c) (cfg_logfile c)
    (cfg_syslog c) (cfg_debug c) v (cfg_devPtr c) (cfg_aPtr c).
Definition set_cfg_devPtr v (c : Config) :=
  Build_Config (cfg_self c) (cfg_tty c) (cfg_port c) (cfg_logfile c)
    (cfg_syslog c) (cfg_debug c) (cfg_devID c) v (cfg_aPtr c).
Definition set_cfg_aPtr v (c : Config) :=
  Build_Config (cfg_self c) (cfg_tty c) (cfg_port c) (cfg_logfile c)
    (cfg_syslog c) (cfg_debug c) (cfg_devID c) (cfg_devPtr c) v.

(** A write through a pointer to the node a builder appended last. *)
Fixpoint upd_last {A} (f : A → A) (l : list A) : list A :=
  match l with
  | [] => []
  | [x] => [f x]
  | x :: rest => x :: upd_last f rest
  end.

(** The state of a chain [ptr] after [new...Node(ptr)] linked [nptr] to
    its end; a [NULL] chain stays [NULL] and the caller installs the node
    itself ([if (! start) start = nptr;]). *)
Definition linked {A} (ptr : list A) (nptr : A) : list A :=
  match ptr with
  | [] => []
  | _ :: _ => ptr ++ [nptr]
  end.

Definition anchor {A} (start : list A) (nptr : A) : list A :=
  match start with
  | [] => [nptr]
  | _ :: _ => start
  end.

(** ** Chain construction: [new...Node]

    Each returns the fresh node; what it does to the chain it was given
    is [linked]. *)

Definition newProtocolNode (ptr : list Protocol) : M Protocol :=
  let* a := calloc in ret (Build_Protocol a None 0 [] []).

Definition newUnitNode (ptr : list Unit) : M Unit :=
  let* a := calloc in
  ret (Build_Unit a None None None None None None None None []).

Definition newMacroNode (ptr : list Macro) : M Macro :=
  let* a := calloc in ret (Build_Macro a None None).

Definition newCommandNode (ptr : list Command) : M Command :=
  let* a := calloc in
  ret (Build_Command a None None None None None None None None 0 (-1) 0 []).

Definition newDeviceNode (ptr : list Device) : M Device :=
  let* a := calloc in ret (Build_Device a None None [] []).

Definition newIcmdNode (ptr : list iCmd) : M iCmd :=
  let* a := calloc in ret (Build_iCmd a None None 0 0).

Definition newAllowNode (ptr : list Allow) : M Allow :=
  let* a := calloc in ret (Build_Allow a None 0 0).

Definition newEnumNode (ptr : list Enumerate) : M Enumerate :=
  let* a := calloc in ret (Build_Enumerate a None None 0).

(** [addCommandNode(ptr, nptr)]: the chain [ptr] afterwards. *)
Definition addCommandNode (ptr : list Command) (nptr : Command) : list Command :=
  linked ptr nptr.

(** ** Lookups *)

Fixpoint getProtocolNode (ptr : list Protocol) (name : string)
  : outcome (list Protocol) :=
  match ptr with
  | [] => Ret []
  | p :: next =>
      match p_name p with
      | None => Crash
      | Some s =>
          if negb (streq (val s) name)
          then getProtocolNode next name
          else Ret ptr
      end
  end.

Fixpoint getUnitNode (ptr : list Unit) (name : string) : list Unit :=
  match ptr with
  | [] => []
  | u :: next =>
      match u_abbrev u with
      | Some s => if negb (streq (val s) name) then getUnitNode next name else ptr
      | None => ptr
      end
  end.

Fixpoint getMacroNode (ptr : list Macro) (name : string) : list Macro :=
  match ptr with
  | [] => []
  | m :: next =>
      match m_name m with
      | Some s => if negb (streq (val s) name) then getMacroNode next name else ptr
      | None => ptr
      end
  end.

Fixpoint getCommandNode (ptr : list Command) (name : option string)
  : list Command :=
  match ptr with
  | [] => []
  | c :: next =>
      match c_name c, name with
      | Some s, Some n =>
          if negb (streq (val s) n) then getCommandNode next name else ptr
      | _, _ => ptr
      end
  end.

Fixpoint getDeviceNode (ptr : list Device) (id : option string)
  : outcome (list Device) :=
  match ptr with
  | [] => Ret []
  | d :: next =>
      match d_id d, id with
      | Some s, Some i =>
          if negb (streq (val s) i) then getDeviceNode next id else Ret ptr
      | _, _ => Crash
      end
  end.

Fixpoint getIcmdNode (ptr : list iCmd) (name : string) : list iCmd :=
  match ptr with
  | [] => []
  | i :: next =>
      match ic_name i with
      | Some s => if negb (streq (val s) name) then getIcmdNode next name else ptr
      | None => ptr
      end
  end.

Section Lookup.
Variable E : Externals.

Fixpoint getAllowNode (ptr : list Allow) (testIP : Z) : list Allow :=
  match ptr with
  | [] => []
  | a :: next =>
      if Z.land (ntohl E (a_ip a)) (a_mask a)
         =? Z.land (ntohl E testIP) (a_mask a)
      then ptr
      else getAllowNode next testIP
  end.
End Lookup.

(** The three tests of [getEnumNode] on one entry, in source order. *)
Definition enum_bytes_hit (e : Enumerate) (search : string) (len : Z)
  : outcome bool :=
  if 0 <? len then
    match e_bytes e with
    | Some b => memcmp_eq (val b) search (Z.to_nat len)
    | None => Ret false
    end
  else Ret false.

Definition enum_text_hit (e : Enumerate) (search : string) (len : Z) : bool :=
  (len =? 0) &&
  match e_text e with
  | Some t => streq (val t) search
  | None => false
  end.

Definition enum_default_hit (e : Enumerate) (len : Z) : bool :=
  (len <? 0) && match e_bytes e with None => true | Some _ => false end.

Fixpoint getEnumNode (ptr : list Enumerate) (search : string) (len : Z)
  : outcome (list Enumerate) :=
  match ptr with
  | [] => Ret []
  | e :: next =>
      match enum_bytes_hit e search len with
      | Ret true => Ret ptr
      | Ret false =>
          if enum_text_hit e search len then Ret ptr
          else if enum_default_hit e len then Ret ptr
          else getEnumNode next search len
      | Crash => Crash
      | Timeout => Timeout
      end
  end.

(** ** Release *)

(** [removeCompileList] (parser.c) releases the blocks of the chain. *)
Fixpoint removeCompileList (ptr : list nat) : M unit :=
  match ptr with
  | [] => ret tt
  | p :: next =>
      let* _ := free_block p in removeCompileList next
  end.

Fixpoint removeMacroList (ptr : list Macro) : M unit :=
  match ptr with
  | [] => ret tt
  | m :: next =>
      let* _ := (if non_null next then removeMacroList next else ret tt) in
      let* _ := free (m_name m) in
      let* _ := free (m_command m) in
      free_block (m_self m)
  end.

Fixpoint removeIcmdList (ptr : list iCmd) : M unit :=
  match ptr with
  | [] => ret tt
  | i :: next =>
      let* _ := (if non_null next then removeIcmdList next else ret tt) in
      let* _ := free (ic_name i) in
      let* _ := free (ic_send i) in
      free_block (ic_self i)
  end.

Fixpoint removeProtocolList (ptr : list Protocol) : M unit :=
  match ptr with
  | [] => ret tt
  | p :: next =>
      let* _ := (if non_null next then removeProtocolList next else ret tt) in
      let* _ := removeMacroList (p_mPtr p) in
      let* _ := removeIcmdList (p_icPtr p) in
      let* _ := free (p_name p) in
      free_block (p_self p)
  end.

Fixpoint removeEnumList (ptr : list Enumerate) : M unit :=
  match ptr with
  | [] => ret tt
  | e :: next =>
      let* _ := (if non_null next then removeEnumList next else ret tt) in
      let* _ := free (e_text e) in
      let* _ := free (e_bytes e) in
      free_block (e_self e)
  end.

Fixpoint removeUnitList (ptr : list Unit) : M unit :=
  match ptr with
  | [] => ret tt
  | u :: next =>
      let* _ := (if non_null next then removeUnitList next else ret tt) in
      let* _ := removeEnumList (u_ePtr u) in
      let* _ := free (u_name u) in
      let* _ := free (u_abbrev u) in
      let* _ := free (u_gCalc u) in
      let* _ := free (u_sCalc u) in
      let* _ := free (u_gICalc u) in
      let* _ := free (u_sICalc u) in
      let* _ := free (u_entity u) in
      let* _ := free (u_type u) in
      free_block (u_self u)
  end.

(** The strings [removeCommandList] releases for one node, in order:
    what the node owns according to its [nodeType]. *)
Definition command_strings (c : Command) : list charp :=
  c_send c ::
  (if 0 <? c_nodeType c
   then [c_addr c; c_precmd c; c_unit c; c_pcmd c; c_errStr c] ++
        (if c_nodeType c =? 1 then [c_name c; c_description c] else [])
   else []).

Fixpoint free_all (l : list charp) : M unit :=
  match l with
  | [] => ret tt
  | p :: rest => let* _ := free p in free_all rest
  end.

Fixpoint removeCommandList (ptr : list Command) : M unit :=
  match ptr with
  | [] => ret tt
  | c :: next =>
      let* _ := (if non_null next then removeCommandList next else ret tt) in
      let* _ := removeCompileList (c_cmpPtr c) in
      let* _ := free_all (command_strings c) in
      free_block (c_self c)
  end.

Fixpoint removeDeviceList (ptr : list Device) : M unit :=
  match ptr with
  | [] => ret tt
  | d :: next =>
      let* _ := (if non_null next then removeDeviceList next else ret tt) in
      let* _ := removeCommandList (d_cmdPtr d) in
      let* _ := free (d_name d) in
      let* _ := free (d_id d) in
      free_block (d_self d)
  end.

Fixpoint removeAllowList (ptr : list Allow) : M unit :=
  match ptr with
  | [] => ret tt
  | a :: next =>
      let* _ := (if non_null next then removeAllowList next else ret tt) in
      let* _ := free (a_text a) in
      free_block (a_self a)
  end.

(** ** The current model *)

Record globals := {
  protoPtr : list Protocol;
  uPtr : list Unit;
  devPtr : list Device;
  cfgPtr : option Config;
  cmdPtr : list Command
}.

Definition unloaded : globals := Build_globals [] [] [] None [].

Definition getConfig (g : globals) : option Config := cfgPtr g.

Definition freeAllLists (g : globals) : M globals :=
  let* _ := removeProtocolList (protoPtr g) in
  let* _ := removeUnitList (uPtr g) in
  let* _ := removeDeviceList (devPtr g) in
  let* _ := removeCommandList (cmdPtr g) in
  match cfgPtr g with
  | Some c =>
      let* _ := free (cfg_tty c) in
      let* _ := free (cfg_logfile c) in
      let* _ := free (cfg_devID c) in
      let* _ := removeAllowList (cfg_aPtr c) in
      let* _ := free_block (cfg_self c) in
      ret unloaded
  | None => ret unloaded
  end.

(** ** The section builders

    Every [while (cur)] loop is a function on its iteration budget; a loop
    (or a recursive call) started by another builder gets the budget
    [gas]. *)

(** [p->next] for a pointer held in a local. *)
Definition next_of (p : option xmlNodePtr) : outcome xmlNodePtr :=
  match p with
  | Some (_ :: next) => Ret next
  | _ => Crash
  end.

Fixpoint strdrop (n : nat) (s : string) : string :=
  match n, s with
  | O, _ => s
  | S n', String _ rest => strdrop n' rest
  | S _, EmptyString => EmptyString
  end.

Definition strtake (n : nat) (s : string) : string := String.substring 0 n s.

(** Conversion of an [int] to [short]. *)
Definition to_short (z : Z) : Z := (z + 32768) mod 65536 - 32768.

(** The bit mask of a prefix length, as [parseConfig] assembles it. *)
Definition allow_mask (size : Z) : Z :=
  if size =? 0 then 0
  else Nat.iter (Z.to_nat (size - 1))
         (λ mask, Z.lor (Z.shiftr mask 1) 0x80000000) 0x80000000.

(** [*chrPtr == 'y' || *chrPtr == '1'] *)
Definition yes_flag (s : string) : Z :=
  match s with
  | String c _ => if Ascii.eqb c "y" || Ascii.eqb c "1" then 1 else 0
  | EmptyString => 0
  end.

(** A step of a builder on the node it appended last. *)
Fixpoint with_last {A} (f : A → M A) (l : list A) : M (list A) :=
  match l with
  | [] => crash
  | [x] => let* y := f x in ret [y]
  | x :: rest => let* r := with_last f rest in ret (x :: r)
  end.

Section Builders.
Variable E : Externals.
Variable gas : nat.

(** The address and the prefix length of an [allow] rule:
    the text before the slash in [char ip[16]], [/32] without a slash. *)
Definition allow_split (chrPtr : string) : outcome (string * Z) :=
  match strchr chrPtr "/" with
  | Some off =>
      if (16 <=? off)%nat then Crash
      else Ret (strtake off chrPtr, to_short (atoi E (strdrop (S off) chrPtr)))
  | None => Ret (strtake 15 chrPtr, 32)
  end.

Definition parseAllow (chrPtr : option string) (cfg : Config) : M Config :=
  match chrPtr with
  | None => crash
  | Some text =>
      let* (ip, size) := lift (allow_split text) in
      if negb (inet_addr E ip =? INADDR_NONE) then
        let* aPtr := newAllowNode (cfg_aPtr cfg) in
        let* t := strdup text in
        let aPtr := set_a_text t aPtr in
        let aPtr := set_a_mask (allow_mask size) aPtr in
        let aPtr := set_a_ip (inet_addr E ip) aPtr in
        ret (set_cfg_aPtr (anchor (linked (cfg_aPtr cfg) aPtr) aPtr) cfg)
      else ret cfg
  end.

Fixpoint parseConfig_loop (fuel : nat) (cur : xmlNodePtr)
    (prevPtr : option xmlNodePtr) (serialFound netFound logFound : bool)
    (cfg : Config) : M Config :=
  match cur with
  | [] => ret cfg
  | n :: next =>
    match fuel with
    | O => timeout
    | S fuel =>
      if strstr (n_name n) "serial" then
        parseConfig_loop fuel (n_children n) (Some cur) true netFound logFound cfg
      else if strstr (n_name n) "net" then
        parseConfig_loop fuel (n_children n) (Some cur) serialFound true logFound cfg
      else if strstr (n_name n) "logging" then
        parseConfig_loop fuel (n_children n) (Some cur) serialFound netFound true cfg
      else if strstr (n_name n) "device" then
        let* v := copy_or_empty (getPropertyNode (n_properties n) "ID") in
        parseConfig_loop fuel next prevPtr serialFound netFound logFound
          (set_cfg_devID v cfg)
      else if serialFound && strstr (n_name n) "tty" then
        let* cfg := match getTextNode n with
                    | Some s => let* v := strdup s in ret (set_cfg_tty v cfg)
                    | None => let* v := nullIT in ret (set_cfg_devID v cfg)
                    end in
        let* cur' := lift (nextNode cur prevPtr) in
        parseConfig_loop fuel cur' prevPtr serialFound netFound logFound cfg
      else if netFound && strstr (n_name n) "port" then
        let cfg := match getTextNode n with
                   | Some s => set_cfg_port (atoi E s) cfg
                   | None => cfg
                   end in
        let* cur' := lift (nextNode cur prevPtr) in
        parseConfig_loop fuel cur' prevPtr serialFound netFound logFound cfg
      else if netFound && strstr (n_name n) "allow" then
        let* cfg := parseAllow (getPropertyNode (n_properties n) "ip") cfg in
        let* cur' := lift (nextNode cur prevPtr) in
        parseConfig_loop fuel cur' prevPtr serialFound netFound logFound cfg
      else if logFound && strstr (n_name n) "file" then
        let* cfg := match getTextNode n with
                    | Some s => let* v := strdup s in ret (set_cfg_logfile v cfg)
                    | None => let* v := nullIT in ret (set_cfg_devID v cfg)
                    end in
        let* cur' := lift (nextNode cur prevPtr) in
        parseConfig_loop fuel cur' prevPtr serialFound netFound logFound cfg
      else if logFound && strstr (n_name n) "syslog" then
        let* s := lift (rd (getTextNode n)) in
        let* cur' := lift (nextNode cur prevPtr) in
        parseConfig_loop fuel cur' prevPtr serialFound netFound logFound
          (set_cfg_syslog (yes_flag s) cfg)
      else if logFound && strstr (n_name n) "debug" then
        let* s := lift (rd (getTextNode n)) in
        let* cur' := lift (nextNode cur prevPtr) in
        parseConfig_loop fuel cur' prevPtr serialFound netFound logFound
          (set_cfg_debug (yes_flag s) cfg)
      else
        let* cur' := lift (nextNode cur prevPtr) in
        parseConfig_loop fuel cur' prevPtr serialFound netFound logFound cfg
    end
  end.

Definition parseConfig (cur : xmlNodePtr) : M (option Config) :=
  let* a := calloc in
  let* cfg := parseConfig_loop gas cur None false false false
                (Build_Config a None 0 None 0 0 None [] []) in
  ret (Some cfg).

(** The [enum] child of a unit whose [text] attribute is [text].  For
    bytes that decode to nothing the source calls [calloc(0, 1)], which is
    taken to hand out a block, as the C library of the target does. *)
Definition parseEnum (n : xmlNode) (text : string) (uPtr : Unit) : M Unit :=
  let* ePtr := newEnumNode (u_ePtr uPtr) in
  let* t := strdup text in
  let ePtr := set_e_text t ePtr in
  let* ePtr := match getPropertyNode (n_properties n) "bytes" with
               | Some b =>
                   let bytes := string2chr E b 256 in
                   let* a := calloc in
                   ret (set_e_bytes (Some (CStr a bytes))
                          (set_e_len (Z.of_nat (String.length bytes)) ePtr))
               | None => ret ePtr
               end in
  ret (set_u_ePtr (anchor (linked (u_ePtr uPtr) ePtr) ePtr) uPtr).

Fixpoint parseUnit_loop (fuel : nat) (cur : xmlNodePtr)
    (prevPtr : option xmlNodePtr) (unitFound : bool)
    (uStartPtr : list Unit) : M (list Unit) :=
  match cur with
  | [] => ret uStartPtr
  | n :: next =>
    match fuel with
    | O => timeout
    | S fuel =>
      if is_text_type (n_type n) then
        parseUnit_loop fuel next prevPtr unitFound uStartPtr
      else if strstr (n_name n) "unit" then
        match getPropertyNode (n_properties n) "name" with
        | Some unit =>
            let* uPtr := newUnitNode uStartPtr in
            let* v := strdup unit in
            let uPtr := set_u_name v uPtr in
            parseUnit_loop fuel (n_children n) (Some cur) true
              (anchor (linked uStartPtr uPtr) uPtr)
        | None => parseUnit_loop fuel cur prevPtr unitFound uStartPtr
        end
      else if unitFound && strstr (n_name n) "enum" then
        match getPropertyNode (n_properties n) "text" with
        | Some text =>
            let* start := with_last (parseEnum n text) uStartPtr in
            let* cur' := lift (nextNode cur prevPtr) in
            parseUnit_loop fuel cur' prevPtr unitFound start
        | None => ret []
        end
      else if unitFound && strstr (n_name n) "abbrev" then
        let* v := copy_or_empty (getTextNode n) in
        let* cur' := lift (nextNode cur prevPtr) in
        parseUnit_loop fuel cur' prevPtr unitFound
          (upd_last (set_u_abbrev v) uStartPtr)
      else if unitFound && streq (n_name n) "calc" then
        let* g := copy_or_empty (getPropertyNode (n_properties n) "get") in
        let* s := copy_or_empty (getPropertyNode (n_properties n) "set") in
        let* cur' := lift (nextNode cur prevPtr) in
        parseUnit_loop fuel cur' prevPtr unitFound
          (upd_last (set_u_sCalc s) (upd_last (set_u_gCalc g) uStartPtr))
      else if unitFound && streq (n_name n) "icalc" then
        let* g := copy_or_empty (getPropertyNode (n_properties n) "get") in
        let* s := copy_or_empty (getPropertyNode (n_properties n) "set") in
        let* cur' := lift (nextNode cur prevPtr) in
        parseUnit_loop fuel cur' prevPtr unitFound
          (upd_last (set_u_sICalc s) (upd_last (set_u_gICalc g) uStartPtr))
      else if unitFound && strstr (n_name n) "type" then
        let* v := copy_or_empty (getTextNode n) in
        let* cur' := lift (nextNode cur prevPtr) in
        parseUnit_loop fuel cur' prevPtr unitFound
          (upd_last (set_u_type v) uStartPtr)
      else if unitFound && strstr (n_name n) "entity" then
        let* v := copy_or_empty (getTextNode n) in
        let* cur' := lift (nextNode cur prevPtr) in
        parseUnit_loop fuel cur' prevPtr unitFound
          (upd_last (set_u_entity v) uStartPtr)
      else ret []
    end
  end.

Definition parseUnit (cur : xmlNodePtr) : M (list Unit) :=
  parseUnit_loop gas cur None false [].

Fixpoint parseMacro_loop (fuel : nat) (cur : xmlNodePtr)
    (prevPtr : option xmlNodePtr) (macroFound : bool)
    (mStartPtr : list Macro) : M (list Macro) :=
  match cur with
  | [] => ret mStartPtr
  | n :: next =>
    match fuel with
    | O => timeout
    | S fuel =>
      if is_text_type (n_type n) then
        parseMacro_loop fuel next prevPtr macroFound mStartPtr
      else if strstr (n_name n) "macro" then
        match getPropertyNode (n_properties n) "name" with
        | Some macro =>
            let* mPtr := newMacroNode mStartPtr in
            let* v := strdup macro in
            let mPtr := set_m_name v mPtr in
            parseMacro_loop fuel (n_children n) (Some cur) true
              (anchor (linked mStartPtr mPtr) mPtr)
        | None => parseMacro_loop fuel cur prevPtr macroFound mStartPtr
        end
      else if macroFound && strstr (n_name n) "command" then
        let* v := copy_or_empty (getTextNode n) in
        let* cur' := lift (nextNode cur prevPtr) in
        parseMacro_loop fuel cur' prevPtr macroFound
          (upd_last (set_m_command v) mStartPtr)
      else ret []
    end
  end.

Definition parseMacro (cur : xmlNodePtr) : M (list Macro) :=
  parseMacro_loop gas cur None false [].

Fixpoint parseICmd_loop (fuel : nat) (cur : xmlNodePtr)
    (prevPtr : option xmlNodePtr) (commandFound : bool)
    (icStartPtr : list iCmd) : M (list iCmd) :=
  match cur with
  | [] => ret icStartPtr
  | n :: next =>
    match fuel with
    | O => timeout
    | S fuel =>
      if xmlIsBlankNode n then
        parseICmd_loop fuel next prevPtr commandFound icStartPtr
      else if strstr (n_name n) "command" then
        match getPropertyNode (n_properties n) "name" with
        | Some command =>
            let* icPtr := newIcmdNode icStartPtr in
            let* v := strdup command in
            let icPtr := set_ic_name v icPtr in
            parseICmd_loop fuel (n_children n) (Some cur) true
              (anchor (linked icStartPtr icPtr) icPtr)
        | None => parseICmd_loop fuel cur prevPtr commandFound icStartPtr
        end
      else if commandFound && strstr (n_name n) "send" then
        let* v := copy_or_empty (getTextNode n) in
        let* cur' := lift (nextNode cur prevPtr) in
        parseICmd_loop fuel cur' prevPtr commandFound
          (upd_last (set_ic_send v) icStartPtr)
      else if commandFound && strstr (n_name n) "retry" then
        let start := match getTextNode n with
                     | Some s => upd_last (set_ic_retry (atoi E s)) icStartPtr
                     | None => icStartPtr
                     end in
        let* cur' := lift (nextNode cur prevPtr) in
        parseICmd_loop fuel cur' prevPtr commandFound start
      else if commandFound && strstr (n_name n) "recvTimeout" then
        let start := match getTextNode n with
                     | Some s => upd_last (set_ic_recvTimeout (atoi E s)) icStartPtr
                     | None => icStartPtr
                     end in
        let* cur' := lift (nextNode cur prevPtr) in
        parseICmd_loop fuel cur' prevPtr commandFound start
      else ret []
    end
  end.

Definition parseICmd (cur : xmlNodePtr) : M (list iCmd) :=
  parseICmd_loop gas cur None false [].

(** One [device] element of the devices section: the new node, or [None]
    where the source returns [NULL]. *)
Definition buildDevice (n : xmlNode) (pPtr : list Protocol)
    (dStartPtr : list Device) : M (option Device) :=
  let name := getPropertyNode (n_properties n) "name" in
  let id := getPropertyNode (n_properties n) "ID" in
  match getPropertyNode (n_properties n) "protocol" with
  | Some proto =>
      let* dPtr := newDeviceNode dStartPtr in
      let* v := copy_or_empty name in
      let dPtr := set_d_name v dPtr in
      let* v := copy_or_empty id in
      let dPtr := set_d_id v dPtr in
      let* pp := lift (getProtocolNode pPtr proto) in
      match pp with
      | [] => ret None
      | _ :: _ => ret (Some (set_d_protoPtr pp dPtr))
      end
  | None => ret None
  end.

Fixpoint parseDevice_loop (fuel : nat) (cur : xmlNodePtr)
    (prevPtr : option xmlNodePtr) (pPtr : list Protocol)
    (dStartPtr : list Device) : M (list Device) :=
  match cur with
  | [] => ret dStartPtr
  | n :: next =>
    match fuel with
    | O => timeout
    | S fuel =>
      if is_text_type (n_type n) then
        parseDevice_loop fuel next prevPtr pPtr dStartPtr
      else if strstr (n_name n) "device" then
        let* r := buildDevice n pPtr dStartPtr in
        match r with
        | Some dPtr =>
            parseDevice_loop fuel next (Some cur) pPtr
              (anchor (linked dStartPtr dPtr) dPtr)
        | None => ret []
        end
      else
        let* cur' := lift (nextNode cur prevPtr) in
        parseDevice_loop fuel cur' prevPtr pPtr dStartPtr
    end
  end.

Definition parseDevice (cur : xmlNodePtr) (pPtr : list Protocol)
  : M (list Device) :=
  parseDevice_loop gas cur None pPtr [].

Fixpoint parseProtocol_loop (fuel : nat) (cur : xmlNodePtr)
    (prevPtr : option xmlNodePtr) (protoFound : bool)
    (protoStartPtr : list Protocol) : M (list Protocol) :=
  match cur with
  | [] => ret protoStartPtr
  | n :: next =>
    match fuel with
    | O => timeout
    | S fuel =>
      if is_text_type (n_type n) then
        parseProtocol_loop fuel next prevPtr protoFound protoStartPtr
      else if strstr (n_name n) "protocol" then
        match getPropertyNode (n_properties n) "name" with
        | Some proto =>
            let* pPtr := newProtocolNode protoStartPtr in
            let* v := strdup proto in
            let pPtr := set_p_name v pPtr in
            parseProtocol_loop fuel (n_children n) (Some cur) true
              (anchor (linked protoStartPtr pPtr) pPtr)
        | None => ret []
        end
      else if protoFound && strstr (n_name n) "pid" then
        let* s := lift (rd (getTextNode n)) in
        let* cur' := lift (nextNode cur prevPtr) in
        parseProtocol_loop fuel cur' prevPtr protoFound
          (upd_last (set_p_id (hex2chr E s)) protoStartPtr)
      else if protoFound && strstr (n_name n) "macros" then
        let* mPtr := parseMacro (n_children n) in
        let start := match mPtr with
                     | [] => protoStartPtr
                     | _ :: _ => upd_last (set_p_mPtr mPtr) protoStartPtr
                     end in
        let* cur' := lift (nextNode cur prevPtr) in
        parseProtocol_loop fuel cur' prevPtr protoFound start
      else if protoFound && strstr (n_name n) "commands" then
        let* icPtr := parseICmd (n_children n) in
        let start := match icPtr with
                     | [] => protoStartPtr
                     | _ :: _ => upd_last (set_p_icPtr icPtr) protoStartPtr
                     end in
        let* cur' := lift (nextNode cur prevPtr) in
        parseProtocol_loop fuel cur' prevPtr protoFound start
      else
        let* cur' := lift (nextNode cur prevPtr) in
        parseProtocol_loop fuel cur' prevPtr protoFound protoStartPtr
    end
  end.

Definition parseProtocol (cur : xmlNodePtr) : M (list Protocol) :=
  parseProtocol_loop gas cur None false [].

(** *** Commands *)

(** Where the local [cPtr] of [parseCommand] points: nowhere, to the node
    the caller passed in, or to the node appended last to the local
    chain [cStartPtr]. *)
Inductive cmdref := AtNull | AtArg | AtLast.

(** [*cPtr] *)
Definition cmd_at (r : cmdref) (cStartPtr : list Command)
    (arg : option Command) : outcome Command :=
  match r with
  | AtNull => Crash
  | AtArg => rd arg
  | AtLast => rd (last cStartPtr)
  end.

(** [cPtr->field = v] *)
Definition cmd_upd (r : cmdref) (f : Command → Command)
    (cStartPtr : list Command) (arg : option Command)
  : outcome (list Command * option Command) :=
  match r with
  | AtNull => Crash
  | AtArg => match arg with
             | Some c => Ret (cStartPtr, Some (f c))
             | None => Crash
             end
  | AtLast => match cStartPtr with
              | [] => Crash
              | _ :: _ => Ret (upd_last f cStartPtr, arg)
              end
  end.

(** What the new device command takes from the enclosing command
    (after the children of the [device] element have been read). *)
Definition inheritCommand (cPtr : Command) (protocmd : option string)
    (ncPtr : Command) : M Command :=
  let ncPtr := set_c_description (c_description cPtr) ncPtr in
  let ncPtr := set_c_name (c_name cPtr) ncPtr in
  let* ncPtr := match c_unit ncPtr, c_unit cPtr with
                | None, Some u =>
                    let* v := strdup (val u) in ret (set_c_unit v ncPtr)
                | _, _ => ret ncPtr
                end in
  let* ncPtr := match protocmd with
                | Some p =>
                    let* v := strdup p in ret (set_c_pcmd v ncPtr)
                | None =>
                    let* p := lift (rd (c_pcmd cPtr)) in
                    let* v := strdup (val p) in ret (set_c_pcmd v ncPtr)
                end in
  ret (set_c_nodeType 2 ncPtr).

(** [if (! dPtr->cmdPtr) dPtr->cmdPtr = ncPtr;
     else addCommandNode(dPtr->cmdPtr, ncPtr);] *)
Definition attachCommand (ncPtr : Command) (dPtr : Device) : Device :=
  set_d_cmdPtr (anchor (addCommandNode (d_cmdPtr dPtr) ncPtr) ncPtr) dPtr.

(** The position in the chain [dePtr] of the node that [dPtr], a result
    of [getDeviceNode dePtr], points to. *)
Definition position {A} (chain found : list A) : nat :=
  (List.length chain - List.length found)%nat.

(** The assignment an [error] element makes: the decoded bytes when
    there are any, no assignment when the codec returns none, the empty
    string when the element has no text. *)
Definition errorField (chrPtr : option string) : M (Command → Command) :=
  match chrPtr with
  | Some s =>
      let bytes := string2chr E s 256 in
      if (String.length bytes =? 0)%nat then ret id
      else let* a := calloc in ret (set_c_errStr (Some (CStr a bytes)))
  | None => let* v := nullIT in ret (set_c_errStr v)
  end.

(** The locals of [parseCommand] in its loop, with the node the caller
    passed in and the device chain as they stand. *)
Record cmdloop := {
  cl_cur : xmlNodePtr;
  cl_prevPtr : option xmlNodePtr;
  cl_commandFound : bool;
  cl_cStartPtr : list Command;
  cl_cPtr : cmdref;
  cl_arg : option Command;
  cl_dePtr : list Device
}.

(** What a call of [parseCommand] leaves: the value returned, the node
    the caller passed in and the device chain. *)
Definition cmdret : Type := list Command * option Command * list Device.

Definition leave (r : list Command) (s : cmdloop) : cmdret :=
  (r, cl_arg s, cl_dePtr s).

Definition at_node (cur : xmlNodePtr) (s : cmdloop) : cmdloop :=
  Build_cmdloop cur (cl_prevPtr s) (cl_commandFound s) (cl_cStartPtr s)
    (cl_cPtr s) (cl_arg s) (cl_dePtr s).

(** A leaf field: [cPtr->field = ...; cur = getNextNode(cur, prevPtr);] *)
Definition field (s : cmdloop) (v : M (Command → Command))
  : M (cmdloop + cmdret) :=
  let* f := v in
  let* (start, arg) := lift (cmd_upd (cl_cPtr s) f (cl_cStartPtr s) (cl_arg s)) in
  let* cur := lift (nextNode (cl_cur s) (cl_prevPtr s)) in
  ret (inl (Build_cmdloop cur (cl_prevPtr s) (cl_commandFound s) start
              (cl_cPtr s) arg (cl_dePtr s))).

(** A [device] element with attribute [ID] below a command. [rec] is the
    recursive call [parseCommand(cur->children, ncPtr, dePtr)]. *)
Definition deviceCommand
    (rec : xmlNodePtr → Command → list Device → M cmdret)
    (n : xmlNode) (id : string) (s : cmdloop) : M (cmdloop + cmdret) :=
  let protocmd := getPropertyNode (n_properties n) "protocmd" in
  let* dPtr := lift (getDeviceNode (cl_dePtr s) (Some id)) in
  match dPtr with
  | [] => ret (inr (leave [] s))
  | _ :: _ =>
      let* c := lift (cmd_at (cl_cPtr s) (cl_cStartPtr s) (cl_arg s)) in
      let* _ := lift (rd (c_description c)) in
      let* ncPtr := newCommandNode [] in
      let* (_, ncPtr', dePtr') := rec (n_children n) ncPtr (cl_dePtr s) in
      let* ncPtr := lift (rd ncPtr') in
      let* ncPtr := inheritCommand c protocmd ncPtr in
      let* cur := lift (nextNode (cl_cur s) (cl_prevPtr s)) in
      ret (inl (Build_cmdloop cur (cl_prevPtr s) (cl_commandFound s)
                  (cl_cStartPtr s) (cl_cPtr s) (cl_arg s)
                  (alter (attachCommand ncPtr) (position (cl_dePtr s) dPtr)
                     dePtr')))
  end.

(** One iteration of the loop of [parseCommand], at the node [n] with
    successors [next]: the locals for the next iteration, or the value
    returned. *)
Definition command_step
    (rec : xmlNodePtr → Command → list Device → M cmdret)
    (n : xmlNode) (next : xmlNodePtr) (s : cmdloop) : M (cmdloop + cmdret) :=
  if xmlIsBlankNode n then ret (inl (at_node next s))
  else if streq (n_name n) "command" then
    let protocmd := getPropertyNode (n_properties n) "protocmd" in
    match getPropertyNode (n_properties n) "name" with
    | Some command =>
        let* ncPtr := newCommandNode (cl_cStartPtr s) in
        let ncPtr := set_c_nodeType 1 ncPtr in
        let* v := strdup command in
        let ncPtr := set_c_name v ncPtr in
        let* v := copy_or_empty protocmd in
        let ncPtr := set_c_pcmd v ncPtr in
        ret (inl (Build_cmdloop (n_children n) (Some (n :: next)) true
                    (anchor (linked (cl_cStartPtr s) ncPtr) ncPtr) AtLast
                    (cl_arg s) (cl_dePtr s)))
    | None => ret (inl s)
    end
  else if cl_commandFound s && strstr (n_name n) "device" then
    match getPropertyNode (n_properties n) "ID" with
    | Some id => deviceCommand rec n id s
    | None => ret (inl s)
    end
  else if cl_commandFound s && strstr (n_name n) "addr" then
    field s (let* v := copy_or_empty (getTextNode n) in ret (set_c_addr v))
  else if cl_commandFound s && strstr (n_name n) "error" then
    field s (errorField (getTextNode n))
  else if cl_commandFound s && strstr (n_name n) "unit" then
    field s (let* v := copy_or_empty (getTextNode n) in ret (set_c_unit v))
  else if cl_commandFound s && streq (n_name n) "precommand" then
    field s (let* v := copy_or_empty (getTextNode n) in ret (set_c_precmd v))
  else if cl_commandFound s && strstr (n_name n) "description" then
    field s (let* v := copy_or_empty (getTextNode n) in
             ret (set_c_description v))
  else if cl_commandFound s && strstr (n_name n) "len" then
    field s (ret (match getTextNode n with
                  | Some t => set_c_len (atoi E t)
                  | None => id
                  end))
  else if cl_commandFound s && strstr (n_name n) "bit" then
    field s (ret (match getTextNode n with
                  | Some t => set_c_bit (atoi E t)
                  | None => id
                  end))
  else ret (inr (leave [] s)).

(** The locals at the start of [parseCommand(cur, cPtr, dePtr)]. *)
Definition cmdloop0 (cur : xmlNodePtr) (cPtr : option Command)
    (dePtr : list Device) : cmdloop :=
  match cPtr with
  | None => Build_cmdloop cur None false [] AtNull None dePtr
  | Some _ => Build_cmdloop cur (Some []) true [] AtArg cPtr dePtr
  end.

(** The loop of [parseCommand]; the recursive call shares its budget. *)
Fixpoint parseCommand_loop (fuel : nat) (s : cmdloop) : M cmdret :=
  match cl_cur s with
  | [] => ret (leave (cl_cStartPtr s) s)
  | n :: next =>
    match fuel with
    | O => timeout
    | S fuel =>
        let* r := command_step
                    (λ cur ncPtr dePtr,
                       parseCommand_loop fuel (cmdloop0 cur (Some ncPtr) dePtr))
                    n next s in
        match r with
        | inl s' => parseCommand_loop fuel s'
        | inr v => ret v
        end
    end
  end.

(** [parseCommand(cur, cPtr, dePtr)] *)
Definition parseCommand (cur : xmlNodePtr) (cPtr : option Command)
    (dePtr : list Device) : M cmdret :=
  parseCommand_loop gas (cmdloop0 cur cPtr dePtr).

End Builders.

(** ** The loader: [parseXMLFile] *)

(** What [xmlParseFile] and the passes run on its result hand to the
    loader: the root element once XInclude has been processed and the
    comments removed, whether the vcontrol namespace was found, and the
    return code of [xmlXIncludeProcessFlags]. *)
Record xmlDoc := {
  doc_root : option xmlNode;
  doc_ns : bool;
  doc_xinclude : Z
}.

(** The locals of [parseXMLFile] during the walk over the sections. *)
Record walk := {
  w_cur : xmlNodePtr;
  w_prevPtr : option xmlNodePtr;
  w_unixFound : bool;
  w_protocolsFound : bool;
  TprotoPtr : list Protocol;
  TuPtr : list Unit;
  TdevPtr : list Device;
  TcmdPtr : list Command;
  TcfgPtr : option Config
}.

Definition goto (cur : xmlNodePtr) (w : walk) : walk :=
  Build_walk cur (w_prevPtr w) (w_unixFound w) (w_protocolsFound w)
    (TprotoPtr w) (TuPtr w) (TdevPtr w) (TcmdPtr w) (TcfgPtr w).
Definition set_w_prevPtr v (w : walk) : walk :=
  Build_walk (w_cur w) (Some v) (w_unixFound w) (w_protocolsFound w)
    (TprotoPtr w) (TuPtr w) (TdevPtr w) (TcmdPtr w) (TcfgPtr w).
Definition set_w_unixFound (w : walk) : walk :=
  Build_walk (w_cur w) (w_prevPtr w) true (w_protocolsFound w)
    (TprotoPtr w) (TuPtr w) (TdevPtr w) (TcmdPtr w) (TcfgPtr w).
Definition set_w_protocolsFound (w : walk) : walk :=
  Build_walk (w_cur w) (w_prevPtr w) (w_unixFound w) true
    (TprotoPtr w) (TuPtr w) (TdevPtr w) (TcmdPtr w) (TcfgPtr w).
Definition set_TprotoPtr v (w : walk) : walk :=
  Build_walk (w_cur w) (w_prevPtr w) (w_unixFound w) (w_protocolsFound w)
    v (TuPtr w) (TdevPtr w) (TcmdPtr w) (TcfgPtr w).
Definition set_TuPtr v (w : walk) : walk :=
  Build_walk (w_cur w) (w_prevPtr w) (w_unixFound w) (w_protocolsFound w)
    (TprotoPtr w) v (TdevPtr w) (TcmdPtr w) (TcfgPtr w).
Definition set_TdevPtr v (w : walk) : walk :=
  Build_walk (w_cur w) (w_prevPtr w) (w_unixFound w) (w_protocolsFound w)
    (TprotoPtr w) (TuPtr w) v (TcmdPtr w) (TcfgPtr w).
Definition set_TcmdPtr v (w : walk) : walk :=
  Build_walk (w_cur w) (w_prevPtr w) (w_unixFound w) (w_protocolsFound w)
    (TprotoPtr w) (TuPtr w) (TdevPtr w) v (TcfgPtr w).
Definition set_TcfgPtr v (w : walk) : walk :=
  Build_walk (w_cur w) (w_prevPtr w) (w_unixFound w) (w_protocolsFound w)
    (TprotoPtr w) (TuPtr w) (TdevPtr w) (TcmdPtr w) v.

Definition walk0 (cur : xmlNodePtr) : walk :=
  Build_walk cur None false false [] [] [] [] None.

(** The copy of a default command into a device that has no command of
    that name. *)
Definition copyCommand (cPtr : Command) (dPtr : Device) : M Device :=
  match getCommandNode (d_cmdPtr dPtr) (deref (c_name cPtr)) with
  | [] =>
      let* ncPtr := newCommandNode (d_cmdPtr dPtr) in
      let ncPtr := set_c_name (c_name cPtr) ncPtr in
      let ncPtr := set_c_pcmd (c_pcmd cPtr) ncPtr in
      let ncPtr := set_c_addr (c_addr cPtr) ncPtr in
      let ncPtr := set_c_unit (c_unit cPtr) ncPtr in
      let ncPtr := set_c_bit (c_bit cPtr) ncPtr in
      let ncPtr := set_c_errStr (c_errStr cPtr) ncPtr in
      let ncPtr := set_c_precmd (c_precmd cPtr) ncPtr in
      let ncPtr := set_c_description (c_description cPtr) ncPtr in
      let ncPtr := set_c_len (c_len cPtr) ncPtr in
      ret (set_d_cmdPtr (anchor (linked (d_cmdPtr dPtr) ncPtr) ncPtr) dPtr)
  | _ :: _ => ret dPtr
  end.

(** The inner loop: all devices, for one default command. *)
Fixpoint copyToDevices (cPtr : Command) (dPtr : list Device) : M (list Device) :=
  match dPtr with
  | [] => ret []
  | d :: next =>
      let* d' := copyCommand cPtr d in
      let* next' := copyToDevices cPtr next in
      ret (d' :: next')
  end.

(** The outer loop: all default commands. *)
Fixpoint copyDefaults (cPtr : list Command) (TdevPtr : list Device)
  : M (list Device) :=
  match cPtr with
  | [] => ret TdevPtr
  | c :: next =>
      let* devs := copyToDevices c TdevPtr in
      copyDefaults next devs
  end.

Section Loader.
Variable E : Externals.
Variable gas : nat.

(** One iteration of the walk over the sections, at the node [n] with
    successors [next]; [None] where the source returns 0. *)
Definition section_step (n : xmlNode) (next : xmlNodePtr) (w : walk)
  : M (option walk) :=
  let cur := n :: next in
  if xmlIsBlankNode n then ret (Some (goto next w))
  else if strstr (n_name n) "unix" then
    if w_unixFound w then ret None
    else ret (Some (goto (n_children n) (set_w_unixFound (set_w_prevPtr cur w))))
  else if strstr (n_name n) "extern" then
    match n_children n with
    | c :: cnext =>
        if strstr (n_name c) "vito"
        then ret (Some (goto (n_children c) (set_w_prevPtr (c :: cnext) w)))
        else let* cur' := lift (next_of (w_prevPtr w)) in ret (Some (goto cur' w))
    | [] => let* cur' := lift (next_of (w_prevPtr w)) in ret (Some (goto cur' w))
    end
  else if strstr (n_name n) "protocols" then
    if w_protocolsFound w then ret None
    else
      let* p := parseProtocol E gas (n_children n) in
      match p with
      | [] => ret None
      | _ :: _ => ret (Some (goto next (set_TprotoPtr p (set_w_protocolsFound w))))
      end
  else if strstr (n_name n) "units" then
    let* u := parseUnit E gas (n_children n) in
    match u with
    | [] => ret None
    | _ :: _ => ret (Some (goto next (set_TuPtr u w)))
    end
  else if strstr (n_name n) "commands" then
    let* (c, _, devs) := parseCommand E gas (n_children n) None (TdevPtr w) in
    match c with
    | [] => ret None
    | _ :: _ =>
        let* cur' := (if non_null next then ret next
                      else lift (next_of (w_prevPtr w))) in
        ret (Some (goto cur' (set_TcmdPtr c (set_TdevPtr devs w))))
    end
  else if strstr (n_name n) "devices" then
    let* d := parseDevice gas (n_children n) (TprotoPtr w) in
    match d with
    | [] => ret None
    | _ :: _ =>
        let* cur' := (if non_null next then ret next
                      else lift (next_of (w_prevPtr w))) in
        ret (Some (goto cur' (set_TdevPtr d w)))
    end
  else if strstr (n_name n) "config" then
    let* c := parseConfig E gas (n_children n) in
    match c with
    | None => ret None
    | Some _ =>
        let* cur' := (if non_null next && non_null (tail next) then ret next
                      else lift (next_of (w_prevPtr w))) in
        ret (Some (goto cur' (set_TcfgPtr c w)))
    end
  else ret (Some (goto next w)).

Fixpoint sections (fuel : nat) (w : walk) : M (option walk) :=
  match w_cur w with
  | [] => ret (Some w)
  | n :: next =>
    match fuel with
    | O => timeout
    | S fuel =>
        let* r := section_step n next w in
        match r with
        | Some w' => sections fuel w'
        | None => ret None
        end
    end
  end.

(** The search for the default device, after the default commands have
    been copied into the devices. *)
Definition resolveDefaults (w : walk) : M (option globals) :=
  let* devs := copyDefaults (TcmdPtr w) (TdevPtr w) in
  let* cfg := lift (rd (TcfgPtr w)) in
  let* d := lift (getDeviceNode devs (deref (cfg_devID cfg))) in
  match d with
  | [] => ret None
  | _ :: _ =>
      ret (Some (Build_globals (TprotoPtr w) (TuPtr w) devs
                   (Some (set_cfg_devPtr d cfg)) (TcmdPtr w)))
  end.

(** [parseXMLFile] up to the point where the load is known to have
    succeeded: the candidate lists, or [None] where the source returns 0. *)
Definition compile (doc : option xmlDoc) : M (option globals) :=
  match doc with
  | None => ret None
  | Some d =>
      match doc_root d with
      | None => ret None
      | Some root =>
          if negb (doc_ns d) then ret None
          else if negb (streq (n_name root) "V-Control") then ret None
          else if to_short (doc_xinclude d) <? 0 then ret None
          else
            let* r := sections gas (walk0 (n_children root)) in
            match r with
            | None => ret None
            | Some w => resolveDefaults w
            end
      end
  end.

(** [parseXMLFile]: the value returned and the globals afterwards. *)
Definition parseXMLFile (doc : option xmlDoc) (g : globals) : M (Z * globals) :=
  let* T := compile doc in
  match T with
  | None => ret (0, g)
  | Some T =>
      let* _ := freeAllLists g in
      ret (1, T)
  end.

End Loader.

(** * Vocabulary of the properties *)

(** ** First match over a chain *)

(** The scan all the lookups perform: the chain from the first node on
    which [stop] holds. *)
Fixpoint scan {A} (stop : A → bool) (ptr : list A) : list A :=
  match ptr with
  | [] => []
  | x :: next => if stop x then ptr else scan stop next
  end.

(** [found] is where a first-match scan of [ptr] for [stop] ends: the
    nodes before it do not satisfy [stop], and its head, if any, does. *)
Definition first_match {A} (stop : A → bool) (ptr found : list A) : Prop :=
  ∃ before, ptr = before ++ found
    ∧ Forall (λ x, stop x = false) before
    ∧ match found with [] => True | x :: _ => stop x = true end.

(** The key tests of the name-keyed lookups. *)
Definition key_stops (key : charp) (name : string) : bool :=
  match key with
  | Some s => streq (val s) name
  | None => true
  end.

Definition command_stops (name : option string) (c : Command) : bool :=
  match c_name c, name with
  | Some s, Some n => streq (val s) n
  | _, _ => true
  end.

(** The rule as the specification words it: the sibling is taken unless
    it is a pure-whitespace text node without a successor. *)
Definition getNextNode_blank_rule (cur prevPtr : xmlNodePtr)
  : outcome xmlNodePtr :=
  match cur with
  | [] => Crash
  | _ :: next =>
      if match next with
         | [] => false
         | n :: nn => negb (xmlIsBlankNode n) || non_null nn
         end
      then Ret next
      else match prevPtr with
           | [] => Ret []
           | _ :: pnext => Ret pnext
           end
  end.

(** [found] is the chain from the first node of [ptr] that satisfies [P]
    (empty when there is none). *)
Definition first_where {A} (P : A → Prop) (ptr found : list A) : Prop :=
  ∃ before, ptr = before ++ found
    ∧ Forall (λ x, ¬ P x) before
    ∧ match found with [] => True | x :: _ => P x end.

(** A key that ends a scan for [name]: a null key, or one equal to it. *)
Definition keyless_or_named (key : charp) (name : string) : Prop :=
  key = None ∨ ∃ s, key = Some s ∧ val s = name.

(** An entry matches a byte pattern of [len] bytes. *)
Definition bytes_match (search : string) (len : Z) (e : Enumerate) : Prop :=
  ∃ b, e_bytes e = Some b
    ∧ strtake (Z.to_nat len) (val b) = strtake (Z.to_nat len) search.

(** No entry of the chain is shorter than the pattern compared with it. *)
Definition readable (search : string) (len : Z) (ptr : list Enumerate) : Prop :=
  (Z.to_nat len ≤ String.length search)%nat
  ∧ Forall (λ e, ∀ b, e_bytes e = Some b →
              (Z.to_nat len ≤ String.length (val b))%nat) ptr.

Definition text_match (search : string) (e : Enumerate) : Prop :=
  ∃ t, e_text e = Some t ∧ val t = search.

Definition is_default (e : Enumerate) : Prop := e_bytes e = None.

(** A one-byte pattern. *)
Definition byte1 (n : nat) : string := String (ascii_of_nat n) EmptyString.

(** The unit of the specification's example: on, off, and the default. *)
Definition on_off_auto : list Enumerate :=
  [Build_Enumerate 0 (Some (CStr 1 "on")) (Some (CStr 2 (byte1 1))) 1;
   Build_Enumerate 3 (Some (CStr 4 "off")) (Some (CStr 5 (byte1 0))) 1;
   Build_Enumerate 6 (Some (CStr 7 "auto")) None 0].

(** ** Access rules *)

(** The test of [getAllowNode] on one rule. *)
Definition allows (E : Externals) (testIP : Z) (a : Allow) : Prop :=
  Z.land (ntohl E (a_ip a)) (a_mask a) = Z.land (ntohl E testIP) (a_mask a).

(** ** The allocator *)

(** Between [h] and [h'] blocks have been allocated and none released:
    the live blocks of [h'] are those of [h] and every block handed out
    in between. *)
Definition grows (h h' : heap) : Prop :=
  (brk h ≤ brk h')%nat
  ∧ ∀ b, b ∈ live h' ↔ b ∈ live h ∨ (brk h ≤ b < brk h')%nat.

(** A computation that releases nothing. *)
Definition allocates {A} (m : M A) : Prop :=
  ∀ h a h', m h = Ret (a, h') → grows h h'.

(** ** What a generation owns

    The blocks of a chain, in the order in which the release routines
    visit them: the blocks of the successors first, then for each node
    what it owns and the node itself. *)

Definition blk (p : charp) : list nat :=
  match p with
  | Some s => [addr s]
  | None => []
  end.

Fixpoint chain_blocks {A} (own : A → list nat) (ptr : list A) : list nat :=
  match ptr with
  | [] => []
  | x :: next => chain_blocks own next ++ own x
  end.

Definition macro_own (m : Macro) : list nat :=
  blk (m_name m) ++ blk (m_command m) ++ [m_self m].

Definition macro_blocks (ptr : list Macro) : list nat :=
  chain_blocks macro_own ptr.

Definition icmd_own (i : iCmd) : list nat :=
  blk (ic_name i) ++ blk (ic_send i) ++ [ic_self i].

Definition icmd_blocks (ptr : list iCmd) : list nat :=
  chain_blocks icmd_own ptr.

Definition protocol_own (p : Protocol) : list nat :=
  macro_blocks (p_mPtr p) ++ icmd_blocks (p_icPtr p) ++ blk (p_name p)
    ++ [p_self p].

Definition protocol_blocks (ptr : list Protocol) : list nat :=
  chain_blocks protocol_own ptr.

Definition enum_own (e : Enumerate) : list nat :=
  blk (e_text e) ++ blk (e_bytes e) ++ [e_self e].

Definition enum_blocks (ptr : list Enumerate) : list nat :=
  chain_blocks enum_own ptr.

Definition unit_own (u : Unit) : list nat :=
  enum_blocks (u_ePtr u) ++ blk (u_name u) ++ blk (u_abbrev u)
    ++ blk (u_gCalc u) ++ blk (u_sCalc u) ++ blk (u_gICalc u)
    ++ blk (u_sICalc u) ++ blk (u_entity u) ++ blk (u_type u) ++ [u_self u].

Definition unit_blocks (ptr : list Unit) : list nat :=
  chain_blocks unit_own ptr.

(** A command owns the strings its [nodeType] says it owns: all of them
    for an original node (1), all but name and description for a device
    command (2), none but [send] for a copied default (0). *)
Definition command_own (c : Command) : list nat :=
  c_cmpPtr c ++ List.concat (map blk (command_strings c)) ++ [c_self c].

Definition command_blocks (ptr : list Command) : list nat :=
  chain_blocks command_own ptr.

Definition device_own (d : Device) : list nat :=
  command_blocks (d_cmdPtr d) ++ blk (d_name d) ++ blk (d_id d) ++ [d_self d].

Definition device_blocks (ptr : list Device) : list nat :=
  chain_blocks device_own ptr.

Definition allow_own (a : Allow) : list nat :=
  blk (a_text a) ++ [a_self a].

Definition allow_blocks (ptr : list Allow) : list nat :=
  chain_blocks allow_own ptr.

Definition config_own (c : Config) : list nat :=
  blk (cfg_tty c) ++ blk (cfg_logfile c) ++ blk (cfg_devID c)
    ++ allow_blocks (cfg_aPtr c) ++ [cfg_self c].

Definition config_blocks (c : option Config) : list nat :=
  from_option config_own [] c.

Definition generation_blocks (g : globals) : list nat :=
  protocol_blocks (protoPtr g) ++ unit_blocks (uPtr g)
    ++ device_blocks (devPtr g) ++ command_blocks (cmdPtr g)
    ++ config_blocks (cfgPtr g).

(** The blocks of a generation are live and no two of them coincide: it
    can be released. *)
Definition releasable (g : globals) (h : heap) : Prop :=
  NoDup (generation_blocks g) ∧ ∀ b, b ∈ generation_blocks g → b ∈ live h.

(** The heap once the blocks [l] have been released. *)
Definition without (l : list nat) (h : heap) : heap :=
  Heap (brk h) (live h ∖ list_to_set l).

(** The release of the blocks [l], one after the other. *)
Fixpoint release (l : list nat) : M unit :=
  match l with
  | [] => ret tt
  | p :: rest => let* _ := free_block p in release rest
  end.

(** The computation [m] releases the blocks [l], in this order. *)
Definition frees (m : M unit) (l : list nat) : Prop :=
  ∀ h, m h = release l h.

(** ** What a compile allocates *)

(** The blocks handed out between [h] and [h']. *)
Definition allocated (h h' : heap) : list nat :=
  seq (brk h) (brk h' - brk h).

(** The result of [m] owns each of its blocks once, and they are blocks
    of [pre] or blocks that [m] has allocated itself. *)
Definition within {A} (own : A → list nat) (pre : list nat) (m : M A) : Prop :=
  ∀ h a h', m h = Ret (a, h') →
    (brk h ≤ brk h')%nat ∧ own a ⊆+ pre ++ allocated h h'.

(** The assignment [f] to a node adds at most the blocks [extra] to what
    the node owns. *)
Class Writes {A} (own : A → list nat) (f : A → A) (extra : list nat) : Prop :=
  writes : ∀ x, own (f x) ⊆+ own x ++ extra.

(** The blocks of a command whatever its tag: those of an original node. *)
Definition command_all (c : Command) : list nat :=
  command_own (set_c_nodeType 1 c).

Definition arg_all (arg : option Command) : list nat :=
  match arg with
  | Some c => command_all c
  | None => []
  end.

(** The blocks held by the locals of [parseCommand], by what it returns,
    and by the outcome of one iteration. *)
Definition cmdloop_blocks (s : cmdloop) : list nat :=
  command_blocks (cl_cStartPtr s) ++ arg_all (cl_arg s)
    ++ device_blocks (cl_dePtr s).

Definition cmdret_blocks (r : cmdret) : list nat :=
  command_blocks (fst (fst r)) ++ arg_all (snd (fst r))
    ++ device_blocks (snd r).

Definition cmdstep_blocks (r : cmdloop + cmdret) : list nat :=
  match r with
  | inl s => cmdloop_blocks s
  | inr v => cmdret_blocks v
  end.

(** The assignment a field element computes adds to the node it is made
    to only blocks that the computation has allocated. *)
Definition assigns (v : M (Command → Command)) : Prop :=
  ∀ h f h', v h = Ret (f, h') →
    (brk h ≤ brk h')%nat
    ∧ Writes command_own f (allocated h h')
    ∧ Writes command_all f (allocated h h').

(** ** Runs of the loader *)

(** The branch the walk over the sections takes at a node. *)
Inductive section_kind :=
| SBlank | SUnix | SExtern | SProtocols | SUnits | SCommands | SDevices
| SConfig | SOther.

Definition section_of (n : xmlNode) : section_kind :=
  if xmlIsBlankNode n then SBlank
  else if strstr (n_name n) "unix" then SUnix
  else if strstr (n_name n) "extern" then SExtern
  else if strstr (n_name n) "protocols" then SProtocols
  else if strstr (n_name n) "units" then SUnits
  else if strstr (n_name n) "commands" then SCommands
  else if strstr (n_name n) "devices" then SDevices
  else if strstr (n_name n) "config" then SConfig
  else SOther.

(** The locals of [parseXMLFile] and the heap after [k] iterations of the
    walk, when it gets that far. *)
Fixpoint walk_after (E : Externals) (gas k : nat) (w : walk) (h : heap)
  : option (walk * heap) :=
  match k with
  | O => Some (w, h)
  | S k' =>
      match w_cur w with
      | [] => None
      | n :: next =>
          match section_step E gas n next w h with
          | Ret (Some w', h') => walk_after E gas k' w' h'
          | _ => None
          end
      end
  end.

(** A builder stage fails in the state [w], [h] of the walk, leaving the
    heap [h']: the builder of the section at hand returns [NULL]. *)
Inductive stage_fails (E : Externals) (gas : nat) (w : walk) (h h' : heap)
  : Prop :=
| protocols_fail n next :
    w_cur w = n :: next → section_of n = SProtocols →
    w_protocolsFound w = false →
    parseProtocol E gas (n_children n) h = Ret ([], h') →
    stage_fails E gas w h h'
| units_fail n next :
    w_cur w = n :: next → section_of n = SUnits →
    parseUnit E gas (n_children n) h = Ret ([], h') →
    stage_fails E gas w h h'
| commands_fail n next arg devs :
    w_cur w = n :: next → section_of n = SCommands →
    parseCommand E gas (n_children n) None (TdevPtr w) h
    = Ret (([], arg, devs), h') →
    stage_fails E gas w h h'
| devices_fail n next :
    w_cur w = n :: next → section_of n = SDevices →
    parseDevice gas (n_children n) (TprotoPtr w) h = Ret ([], h') →
    stage_fails E gas w h h'.

(** The checks of [parseXMLFile] on the document before the walk. *)
Definition vcontrol_document (d : xmlDoc) (root : xmlNode) : Prop :=
  doc_root d = Some root ∧ doc_ns d = true ∧ n_name root = "V-Control"
  ∧ 0 ≤ to_short (doc_xinclude d).

(** The compile of [doc] from the heap [h] fails at a builder or compiler
    stage, leaving the heap [h']: after some iterations of the walk a
    builder returns [NULL], or the walk ends and the default device of
    the configuration is not in the device chain. *)
Inductive build_fails (E : Externals) (gas : nat) (doc : option xmlDoc)
    (h h' : heap) : Prop :=
| fails_in_stage d root k w hw :
    doc = Some d → vcontrol_document d root →
    walk_after E gas k (walk0 (n_children root)) h = Some (w, hw) →
    (k < gas)%nat →
    stage_fails E gas w hw h' →
    build_fails E gas doc h h'
| fails_default_device d root w hw devs cfg :
    doc = Some d → vcontrol_document d root →
    sections E gas gas (walk0 (n_children root)) h = Ret (Some w, hw) →
    copyDefaults (TcmdPtr w) (TdevPtr w) hw = Ret (devs, h') →
    TcfgPtr w = Some cfg →
    getDeviceNode devs (deref (cfg_devID cfg)) = Ret [] →
    build_fails E gas doc h h'.

(** ** Default commands *)

(** The node [n] holds the very fields of [c]: the same string pointers
    and the same numbers. *)
Definition borrows (n c : Command) : Prop :=
  c_name n = c_name c ∧ c_pcmd n = c_pcmd c ∧ c_addr n = c_addr c
  ∧ c_unit n = c_unit c ∧ c_bit n = c_bit c ∧ c_errStr n = c_errStr c
  ∧ c_precmd n = c_precmd c ∧ c_description n = c_description c
  ∧ c_len n = c_len c.

(** A copy of the default command [c]: it borrows its fields, has
    [nodeType] 0 and owns nothing but its own block. *)
Definition default_copy (c n : Command) : Prop :=
  borrows n c ∧ c_nodeType n = 0 ∧ c_send n = None ∧ c_cmpPtr n = [].

(** The device [d'] is [d] with copies of commands of [cmds] appended to
    its command chain. *)
Definition extended (cmds : list Command) (d d' : Device) : Prop :=
  ∃ added, d' = set_d_cmdPtr (d_cmdPtr d ++ added) d
    ∧ Forall (λ n, ∃ c, c ∈ cmds ∧ default_copy c n) added.

(** ** Device commands *)

(** The device [d'] is the node [d] with records appended to its command
    chain. *)
Definition device_grown (d d' : Device) : Prop :=
  d_self d' = d_self d ∧ d_name d' = d_name d ∧ d_id d' = d_id d
  ∧ d_protoPtr d' = d_protoPtr d
  ∧ ∃ added, d_cmdPtr d' = d_cmdPtr d ++ added.

(** What a call of [parseCommand] does to the device chain and to the
    node it was given: the devices stay, with longer command chains, and
    a node that was given is still there. *)
Definition keeps_chain (dePtr : list Device) (arg : option Command)
    (r : cmdret) : Prop :=
  Forall2 device_grown dePtr (snd r) ∧ (is_Some arg → is_Some (snd (fst r))).

(** Every live block lies below the break. *)
Definition heap_ok (h : heap) : Prop :=
  ∀ b, b ∈ live h → (b < brk h)%nat.

(** [p] is a copy by value of the text [s], made between [h] and [h']: a
    block with these contents that was not live before and is live now. *)
Definition fresh_copy (s : string) (p : charp) (h h' : heap) : Prop :=
  ∃ a, p = Some (CStr a s) ∧ (a ∉ live h) ∧ a ∈ live h'.

(** The protocol command text of a device command: the [protocmd]
    attribute of the [device] element, else the text of the enclosing
    command. *)
Definition effective_pcmd (protocmd : option string) (c : Command)
  : option string :=
  match protocmd with
  | Some p => Some p
  | None => deref (c_pcmd c)
  end.

(** The unit of a device command [n] built from the record [nested] that
    the children of the [device] element filled in, under the command [c]:
    its own when it has one, else a copy by value of the unit of [c]. *)
Definition unit_inherited (nested c n : Command) (h h' : heap) : Prop :=
  match c_unit nested, c_unit c with
  | Some u, _ => c_unit n = Some u
  | None, Some u => fresh_copy (val u) (c_unit n) h h'
  | None, None => c_unit n = None
  end.

(** ** The devices section *)

(** A node that [parseDevice] takes for a [device] element. *)
Definition device_element (n : xmlNode) : Prop :=
  is_text_type (n_type n) = false ∧ strstr (n_name n) "device" = true.

(** The protocol chain as [parseProtocol] builds it: every protocol has
    a name. *)
Definition named_protocols (pPtr : list Protocol) : Prop :=
  Forall (λ p, p_name p ≠ None) pPtr.

(** The element carries a [protocol] attribute that names a protocol of
    the chain. *)
Definition protocol_resolves (pPtr : list Protocol) (n : xmlNode) : Prop :=
  ∃ proto found,
    getPropertyNode (n_properties n) "protocol" = Some proto
    ∧ getProtocolNode pPtr proto = Ret found ∧ found ≠ [].

(** The text of an attribute that may be missing, as the device keeps it. *)
Definition or_empty (a : option string) : string :=
  match a with
  | Some s => s
  | None => ""
  end.

(** ** The commands section *)

(** The locals of [parseCommand] and the heap after [k] iterations of its
    loop (at the level of the call that started with budget [fuel]), when
    it gets that far. *)
Fixpoint cmd_after (E : Externals) (fuel k : nat) (s : cmdloop) (h : heap)
  {struct k} : option (cmdloop * heap) :=
  match k with
  | O => Some (s, h)
  | S k' =>
      match fuel, cl_cur s with
      | S f, n :: next =>
          match command_step E
                  (λ cur ncPtr dePtr,
                     parseCommand_loop E f (cmdloop0 cur (Some ncPtr) dePtr))
                  n next s h with
          | Ret (inl s', h') => cmd_after E f k' s' h'
          | _ => None
          end
      | _, _ => None
      end
  end.

(** The loop of [parseCommand] stands at a [device] element with the
    attribute [ID] equal to [id], below a command. *)
Definition at_device_element (s : cmdloop) (id : string) : Prop :=
  ∃ n next,
    cl_cur s = n :: next
    ∧ xmlIsBlankNode n = false ∧ streq (n_name n) "command" = false
    ∧ cl_commandFound s = true ∧ strstr (n_name n) "device" = true
    ∧ getPropertyNode (n_properties n) "ID" = Some id.

(** The blocks held by the candidate lists during the walk. *)
Definition walk_blocks (w : walk) : list nat :=
  protocol_blocks (TprotoPtr w) ++ unit_blocks (TuPtr w)
    ++ device_blocks (TdevPtr w) ++ command_blocks (TcmdPtr w)
    ++ config_blocks (TcfgPtr w).

Definition candidate_blocks (T : option globals) : list nat :=
  match T with
  | Some g => generation_blocks g
  | None => []
  end.

(** ** A concrete host and concrete documents

    Instances of what the loader takes from outside, for the examples:
    decimal [atoi], dotted-quad [inet_addr] on a little-endian host, and a
    codec that takes its input as it is. *)

Definition digit (c : ascii) : option Z :=
  let n := nat_of_ascii c in
  if (48 <=? n)%nat && (n <=? 57)%nat then Some (Z.of_nat (n - 48)) else None.

Fixpoint digits (acc : Z) (s : string) : Z :=
  match s with
  | String c rest =>
      match digit c with
      | Some d => digits (10 * acc + d) rest
      | None => acc
      end
  | EmptyString => acc
  end.

Definition decimal (s : string) : Z := digits 0 s.

Fixpoint dotted (parts : nat) (acc : Z) (s : string) : option Z :=
  match parts with
  | O => None
  | S parts' =>
      match strchr s "." with
      | Some off => dotted parts' (acc * 256 + decimal s) (strdrop (S off) s)
      | None => if (parts' =? 0)%nat then Some (acc * 256 + decimal s) else None
      end
  end.

Definition bswap32 (z : Z) : Z :=
  Z.lor
    (Z.lor (Z.shiftl (Z.land z 255) 24)
           (Z.shiftl (Z.land (Z.shiftr z 8) 255) 16))
    (Z.lor (Z.shiftl (Z.land (Z.shiftr z 16) 255) 8)
           (Z.land (Z.shiftr z 24) 255)).

Definition host : Externals := {|
  atoi := decimal;
  inet_addr := λ s, match dotted 4 0 s with
                    | Some v => bswap32 v
                    | None => INADDR_NONE
                    end;
  ntohl := bswap32;
  hex2chr := decimal;
  string2chr := λ s _, s
|}.

Definition text (s : string) : xmlNode :=
  XmlNode XML_TEXT_NODE "text" (Some s) [] [].
Definition attr (k v : string) : xmlNode :=
  XmlNode XML_ATTRIBUTE_NODE k None [] [text v].
Definition elem (name : string) (props children : list xmlNode) : xmlNode :=
  XmlNode XML_ELEMENT_NODE name None props children.
Definition leaf (name s : string) : xmlNode := elem name [] [text s].

Definition empty_heap : heap := Heap 0 ∅.

(** A configuration as the daemon ships it, reduced: one protocol, two
    units, two devices, one default command that the second device
    overrides. *)
Definition config_section : xmlNode :=
  elem "config" [] [
    elem "serial" [] [leaf "tty" "/dev/ttyS0"];
    elem "net" [] [leaf "port" "3002"; elem "allow" [attr "ip" "10.0.0.0/24"] []];
    elem "logging" [] [leaf "file" "vcontrold.log"; leaf "syslog" "n";
                       leaf "debug" "n"];
    elem "device" [attr "ID" "2098"] []].

Definition units_section : xmlNode :=
  elem "units" [] [
    elem "unit" [attr "name" "Temperatur"] [
      leaf "abbrev" "UT"; elem "calc" [attr "get" "V/10"; attr "set" "V*10"] [];
      leaf "type" "short"; leaf "entity" "C"];
    elem "unit" [attr "name" "Status"] [
      leaf "abbrev" "ST"; leaf "type" "enum";
      elem "enum" [attr "bytes" "00"; attr "text" "off"] [];
      elem "enum" [attr "text" "UNKNOWN"] []]].

Definition protocols_section : xmlNode :=
  elem "protocols" [] [
    elem "protocol" [attr "name" "KW2"] [
      leaf "pid" "05";
      elem "macros" [] [
        elem "macro" [attr "name" "GETADDR"] [leaf "command" "SEND 01 F7"]];
      elem "commands" [] [
        elem "command" [attr "name" "getaddr"] [leaf "send" "GETADDR $addr"]]]].

Definition devices_section (protocol : string) : xmlNode :=
  elem "devices" [] [
    elem "device" [attr "ID" "2098"; attr "name" "V200KW2";
                   attr "protocol" protocol] [];
    elem "device" [attr "ID" "2053"; attr "name" "GWG";
                   attr "protocol" "KW2"] []].

Definition commands_section (unit id : string) : xmlNode :=
  elem "commands" [] [
    elem "command" [attr "name" "getTempA"; attr "protocmd" "getaddr"] [
      leaf "addr" "0800"; leaf "len" "2"; leaf "unit" unit;
      leaf "description" "outside temperature";
      elem "device" [attr "ID" id] [leaf "addr" "0801"]]].

Definition document (protocol unit id : string) : option xmlDoc :=
  Some (Build_xmlDoc
          (Some (elem "V-Control" [] [
                   elem "unix" [] [config_section];
                   units_section;
                   protocols_section;
                   elem "extern" [] [
                     elem "vito" [] [devices_section protocol;
                                     commands_section unit id]]]))
          true 1).

Definition good_document : option xmlDoc := document "KW2" "UT" "2053".

(** The same, with a device that names a protocol nobody declares. *)
Definition unknown_protocol_document : option xmlDoc :=
  document "P300" "UT" "2053".

(** The model and the heap after a first load of [good_document]. *)
Definition first_load : outcome (Z * globals * heap) :=
  Eval vm_compute in parseXMLFile host 40 good_document unloaded empty_heap.

Definition loaded : globals :=
  match first_load with Ret (_, g, _) => g | _ => unloaded end.

Definition loaded_heap : heap :=
  match first_load with Ret (_, _, h) => h | _ => empty_heap end.

(** The state of [parseCommand] at the [device] element of the example
    document, with the heap it has reached. *)
Definition example_device : Device :=
  Build_Device 0 (Some (CStr 1 "GWG")) (Some (CStr 2 "2053")) [] [].

Definition example_command : Command :=
  Build_Command 3 (Some (CStr 4 "getTempA")) (Some (CStr 5 "getaddr")) None
    (Some (CStr 6 "0800")) (Some (CStr 7 "UT")) None None
    (Some (CStr 8 "outside temperature")) 2 (-1) 1 [].

Definition example_element : xmlNode :=
  elem "device" [attr "ID" "2053"] [leaf "addr" "0801"].

Definition example_loop : cmdloop :=
  Build_cmdloop [example_element]
    (Some [elem "command" [attr "name" "getTempA"] []]) true
    [example_command] AtLast None [example_device].

Definition example_heap : heap :=
  Heap 9 (list_to_set (seq 0 9)).

Definition example_protocols : list Protocol :=
  [Build_Protocol 0 (Some (CStr 1 "KW2")) 5 [] []].

(** The same document, with a command whose unit nobody declares. *)
Definition unknown_unit_document : option xmlDoc :=
  document "KW2" "XX" "2053".

Definition unknown_unit_load : outcome (Z * globals * heap) :=
  Eval vm_compute in
    parseXMLFile host 40 unknown_unit_document unloaded empty_heap.

Definition unknown_unit_model : globals :=
  match unknown_unit_load with Ret (_, g, _) => g | _ => unloaded end.

(** The same document, with a device command for a device nobody
    declares. *)
Definition unknown_device_document : option xmlDoc :=
  document "KW2" "UT" "20CB".

(** ** The candidate *)



(** ** Rules with a prefix length *)

(** The text of a rule: an address, a slash, a prefix length. *)
Definition cidr (ip suffix : string) : string :=
  String.append ip (String "/" suffix).

(** The element of the access rule of the specification's example, in
    its place below [net]. *)
Definition example_net : list xmlNode :=
  [elem "net" [] [elem "allow" [attr "ip" "10.0.0.0/24"] []]].

(** ** A device element before the description *)

(** A command whose [device] element comes before any [description]. *)
Definition undescribed_commands : xmlNode :=
  elem "commands" [] [
    elem "command" [attr "name" "getTempA"; attr "protocmd" "getaddr"] [
      leaf "addr" "0800";
      elem "device" [attr "ID" "2053"] [leaf "addr" "0801"];
      leaf "description" "outside temperature"]].

Definition undescribed_document : option xmlDoc :=
  Some (Build_xmlDoc
          (Some (elem "V-Control" [] [
                   elem "unix" [] [config_section];
                   units_section;
                   protocols_section;
                   elem "extern" [] [
                     elem "vito" [] [devices_section "KW2";
                                     undescribed_commands]]]))
          true 1).

(** The state of [parseCommand] at that [device] element. *)
Definition undescribed_loop : cmdloop :=
  Build_cmdloop
    [elem "device" [attr "ID" "2053"] [leaf "addr" "0801"];
     leaf "description" "outside temperature"]
    (Some [elem "command" [attr "name" "getTempA"] []]) true
    [Build_Command 3 (Some (CStr 4 "getTempA")) (Some (CStr 5 "getaddr")) None
       (Some (CStr 6 "0800")) None None None None 0 (-1) 1 []]
    AtLast None [example_device].

(** * Further vocabulary: what the rest of the loader guarantees *)

(** ** Attributes *)

(** The test of [getPropertyNode] on one attribute: an attribute node
    whose name contains [name]. *)
Definition attribute_named (name : string) (a : xmlNode) : bool :=
  is_attribute_type (n_type a) && strstr (n_name a) name.

(** ** Prefix masks *)

(** The number of leading one bits of the mask that [parseConfig]
    assembles for a prefix length read as a [short]. *)
Definition prefix_length (size : Z) : Z :=
  if size =? 0 then 0 else if size <? 0 then 1 else Z.min size 32.

(** ** Device and protocol lookups *)

Definition has_id (id : string) (d : Device) : Prop :=
  deref (d_id d) = Some id.

Definition has_name (name : string) (p : Protocol) : Prop :=
  deref (p_name p) = Some name.

(** ** Elements the builders know *)

(** The elements that [parseUnit], [parseICmd] and [parseCommand] take
    for a field of the entity at hand, by the tests of the source. *)
Definition unit_field (n : xmlNode) : bool :=
  strstr (n_name n) "enum" || strstr (n_name n) "abbrev"
  || streq (n_name n) "calc" || streq (n_name n) "icalc"
  || strstr (n_name n) "type" || strstr (n_name n) "entity".

Definition icmd_field (n : xmlNode) : bool :=
  strstr (n_name n) "send" || strstr (n_name n) "retry"
  || strstr (n_name n) "recvTimeout".

Definition command_field (n : xmlNode) : bool :=
  strstr (n_name n) "device" || strstr (n_name n) "addr"
  || strstr (n_name n) "error" || strstr (n_name n) "unit"
  || streq (n_name n) "precommand" || strstr (n_name n) "description"
  || strstr (n_name n) "len" || strstr (n_name n) "bit".

(** The walk stands at a section that must not come twice and has come
    before. *)
Definition repeated_section (w : walk) : Prop :=
  ∃ n next, w_cur w = n :: next
    ∧ (section_of n = SUnix ∧ w_unixFound w = true
       ∨ section_of n = SProtocols ∧ w_protocolsFound w = true).

(** A document with the sections [sections] directly below its root. *)
Definition bare_document (sections : list xmlNode) : option xmlDoc :=
  Some (Build_xmlDoc (Some (elem "V-Control" [] sections)) true 0).

(** ** What the builders hand over *)

(** Whenever [m] returns, its result satisfies [P]. *)
Definition yields {A} (P : A → Prop) (m : M A) : Prop :=
  ∀ h a h', m h = Ret (a, h') → P a.

(** A protocol with a name whose macros and commands all have names. *)
Definition keyed_protocol (p : Protocol) : Prop :=
  is_Some (p_name p)
  ∧ Forall (λ m, is_Some (m_name m)) (p_mPtr p)
  ∧ Forall (λ i, is_Some (ic_name i)) (p_icPtr p).

(** An enumeration entry with a text whose length field counts its
    bytes. *)
Definition sized_enum (e : Enumerate) : Prop :=
  is_Some (e_text e)
  ∧ match e_bytes e with
    | Some b => e_len e = Z.of_nat (String.length (val b))
    | None => e_len e = 0
    end.

Definition named_unit (u : Unit) : Prop :=
  is_Some (u_name u) ∧ Forall sized_enum (u_ePtr u).

(** A device with a name and an ID that refers to a protocol of the
    chain [pPtr]. *)
Definition complete_device (pPtr : list Protocol) (d : Device) : Prop :=
  is_Some (d_name d) ∧ is_Some (d_id d)
  ∧ d_protoPtr d ≠ [] ∧ d_protoPtr d `suffix_of` pPtr.

(** * Properties *)

Ltac each_entry tac :=
  repeat (apply List.Forall_cons; [tac|]); apply List.Forall_nil.

(** ** First match over a chain *)

Lemma scan_first_match {A} (stop : A → bool) (ptr : list A) :
  first_match stop ptr (scan stop ptr).
Proof.
  induction ptr as [|x next IH]; simpl.
  - exists []. repeat split; constructor.
  - destruct (stop x) eqn:Hx.
    + exists []. simpl. rewrite Hx. repeat split; constructor.
    + destruct IH as (before & Heq & Hbefore & Hhead).
      exists (x :: before). simpl. rewrite <- Heq.
      repeat split; [constructor|]; assumption.
Qed.

Lemma first_match_unique {A} (stop : A → bool) (ptr f1 f2 : list A) :
  first_match stop ptr f1 → first_match stop ptr f2 → f1 = f2.
Proof.
  intros (b1 & E1 & N1 & H1) (b2 & E2 & N2 & H2).
  revert ptr b2 E1 E2 N2. induction N1 as [|x b1 Hx N1 IH]; intros ptr b2 E1 E2 N2.
  - simpl in E1. subst f1. destruct N2 as [|y b2 Hy N2]; [assumption|].
    simpl in E2. subst ptr. rewrite Hy in H1. discriminate.
  - destruct N2 as [|y b2 Hy N2].
    + simpl in E2. subst ptr. subst f2. simpl in H2. rewrite Hx in H2. discriminate.
    + simpl in E1, E2. subst ptr. injection E2 as -> E2.
      eapply IH; [reflexivity|exact E2|exact N2].
Qed.

Lemma scan_nil_iff {A} (stop : A → bool) (ptr : list A) :
  scan stop ptr = [] ↔ Forall (λ x, stop x = false) ptr.
Proof.
  induction ptr as [|x next IH]; simpl.
  - split; [constructor|reflexivity].
  - destruct (stop x) eqn:Hx.
    + split; [discriminate|]. intros H. inversion H; congruence.
    + rewrite IH. split; [by constructor|]. by inversion 1.
Qed.

Lemma streq_eq (a b : string) : streq a b = true ↔ a = b.
Proof. apply String.eqb_eq. Qed.

Lemma getUnitNode_scan ptr name :
  getUnitNode ptr name = scan (λ u, key_stops (u_abbrev u) name) ptr.
Proof.
  induction ptr as [|u next IH]; simpl; [reflexivity|].
  destruct (u_abbrev u) as [s|]; simpl; [|reflexivity].
  destruct (streq (val s) name); simpl; [reflexivity|exact IH].
Qed.

Lemma getMacroNode_scan ptr name :
  getMacroNode ptr name = scan (λ m, key_stops (m_name m) name) ptr.
Proof.
  induction ptr as [|m next IH]; simpl; [reflexivity|].
  destruct (m_name m) as [s|]; simpl; [|reflexivity].
  destruct (streq (val s) name); simpl; [reflexivity|exact IH].
Qed.

Lemma getIcmdNode_scan ptr name :
  getIcmdNode ptr name = scan (λ i, key_stops (ic_name i) name) ptr.
Proof.
  induction ptr as [|i next IH]; simpl; [reflexivity|].
  destruct (ic_name i) as [s|]; simpl; [|reflexivity].
  destruct (streq (val s) name); simpl; [reflexivity|exact IH].
Qed.

Lemma getCommandNode_scan ptr name :
  getCommandNode ptr name = scan (command_stops name) ptr.
Proof.
  induction ptr as [|c next IH]; simpl; [reflexivity|].
  unfold command_stops.
  destruct (c_name c) as [s|], name as [n|]; simpl; try reflexivity.
  destruct (streq (val s) n); simpl; [reflexivity|exact IH].
Qed.

(** ** The node cursor *)

(** C5, as claimed, fails: a trailing text node that is not blank is a
    sibling that "is not a pure-whitespace text node", yet the cursor
    does not return it. *)
Lemma getNextNode_trailing_text_not_returned :
  ¬ (∀ cur prevPtr, getNextNode cur prevPtr = getNextNode_blank_rule cur prevPtr).
Proof.
  intros H.
  specialize (H [XmlNode XML_ELEMENT_NODE "addr" None [] [];
                 XmlNode XML_TEXT_NODE "text" (Some "0800") [] []] []).
  vm_compute in H. discriminate.
Qed.

(** C5 (amended): from the node [c] with successors [next], the cursor
    returns [next] when it is not empty and its first node either is not a
    text node (of whatever content) or has a successor; otherwise the
    successors of [prevPtr], which are none when [prevPtr] is [NULL].  A
    lone trailing blank text node is therefore never returned. *)
Theorem getNextNode_rule (c : xmlNode) (next prevPtr : xmlNodePtr) :
  (∀ n nn, next = n :: nn → n_type n ≠ XML_TEXT_NODE ∨ nn ≠ [] →
     getNextNode (c :: next) prevPtr = Ret next)
  ∧ (next = [] ∨ (∃ n, next = [n] ∧ n_type n = XML_TEXT_NODE) →
     getNextNode (c :: next) prevPtr = Ret (tail prevPtr))
  ∧ (∀ b, next = [b] → n_type b = XML_TEXT_NODE → xmlIsBlankNode b = true →
     getNextNode (c :: next) prevPtr = Ret (tail prevPtr)).
Proof.
  split; [|split].
  - intros n nn -> H. simpl.
    destruct H as [H|H].
    + destruct (n_type n); simpl; try reflexivity. congruence.
    + destruct nn; [congruence|]. simpl. rewrite orb_true_r. reflexivity.
  - intros [->|(n & -> & Ht)]; simpl.
    + destruct prevPtr; reflexivity.
    + rewrite Ht. simpl. destruct prevPtr; reflexivity.
  - intros b -> Ht _. simpl. rewrite Ht. simpl. destruct prevPtr; reflexivity.
Qed.

Lemma getNextNode_rule_witness :
  getNextNode
    [XmlNode XML_ELEMENT_NODE "addr" None [] [];
     XmlNode XML_TEXT_NODE "text" (Some " ") [] []]
    [XmlNode XML_ELEMENT_NODE "command" None [] [];
     XmlNode XML_ELEMENT_NODE "command" None [] []]
  = Ret [XmlNode XML_ELEMENT_NODE "command" None [] []].
Proof.
  apply (getNextNode_rule
           (XmlNode XML_ELEMENT_NODE "addr" None [] [])
           [XmlNode XML_TEXT_NODE "text" (Some " ") [] []]
           [XmlNode XML_ELEMENT_NODE "command" None [] [];
            XmlNode XML_ELEMENT_NODE "command" None [] []]).
  right. eexists. split; reflexivity.
Defined.

(** ** Name-keyed lookups *)

Lemma scan_first_where {A} (stop : A → bool) (P : A → Prop) (ptr : list A) :
  (∀ x, stop x = true ↔ P x) → first_where P ptr (scan stop ptr).
Proof.
  intros HP. destruct (scan_first_match stop ptr) as (before & Heq & Hb & Hh).
  exists before. split; [exact Heq|]. split.
  - eapply Forall_impl; [exact Hb|]. simpl. intros x Hx HPx.
    apply HP in HPx. congruence.
  - destruct (scan stop ptr); [exact I|]. by apply HP.
Qed.

Lemma key_stops_iff key name :
  key_stops key name = true ↔ keyless_or_named key name.
Proof.
  unfold key_stops, keyless_or_named. destruct key as [s|].
  - rewrite streq_eq. split.
    + intros H. right. exists s. by split.
    + intros [H|(s' & H & Hv)]; [discriminate|]. by injection H as ->.
  - split; [by left|reflexivity].
Qed.

Lemma command_stops_iff name c :
  command_stops (Some name) c = true ↔ keyless_or_named (c_name c) name.
Proof.
  unfold command_stops, keyless_or_named. destruct (c_name c) as [s|].
  - rewrite streq_eq. split.
    + intros H. right. exists s. by split.
    + intros [H|(s' & H & Hv)]; [discriminate|]. by injection H as ->.
  - split; [by left|reflexivity].
Qed.

(** C10: each name-keyed lookup returns the chain from the first entry
    whose key is null or equal to the searched name; an entry without a
    key ends the scan, also when an entry of that name follows it; and
    [getCommandNode] returns the head entry when the searched name is
    null. *)
Theorem keyless_entry_ends_lookup (name : string) :
  (∀ ptr, first_where (λ u, keyless_or_named (u_abbrev u) name)
            ptr (getUnitNode ptr name))
  ∧ (∀ ptr, first_where (λ m, keyless_or_named (m_name m) name)
              ptr (getMacroNode ptr name))
  ∧ (∀ ptr, first_where (λ i, keyless_or_named (ic_name i) name)
              ptr (getIcmdNode ptr name))
  ∧ (∀ ptr, first_where (λ c, keyless_or_named (c_name c) name)
              ptr (getCommandNode ptr (Some name)))
  ∧ (∀ ptr, getCommandNode ptr None = ptr)
  ∧ (∀ u named rest, u_abbrev u = None →
       getUnitNode (u :: named :: rest) name = u :: named :: rest)
  ∧ (∀ m named rest, m_name m = None →
       getMacroNode (m :: named :: rest) name = m :: named :: rest)
  ∧ (∀ i named rest, ic_name i = None →
       getIcmdNode (i :: named :: rest) name = i :: named :: rest)
  ∧ (∀ c named rest, c_name c = None →
       getCommandNode (c :: named :: rest) (Some name) = c :: named :: rest).
Proof.
  repeat split.
  - intros ptr. rewrite getUnitNode_scan.
    apply scan_first_where. intros u. apply key_stops_iff.
  - intros ptr. rewrite getMacroNode_scan.
    apply scan_first_where. intros m. apply key_stops_iff.
  - intros ptr. rewrite getIcmdNode_scan.
    apply scan_first_where. intros i. apply key_stops_iff.
  - intros ptr. rewrite getCommandNode_scan.
    apply scan_first_where. intros c. apply command_stops_iff.
  - intros ptr. destruct ptr as [|c next]; simpl; [reflexivity|].
    destruct (c_name c); reflexivity.
  - intros u named rest H. simpl. rewrite H. reflexivity.
  - intros m named rest H. simpl. rewrite H. reflexivity.
  - intros i named rest H. simpl. rewrite H. reflexivity.
  - intros c named rest H. simpl. rewrite H. reflexivity.
Qed.

Lemma keyless_entry_ends_lookup_witness :
  getUnitNode
    [Build_Unit 0 None None None None None None None None [];
     Build_Unit 1 None (Some (CStr 2 "UT")) None None None None None None []]
    "UT"
  = [Build_Unit 0 None None None None None None None None [];
     Build_Unit 1 None (Some (CStr 2 "UT")) None None None None None None []].
Proof.
  apply (keyless_entry_ends_lookup "UT"). reflexivity.
Defined.

(** ** Enumeration lookup *)

Lemma getEnumNode_bytes ptr search len :
  0 < len → readable search len ptr →
  ∃ found, getEnumNode ptr search len = Ret found
    ∧ first_where (bytes_match search len) ptr found.
Proof.
  intros Hlen [Hs Hall]. induction Hall as [|e next He Hall IH].
  - exists []. split; [reflexivity|]. exists []. repeat split; constructor.
  - simpl. unfold enum_bytes_hit, enum_text_hit, enum_default_hit.
    assert ((0 <? len) = true) as -> by (apply Z.ltb_lt; lia).
    assert ((len =? 0) = false) as -> by (apply Z.eqb_neq; lia).
    assert ((len <? 0) = false) as -> by (apply Z.ltb_ge; lia).
    simpl.
    destruct (e_bytes e) as [b|] eqn:Hb.
    + unfold memcmp_eq.
      assert ((Z.to_nat len <=? String.length (val b))%nat = true) as ->
        by (apply Nat.leb_le; by apply He).
      assert ((Z.to_nat len <=? String.length search)%nat = true) as ->
        by (by apply Nat.leb_le).
      simpl.
      destruct (String.eqb _ _) eqn:Heq.
      * exists (e :: next). split; [reflexivity|].
        exists []. repeat split; [constructor|].
        exists b. split; [exact Hb|]. by apply String.eqb_eq.
      * destruct IH as (found & Hf & before & Heq' & Hbefore & Hhead).
        exists found. split; [exact Hf|].
        exists (e :: before). rewrite Heq'. repeat split; [|exact Hhead].
        constructor; [|exact Hbefore].
        intros (b' & Hb' & Hm). rewrite Hb in Hb'. injection Hb' as <-.
        apply String.eqb_neq in Heq. by apply Heq.
    + destruct IH as (found & Hf & before & Heq' & Hbefore & Hhead).
      exists found. split; [exact Hf|].
      exists (e :: before). rewrite Heq'. repeat split; [|exact Hhead].
      constructor; [|exact Hbefore].
      intros (b' & Hb' & _). congruence.
Qed.

Lemma getEnumNode_text ptr search :
  ∃ found, getEnumNode ptr search 0 = Ret found
    ∧ first_where (text_match search) ptr found.
Proof.
  induction ptr as [|e next IH].
  - exists []. split; [reflexivity|]. exists []. repeat split; constructor.
  - simpl. unfold enum_bytes_hit, enum_text_hit, enum_default_hit. simpl.
    destruct (e_text e) as [t|] eqn:Ht.
    + destruct (streq (val t) search) eqn:Heq.
      * exists (e :: next). split; [reflexivity|].
        exists []. repeat split; [constructor|].
        exists t. split; [exact Ht|]. by apply streq_eq.
      * destruct IH as (found & Hf & before & Heq' & Hbefore & Hhead).
        exists found. split; [exact Hf|].
        exists (e :: before). rewrite Heq'. repeat split; [|exact Hhead].
        constructor; [|exact Hbefore].
        intros (t' & Ht' & Hm). rewrite Ht in Ht'. injection Ht' as <-.
        apply streq_eq in Hm. congruence.
    + destruct IH as (found & Hf & before & Heq' & Hbefore & Hhead).
      exists found. split; [exact Hf|].
      exists (e :: before). rewrite Heq'. repeat split; [|exact Hhead].
      constructor; [|exact Hbefore].
      intros (t' & Ht' & _). congruence.
Qed.

Lemma getEnumNode_default ptr search len :
  len < 0 →
  ∃ found, getEnumNode ptr search len = Ret found
    ∧ first_where is_default ptr found.
Proof.
  intros Hlen. induction ptr as [|e next IH].
  - exists []. split; [reflexivity|]. exists []. repeat split; constructor.
  - simpl. unfold enum_bytes_hit, enum_text_hit, enum_default_hit.
    assert ((0 <? len) = false) as -> by (apply Z.ltb_ge; lia).
    assert ((len =? 0) = false) as -> by (apply Z.eqb_neq; lia).
    assert ((len <? 0) = true) as -> by (apply Z.ltb_lt; lia).
    simpl. unfold is_default.
    destruct (e_bytes e) as [b|] eqn:Hb.
    + destruct IH as (found & Hf & before & Heq' & Hbefore & Hhead).
      exists found. split; [exact Hf|].
      exists (e :: before). rewrite Heq'. repeat split; [|exact Hhead].
      constructor; [congruence|exact Hbefore].
    + exists (e :: next). split; [reflexivity|].
      exists []. repeat split; [constructor|exact Hb].
Qed.

(** C6, as claimed, fails: a byte pattern that matches no entry does not
    yield the default entry, although the unit has one. *)
Lemma getEnumNode_unmatched_bytes_no_default :
  ¬ (∀ ptr search len d,
       0 < len → readable search len ptr → d ∈ ptr → is_default d →
       Forall (λ e, ¬ bytes_match search len e) ptr →
       ∃ r rest, getEnumNode ptr search len = Ret (r :: rest) ∧ is_default r).
Proof.
  intros H.
  destruct (H on_off_auto (byte1 2) 1
              (Build_Enumerate 6 (Some (CStr 7 "auto")) None 0))
    as (r & rest & Hr & _).
  - lia.
  - split; [vm_compute; lia|].
    each_entry ltac:(intros b Hb; simpl in Hb; simplify_eq; vm_compute; lia).
  - set_solver.
  - reflexivity.
  - each_entry ltac:(intros (b & Hb & Hm); simpl in Hb; simplify_eq;
                     vm_compute in Hm; discriminate).
  - vm_compute in Hr. discriminate.
Qed.

(** C6 (amended): with a byte pattern (positive length, no entry shorter
    than it) the lookup returns the first entry whose byte pattern starts
    with it, and no entry when none does, whether or not the unit has a
    default entry; with length zero it returns the first entry whose text
    is the searched text; only with a negative length does it return the
    default entry, the first one without a byte pattern. *)
Theorem getEnumNode_precedence (ptr : list Enumerate) (search : string) (len : Z) :
  (0 < len → readable search len ptr →
     ∃ found, getEnumNode ptr search len = Ret found
       ∧ first_where (bytes_match search len) ptr found)
  ∧ (0 < len → readable search len ptr →
     Forall (λ e, ¬ bytes_match search len e) ptr →
     getEnumNode ptr search len = Ret [])
  ∧ (len = 0 →
     ∃ found, getEnumNode ptr search len = Ret found
       ∧ first_where (text_match search) ptr found)
  ∧ (len < 0 →
     ∃ found, getEnumNode ptr search len = Ret found
       ∧ first_where is_default ptr found).
Proof.
  repeat split.
  - apply getEnumNode_bytes.
  - intros Hlen Hr Hnone.
    destruct (getEnumNode_bytes ptr search len Hlen Hr)
      as (found & Hf & before & Heq & _ & Hhead).
    destruct found as [|e rest]; [exact Hf|].
    exfalso. rewrite Forall_forall in Hnone.
    apply (Hnone e); [|exact Hhead].
    rewrite Heq. apply elem_of_app. right. by left.
  - intros ->. apply getEnumNode_text.
  - apply getEnumNode_default.
Qed.

Lemma getEnumNode_precedence_witness :
  getEnumNode on_off_auto (byte1 2) 1 = Ret [].
Proof.
  apply (getEnumNode_precedence on_off_auto (byte1 2) 1).
  - lia.
  - split; [vm_compute; lia|].
    each_entry ltac:(intros b Hb; simpl in Hb; simplify_eq; vm_compute; lia).
  - each_entry ltac:(intros (b & Hb & Hm); simpl in Hb; simplify_eq;
                     vm_compute in Hm; discriminate).
Defined.

(** ** Access rules *)

Lemma anchor_linked {A} (ptr : list A) (nptr : A) :
  anchor (linked ptr nptr) nptr = ptr ++ [nptr].
Proof. destruct ptr; reflexivity. Qed.

Lemma getAllowNode_scan E ptr testIP :
  getAllowNode E ptr testIP
  = scan (λ a, Z.land (ntohl E (a_ip a)) (a_mask a)
               =? Z.land (ntohl E testIP) (a_mask a)) ptr.
Proof.
  induction ptr as [|a next IH]; simpl; [reflexivity|].
  destruct (_ =? _); [reflexivity|exact IH].
Qed.

Lemma getAllowNode_first E ptr testIP :
  first_where (allows E testIP) ptr (getAllowNode E ptr testIP).
Proof.
  rewrite getAllowNode_scan. apply scan_first_where.
  intros a. unfold allows. apply Z.eqb_eq.
Qed.

Lemma allow_mask_prefix (n : Z) :
  1 ≤ n ≤ 32 → allow_mask n = 2 ^ 32 - 2 ^ (32 - n).
Proof.
  intros Hn.
  assert (∃ k : nat, (k < 32)%nat ∧ n = Z.of_nat (S k)) as (k & Hk & ->).
  { exists (Z.to_nat (n - 1)). split; lia. }
  do 32 (destruct k as [|k]; [vm_compute; reflexivity|]). lia.
Qed.

Lemma append_cons (a : ascii) (s t : string) :
  String.append (String a s) t = String a (String.append s t).
Proof. reflexivity. Qed.

Lemma strchr_append (ip : string) (c : ascii) (rest : string) :
  strchr ip c = None →
  strchr (String.append ip (String c rest)) c = Some (String.length ip).
Proof.
  induction ip as [|a ip IH].
  - intros _. change (String.append "" (String c rest)) with (String c rest).
    simpl. by rewrite Ascii.eqb_refl.
  - rewrite append_cons. simpl.
    destruct (Ascii.eqb a c); [discriminate|].
    destruct (strchr ip c) as [off|] eqn:Hip; [discriminate|].
    intros _. by rewrite IH.
Qed.

Lemma strtake_append (ip rest : string) :
  strtake (String.length ip) (String.append ip rest) = ip.
Proof.
  unfold strtake. induction ip as [|a ip IH].
  - change (String.append "" rest) with rest. by destruct rest.
  - rewrite append_cons. simpl. by rewrite IH.
Qed.

Lemma strdrop_append (ip : string) (c : ascii) (rest : string) :
  strdrop (S (String.length ip)) (String.append ip (String c rest)) = rest.
Proof.
  induction ip as [|a ip IH].
  - reflexivity.
  - rewrite append_cons. exact IH.
Qed.

Lemma allow_split_cidr E (ip suffix : string) :
  strchr ip "/" = None → (String.length ip < 16)%nat →
  allow_split E (cidr ip suffix) = Ret (ip, to_short (atoi E suffix)).
Proof.
  intros Hno Hlen. unfold allow_split, cidr.
  rewrite (strchr_append ip "/" suffix Hno).
  assert ((16 <=? String.length ip)%nat = false) as ->
    by (apply Nat.leb_gt; lia).
  by rewrite strtake_append, strdrop_append.
Qed.

Lemma parseAllow_rule E text ip size cfg h :
  allow_split E text = Ret (ip, size) →
  inet_addr E ip ≠ INADDR_NONE →
  ∃ a h', parseAllow E (Some text) cfg h
          = Ret (set_cfg_aPtr (cfg_aPtr cfg ++ [a]) cfg, h')
    ∧ a_ip a = inet_addr E ip ∧ a_mask a = allow_mask size
    ∧ deref (a_text a) = Some text.
Proof.
  intros Hsplit Hip. unfold parseAllow, bind, lift. rewrite Hsplit.
  assert ((inet_addr E ip =? INADDR_NONE) = false) as ->
    by (by apply Z.eqb_neq).
  simpl. rewrite anchor_linked. eexists _, _. split; [reflexivity|].
  by repeat split.
Qed.

(** C7: the query returns the chain from the first rule, in declared
    order, whose masked address equals the masked candidate address, hence
    a rule exactly when some rule matches; the mask of a rule is the bit
    mask of its prefix length, which is the number after the slash of the
    rule's text, 32 when the text has no slash; an [allow] element below
    [net] adds the rule of its [ip] attribute to the chain; and the rule
    that [parseConfig] builds from 10.0.0.0/24 lets 10.0.0.5 pass while
    the rule it builds from 10.0.1.0/24 does not. *)
Theorem allow_rule_found_iff_masked_match (E : Externals) :
  (∀ ptr testIP, first_where (allows E testIP) ptr (getAllowNode E ptr testIP))
  ∧ (∀ ptr testIP,
       getAllowNode E ptr testIP ≠ [] ↔ ∃ a, a ∈ ptr ∧ allows E testIP a)
  ∧ (∀ n, 1 ≤ n ≤ 32 → allow_mask n = 2 ^ 32 - 2 ^ (32 - n))
  ∧ (∀ text, strchr text "/" = None →
       allow_split E text = Ret (strtake 15 text, 32))
  ∧ (∀ text ip size cfg h,
       allow_split E text = Ret (ip, size) →
       inet_addr E ip ≠ INADDR_NONE →
       ∃ a h', parseAllow E (Some text) cfg h
               = Ret (set_cfg_aPtr (cfg_aPtr cfg ++ [a]) cfg, h')
         ∧ a_ip a = inet_addr E ip ∧ a_mask a = allow_mask size)
  ∧ (∀ rule testIP,
       a_mask rule = allow_mask 24 → ntohl E testIP = 0x0A000005 →
       (ntohl E (a_ip rule) = 0x0A000000 → getAllowNode E [rule] testIP = [rule])
       ∧ (ntohl E (a_ip rule) = 0x0A000100 → getAllowNode E [rule] testIP = []))
  ∧ (∀ ip suffix,
       strchr ip "/" = None → (String.length ip < 16)%nat →
       allow_split E (cidr ip suffix) = Ret (ip, to_short (atoi E suffix)))
  ∧ (∀ ip suffix cfg h,
       strchr ip "/" = None → (String.length ip < 16)%nat →
       inet_addr E ip ≠ INADDR_NONE →
       ∃ a h', parseAllow E (Some (cidr ip suffix)) cfg h
               = Ret (set_cfg_aPtr (cfg_aPtr cfg ++ [a]) cfg, h')
         ∧ a_ip a = inet_addr E ip
         ∧ a_mask a = allow_mask (to_short (atoi E suffix))
         ∧ deref (a_text a) = Some (cidr ip suffix))
  ∧ (∀ fuel n next prevPtr serialFound logFound cfg h,
       strstr (n_name n) "serial" = false →
       strstr (n_name n) "net" = false →
       strstr (n_name n) "logging" = false →
       strstr (n_name n) "device" = false →
       serialFound && strstr (n_name n) "tty" = false →
       strstr (n_name n) "port" = false →
       strstr (n_name n) "allow" = true →
       parseConfig_loop E (S fuel) (n :: next) prevPtr serialFound true
         logFound cfg h
       = (let* cfg' := parseAllow E (getPropertyNode (n_properties n) "ip")
                         cfg in
          let* cur' := lift (nextNode (n :: next) prevPtr) in
          parseConfig_loop E fuel cur' prevPtr serialFound true logFound cfg')
           h)
  ∧ (∀ cfg h testIP,
       cfg_aPtr cfg = [] →
       atoi E "24" = 24 →
       inet_addr E "10.0.0.0" ≠ INADDR_NONE →
       ntohl E (inet_addr E "10.0.0.0") = 0x0A000000 →
       ntohl E testIP = 0x0A000005 →
       ∃ cfg' h',
         parseAllow E (Some "10.0.0.0/24") cfg h = Ret (cfg', h')
         ∧ cfg_aPtr cfg' ≠ []
         ∧ getAllowNode E (cfg_aPtr cfg') testIP = cfg_aPtr cfg')
  ∧ (∀ cfg h testIP,
       cfg_aPtr cfg = [] →
       atoi E "24" = 24 →
       inet_addr E "10.0.1.0" ≠ INADDR_NONE →
       ntohl E (inet_addr E "10.0.1.0") = 0x0A000100 →
       ntohl E testIP = 0x0A000005 →
       ∃ cfg' h',
         parseAllow E (Some "10.0.1.0/24") cfg h = Ret (cfg', h')
         ∧ cfg_aPtr cfg' ≠ []
         ∧ getAllowNode E (cfg_aPtr cfg') testIP = []).
Proof.
  assert (∀ ip cfg h testIP want,
            cfg_aPtr cfg = [] → atoi E "24" = 24 →
            strchr ip "/" = None → (String.length ip < 16)%nat →
            inet_addr E ip ≠ INADDR_NONE →
            ntohl E (inet_addr E ip) = want →
            ntohl E testIP = 0x0A000005 →
            ∃ cfg' h' a,
              parseAllow E (Some (cidr ip "24")) cfg h = Ret (cfg', h')
              ∧ cfg_aPtr cfg' = [a]
              ∧ getAllowNode E [a] testIP
                = if Z.land want (allow_mask 24)
                     =? Z.land 0x0A000005 (allow_mask 24)
                  then [a] else []) as Hexample.
  { intros ip cfg h testIP want Hempty Hatoi Hno Hlen Hip Hwant Htest.
    destruct (parseAllow_rule E (cidr ip "24") ip (to_short (atoi E "24"))
                cfg h (allow_split_cidr E ip "24" Hno Hlen) Hip)
      as (a & h' & Hrun & Ha & Hm & _).
    exists (set_cfg_aPtr (cfg_aPtr cfg ++ [a]) cfg), h', a.
    split; [exact Hrun|]. rewrite Hempty. split; [reflexivity|].
    rewrite Hatoi in Hm. change (to_short 24) with 24 in Hm.
    simpl. by rewrite Ha, Hm, Htest, Hwant. }
  split; [|split; [|split; [|split; [|split; [|split; [|split;
    [|split; [|split; [|split]]]]]]]]].
  - intros ptr testIP. apply getAllowNode_first.
  - intros ptr testIP.
    destruct (getAllowNode_first E ptr testIP) as (before & Heq & Hb & Hh).
    split.
    + intros Hne. destruct (getAllowNode E ptr testIP) as [|a rest] eqn:Hg;
        [congruence|].
      exists a. split; [|exact Hh]. rewrite Heq. set_solver.
    + intros (a & Hin & Ha) Hnil. rewrite Hnil, app_nil_r in Heq. subst before.
      rewrite Forall_forall in Hb. by apply (Hb a).
  - apply allow_mask_prefix.
  - intros text Hno. unfold allow_split. rewrite Hno. reflexivity.
  - intros text ip size cfg h Hsplit Hip.
    destruct (parseAllow_rule E text ip size cfg h Hsplit Hip)
      as (a & h' & Hrun & Ha & Hm & _).
    by exists a, h'.
  - intros rule testIP Hmask Hip. split; intros Hrule; simpl;
      rewrite Hmask, Hip, Hrule; reflexivity.
  - apply allow_split_cidr.
  - intros ip suffix cfg h Hno Hlen Hip.
    apply (parseAllow_rule E (cidr ip suffix) ip _ cfg h); [|exact Hip].
    by apply allow_split_cidr.
  - intros fuel n next prevPtr serialFound logFound cfg h
      Hserial Hnet Hlog Hdev Htty Hport Hallow.
    simpl. by rewrite Hserial, Hnet, Hlog, Hdev, Htty, Hport, Hallow.
  - intros cfg h testIP Hempty Hatoi Hip Hwant Htest.
    destruct (Hexample "10.0.0.0" cfg h testIP _ Hempty Hatoi eq_refl
                ltac:(simpl; lia) Hip Hwant Htest)
      as (cfg' & h' & a & Hrun & Hchain & Hget).
    exists cfg', h'. split; [exact Hrun|]. rewrite Hchain.
    split; [discriminate|exact Hget].
  - intros cfg h testIP Hempty Hatoi Hip Hwant Htest.
    destruct (Hexample "10.0.1.0" cfg h testIP _ Hempty Hatoi eq_refl
                ltac:(simpl; lia) Hip Hwant Htest)
      as (cfg' & h' & a & Hrun & Hchain & Hget).
    exists cfg', h'. split; [exact Hrun|]. rewrite Hchain.
    split; [discriminate|exact Hget].
Qed.

Lemma allow_rule_found_iff_masked_match_witness :
  ∃ cfg h',
    parseConfig host 40 example_net empty_heap = Ret (Some cfg, h')
    ∧ getAllowNode host (cfg_aPtr cfg) (inet_addr host "10.0.0.5")
      = cfg_aPtr cfg
    ∧ cfg_aPtr cfg ≠ [].
Proof.
  destruct (proj1 (proj2 (proj2 (proj2 (proj2 (proj2 (proj2 (proj2 (proj2
              (proj2 (allow_rule_found_iff_masked_match host))))))))))
              (Build_Config 0 None 0 None 0 0 None [] [])
              (Heap 1 ({[ 0%nat ]} ∪ ∅)) (inet_addr host "10.0.0.5")
              eq_refl eq_refl)
    as (cfg' & h' & Hrun & Hne & Hin).
  - vm_compute. discriminate.
  - reflexivity.
  - reflexivity.
  - exists cfg', h'. split; [|split; [exact Hin|exact Hne]].
    vm_compute in Hrun. injection Hrun as <- <-.
    vm_compute. reflexivity.
Defined.

(** ** The builders release nothing *)

Lemma grows_refl h : grows h h.
Proof. split; [lia|]. intros b. split; [by left|]. intros [?|?]; [done|lia]. Qed.

Lemma grows_trans h1 h2 h3 : grows h1 h2 → grows h2 h3 → grows h1 h3.
Proof.
  intros [Hb1 Hl1] [Hb2 Hl2]. split; [lia|]. intros b.
  rewrite Hl2, Hl1. split.
  - intros [[?|?]|?]; [by left|right; lia..].
  - intros [?|?]; [by left; left|].
    destruct (decide (b < brk h2)%nat); [left; right; lia|right; lia].
Qed.

Lemma grows_live h h' : grows h h' → live h ⊆ live h'.
Proof. intros [_ Hl] b Hb. apply Hl. by left. Qed.

Lemma grows_heap_ok h h' : heap_ok h → grows h h' → heap_ok h'.
Proof.
  intros Hok [Hb Hl] b Hin. apply Hl in Hin as [Hin|Hin]; [|lia].
  apply Hok in Hin. lia.
Qed.

Lemma heap_ok_check h :
  forallb (λ b, b <? brk h)%nat (elements (live h)) = true → heap_ok h.
Proof.
  intros Hall b Hb. rewrite forallb_forall in Hall.
  apply Nat.ltb_lt, Hall, list_elem_of_In, elem_of_elements, Hb.
Qed.

Lemma allocates_ret {A} (a : A) : allocates (ret a).
Proof. intros h a' h' [= _ <-]. apply grows_refl. Qed.

Lemma allocates_crash {A} : allocates (@crash A).
Proof. intros h a h' [=]. Qed.

Lemma allocates_timeout {A} : allocates (@timeout A).
Proof. intros h a h' [=]. Qed.

Lemma allocates_lift {A} (o : outcome A) : allocates (lift o).
Proof. intros h a h'. unfold lift. destruct o; intros [=]. subst. apply grows_refl. Qed.

Lemma allocates_bind {A B} (m : M A) (k : A → M B) :
  allocates m → (∀ a, allocates (k a)) → allocates (bind m k).
Proof.
  intros Hm Hk h b h'. unfold bind.
  destruct (m h) as [[a h1]| |] eqn:Hmh; try discriminate.
  intros Hkh. eapply grows_trans; [eapply Hm|eapply Hk]; eassumption.
Qed.

Lemma allocates_calloc : allocates calloc.
Proof.
  intros h a h' [= _ <-]. split; simpl; [lia|]. intros b.
  rewrite elem_of_union, elem_of_singleton. split.
  - intros [->|?]; [right; lia|by left].
  - intros [?|?]; [by right|left; lia].
Qed.

Lemma allocates_strdup s : allocates (strdup s).
Proof.
  apply allocates_bind; [apply allocates_calloc|]. intros a. apply allocates_ret.
Qed.

Lemma allocates_nullIT : allocates nullIT.
Proof. apply allocates_strdup. Qed.

Lemma allocates_copy_or_empty o : allocates (copy_or_empty o).
Proof. destruct o; [apply allocates_strdup|apply allocates_nullIT]. Qed.

Lemma allocates_with_last {A} (f : A → M A) (l : list A) :
  (∀ x, allocates (f x)) → allocates (with_last f l).
Proof.
  intros Hf. induction l as [|x rest IH]; simpl; [apply allocates_crash|].
  destruct rest as [|y rest].
  - apply allocates_bind; [apply Hf|]. intros. apply allocates_ret.
  - apply allocates_bind; [apply IH|]. intros. apply allocates_ret.
Qed.

Create HintDb alloc.

#[local] Hint Resolve allocates_ret allocates_crash allocates_timeout
  allocates_lift allocates_calloc allocates_strdup allocates_nullIT
  allocates_copy_or_empty : alloc.

(** Decomposition of a computation along its binds and case splits. *)
Ltac alloc_split :=
  repeat first
    [ progress (auto with alloc)
    | match goal with
      | |- allocates (bind _ _) => apply allocates_bind; [|intros ?]
      | |- allocates (with_last _ _) => apply allocates_with_last; intros ?
      | |- allocates (if ?b then _ else _) => destruct b
      | |- allocates (match ?x with _ => _ end) => destruct x
      | |- allocates (let (_, _) := ?x in _) => destruct x
      end ].

Lemma allocates_newProtocolNode ptr : allocates (newProtocolNode ptr).
Proof. unfold newProtocolNode. alloc_split. Qed.
Lemma allocates_newUnitNode ptr : allocates (newUnitNode ptr).
Proof. unfold newUnitNode. alloc_split. Qed.
Lemma allocates_newMacroNode ptr : allocates (newMacroNode ptr).
Proof. unfold newMacroNode. alloc_split. Qed.
Lemma allocates_newCommandNode ptr : allocates (newCommandNode ptr).
Proof. unfold newCommandNode. alloc_split. Qed.
Lemma allocates_newDeviceNode ptr : allocates (newDeviceNode ptr).
Proof. unfold newDeviceNode. alloc_split. Qed.
Lemma allocates_newIcmdNode ptr : allocates (newIcmdNode ptr).
Proof. unfold newIcmdNode. alloc_split. Qed.
Lemma allocates_newAllowNode ptr : allocates (newAllowNode ptr).
Proof. unfold newAllowNode. alloc_split. Qed.
Lemma allocates_newEnumNode ptr : allocates (newEnumNode ptr).
Proof. unfold newEnumNode. alloc_split. Qed.

#[local] Hint Resolve allocates_newProtocolNode allocates_newUnitNode
  allocates_newMacroNode allocates_newCommandNode allocates_newDeviceNode
  allocates_newIcmdNode allocates_newAllowNode allocates_newEnumNode : alloc.

Lemma allocates_parseAllow E o cfg : allocates (parseAllow E o cfg).
Proof. unfold parseAllow. alloc_split. Qed.

Lemma allocates_parseEnum E n t u : allocates (parseEnum E n t u).
Proof. unfold parseEnum. alloc_split. Qed.

#[local] Hint Resolve allocates_parseAllow allocates_parseEnum : alloc.

Lemma allocates_parseConfig_loop E fuel :
  ∀ cur prevPtr s n l cfg,
    allocates (parseConfig_loop E fuel cur prevPtr s n l cfg).
Proof.
  induction fuel as [|fuel IH]; intros [|x next] prevPtr s n l cfg; simpl;
    alloc_split.
Qed.

Lemma allocates_parseConfig E gas cur : allocates (parseConfig E gas cur).
Proof.
  unfold parseConfig. pose proof (allocates_parseConfig_loop E gas).
  alloc_split.
Qed.

Lemma allocates_parseUnit_loop E fuel :
  ∀ cur prevPtr f start, allocates (parseUnit_loop E fuel cur prevPtr f start).
Proof.
  induction fuel as [|fuel IH]; intros [|x next] prevPtr f start; simpl;
    alloc_split.
Qed.

Lemma allocates_parseMacro_loop fuel :
  ∀ cur prevPtr f start, allocates (parseMacro_loop fuel cur prevPtr f start).
Proof.
  induction fuel as [|fuel IH]; intros [|x next] prevPtr f start; simpl;
    alloc_split.
Qed.

Lemma allocates_parseICmd_loop E fuel :
  ∀ cur prevPtr f start, allocates (parseICmd_loop E fuel cur prevPtr f start).
Proof.
  induction fuel as [|fuel IH]; intros [|x next] prevPtr f start; simpl;
    alloc_split.
Qed.

Lemma allocates_buildDevice n pPtr start : allocates (buildDevice n pPtr start).
Proof. unfold buildDevice. alloc_split. Qed.

#[local] Hint Resolve allocates_buildDevice : alloc.

Lemma allocates_parseDevice_loop fuel :
  ∀ cur prevPtr pPtr start,
    allocates (parseDevice_loop fuel cur prevPtr pPtr start).
Proof.
  induction fuel as [|fuel IH]; intros [|x next] prevPtr pPtr start; simpl;
    alloc_split.
Qed.

Lemma allocates_parseProtocol_loop E gas fuel :
  ∀ cur prevPtr f start,
    allocates (parseProtocol_loop E gas fuel cur prevPtr f start).
Proof.
  pose proof (allocates_parseMacro_loop gas) as HM.
  pose proof (allocates_parseICmd_loop E gas) as HI.
  induction fuel as [|fuel IH]; intros [|x next] prevPtr f start; simpl;
    unfold parseMacro, parseICmd; alloc_split.
Qed.

Lemma allocates_inheritCommand c protocmd nc :
  allocates (inheritCommand c protocmd nc).
Proof. unfold inheritCommand. alloc_split. Qed.

Lemma allocates_errorField E o : allocates (errorField E o).
Proof. unfold errorField. alloc_split. Qed.

#[local] Hint Resolve allocates_inheritCommand allocates_errorField : alloc.

Lemma allocates_field s v : allocates v → allocates (field s v).
Proof. intros Hv. unfold field. alloc_split. Qed.

Lemma allocates_deviceCommand rec n id s :
  (∀ cur nc de, allocates (rec cur nc de)) →
  allocates (deviceCommand rec n id s).
Proof. intros Hrec. unfold deviceCommand. alloc_split. Qed.

Lemma allocates_command_step E rec n next s :
  (∀ cur nc de, allocates (rec cur nc de)) →
  allocates (command_step E rec n next s).
Proof.
  intros Hrec. pose proof (allocates_deviceCommand rec n) as Hd.
  unfold command_step.
  repeat first
    [ apply allocates_field
    | progress (auto with alloc)
    | match goal with
      | |- allocates (bind _ _) => apply allocates_bind; [|intros ?]
      | |- allocates (if ?b then _ else _) => destruct b
      | |- allocates (match ?x with _ => _ end) => destruct x
      end ].
Qed.

Lemma allocates_parseCommand_loop E fuel :
  ∀ s, allocates (parseCommand_loop E fuel s).
Proof.
  induction fuel as [|fuel IH]; intros s; simpl;
    destruct (cl_cur s) as [|n next]; auto with alloc.
  apply allocates_bind.
  - apply allocates_command_step. intros cur nc de. apply IH.
  - intros [s'|v]; auto with alloc.
Qed.

Lemma allocates_parseCommand E gas cur cPtr dePtr :
  allocates (parseCommand E gas cur cPtr dePtr).
Proof. apply allocates_parseCommand_loop. Qed.

Lemma allocates_parseUnit E gas cur : allocates (parseUnit E gas cur).
Proof. apply allocates_parseUnit_loop. Qed.

Lemma allocates_parseDevice gas cur pPtr : allocates (parseDevice gas cur pPtr).
Proof. apply allocates_parseDevice_loop. Qed.

Lemma allocates_parseProtocol E gas cur : allocates (parseProtocol E gas cur).
Proof. apply allocates_parseProtocol_loop. Qed.

#[local] Hint Resolve allocates_parseCommand allocates_parseUnit
  allocates_parseDevice allocates_parseProtocol allocates_parseConfig : alloc.

Lemma allocates_section_step E gas n next w :
  allocates (section_step E gas n next w).
Proof. unfold section_step. alloc_split. Qed.

Lemma allocates_sections E gas fuel :
  ∀ w, allocates (sections E gas fuel w).
Proof.
  pose proof (allocates_section_step E gas) as Hstep.
  induction fuel as [|fuel IH]; intros w; simpl; alloc_split.
Qed.

Lemma allocates_copyCommand c d : allocates (copyCommand c d).
Proof. unfold copyCommand. alloc_split. Qed.

Lemma allocates_copyToDevices c devs : allocates (copyToDevices c devs).
Proof.
  pose proof (allocates_copyCommand c) as Hc.
  induction devs as [|d next IH]; simpl; alloc_split.
Qed.

Lemma allocates_copyDefaults cmds :
  ∀ devs, allocates (copyDefaults cmds devs).
Proof.
  induction cmds as [|c next IH]; intros devs; simpl; alloc_split.
  apply allocates_copyToDevices.
Qed.

Lemma allocates_resolveDefaults w : allocates (resolveDefaults w).
Proof.
  unfold resolveDefaults. pose proof (allocates_copyDefaults (TcmdPtr w)).
  alloc_split.
Qed.

Lemma allocates_compile E gas doc : allocates (compile E gas doc).
Proof.
  unfold compile. pose proof (allocates_sections E gas gas).
  pose proof allocates_resolveDefaults. alloc_split.
Qed.

(** ** Release *)

Lemma release_app l1 l2 h :
  release (l1 ++ l2) h = bind (release l1) (λ _, release l2) h.
Proof.
  revert h. induction l1 as [|p l1 IH]; intros h; simpl; [reflexivity|].
  unfold bind. destruct (free_block p h) as [[[] h1]| |]; [|reflexivity..].
  rewrite IH. reflexivity.
Qed.

Lemma frees_ret : frees (ret tt) [].
Proof. intros h. reflexivity. Qed.

Lemma frees_free_block a : frees (free_block a) [a].
Proof.
  intros h. simpl. unfold bind. destruct (free_block a h) as [[[] h1]| |];
    reflexivity.
Qed.

Lemma frees_free p : frees (free p) (blk p).
Proof. destruct p as [s|]; [apply frees_free_block|apply frees_ret]. Qed.

Lemma frees_bind m1 m2 l1 l2 :
  frees m1 l1 → frees m2 l2 → frees (bind m1 (λ _, m2)) (l1 ++ l2).
Proof.
  intros H1 H2 h. rewrite release_app. unfold bind. rewrite H1.
  destruct (release l1 h) as [[[] h1]| |]; [apply H2|reflexivity..].
Qed.

Lemma frees_release l : frees (release l) l.
Proof. intros h. reflexivity. Qed.

Lemma frees_removeCompileList l : frees (removeCompileList l) l.
Proof.
  induction l as [|p rest IH]; intros h; simpl; [reflexivity|].
  unfold bind. destruct (free_block p h) as [[[] h1]| |]; [apply IH|reflexivity..].
Qed.

Lemma frees_free_all l : frees (free_all l) (List.concat (map blk l)).
Proof.
  induction l as [|p rest IH]; simpl; [apply frees_ret|].
  apply frees_bind; [apply frees_free|exact IH].
Qed.

Ltac frees_chain :=
  repeat first
    [ apply frees_free | apply frees_free_block | apply frees_ret
    | apply frees_removeCompileList | apply frees_free_all
    | assumption
    | apply frees_bind ].

Lemma frees_chain_step {A} (own : A → list nat) (remove : list A → M unit)
    (x : A) (next : list A) (body : M unit) :
  remove [] = ret tt →
  frees (remove next) (chain_blocks own next) →
  frees body (own x) →
  frees (let* _ := (if non_null next then remove next else ret tt) in body)
    (chain_blocks own (x :: next)).
Proof.
  intros Hnil Hnext Hbody. simpl. apply frees_bind; [|exact Hbody].
  destruct next; simpl; [apply frees_ret|exact Hnext].
Qed.

Lemma frees_removeMacroList ptr : frees (removeMacroList ptr) (macro_blocks ptr).
Proof.
  induction ptr as [|m next IH]; [apply frees_ret|].
  apply (frees_chain_step macro_own removeMacroList); [reflexivity|exact IH|].
  unfold macro_own. frees_chain.
Qed.

Lemma frees_removeIcmdList ptr : frees (removeIcmdList ptr) (icmd_blocks ptr).
Proof.
  induction ptr as [|i next IH]; [apply frees_ret|].
  apply (frees_chain_step icmd_own removeIcmdList); [reflexivity|exact IH|].
  unfold icmd_own. frees_chain.
Qed.

Lemma frees_removeProtocolList ptr :
  frees (removeProtocolList ptr) (protocol_blocks ptr).
Proof.
  induction ptr as [|p next IH]; [apply frees_ret|].
  apply (frees_chain_step protocol_own removeProtocolList);
    [reflexivity|exact IH|].
  unfold protocol_own.
  apply frees_bind; [apply frees_removeMacroList|].
  apply frees_bind; [apply frees_removeIcmdList|]. frees_chain.
Qed.

Lemma frees_removeEnumList ptr : frees (removeEnumList ptr) (enum_blocks ptr).
Proof.
  induction ptr as [|e next IH]; [apply frees_ret|].
  apply (frees_chain_step enum_own removeEnumList); [reflexivity|exact IH|].
  unfold enum_own. frees_chain.
Qed.

Lemma frees_removeUnitList ptr : frees (removeUnitList ptr) (unit_blocks ptr).
Proof.
  induction ptr as [|u next IH]; [apply frees_ret|].
  apply (frees_chain_step unit_own removeUnitList); [reflexivity|exact IH|].
  unfold unit_own.
  apply frees_bind; [apply frees_removeEnumList|]. frees_chain.
Qed.

Lemma frees_removeCommandList ptr :
  frees (removeCommandList ptr) (command_blocks ptr).
Proof.
  induction ptr as [|c next IH]; [apply frees_ret|].
  apply (frees_chain_step command_own removeCommandList);
    [reflexivity|exact IH|].
  unfold command_own. frees_chain.
Qed.

Lemma frees_removeDeviceList ptr :
  frees (removeDeviceList ptr) (device_blocks ptr).
Proof.
  induction ptr as [|d next IH]; [apply frees_ret|].
  apply (frees_chain_step device_own removeDeviceList); [reflexivity|exact IH|].
  unfold device_own.
  apply frees_bind; [apply frees_removeCommandList|]. frees_chain.
Qed.

Lemma frees_removeAllowList ptr : frees (removeAllowList ptr) (allow_blocks ptr).
Proof.
  induction ptr as [|a next IH]; [apply frees_ret|].
  apply (frees_chain_step allow_own removeAllowList); [reflexivity|exact IH|].
  unfold allow_own. frees_chain.
Qed.

Lemma release_live l :
  ∀ h, NoDup l → (∀ b, b ∈ l → b ∈ live h) →
       release l h = Ret (tt, without l h).
Proof.
  induction l as [|p rest IH]; intros h Hnd Hlive; simpl.
  - unfold ret, without. destruct h as [b lv]. simpl. do 3 f_equal. set_solver.
  - apply NoDup_cons in Hnd as [Hp Hnd].
    unfold bind, free_block. rewrite decide_True by (apply Hlive; by left).
    rewrite IH.
    + unfold without. simpl. do 3 f_equal. set_solver.
    + exact Hnd.
    + intros b Hb. simpl. apply elem_of_difference. split.
      * apply Hlive. by right.
      * intros ->%elem_of_singleton. contradiction.
Qed.


(** [freeAllLists] releases the blocks of the generation, one after the
    other, and leaves the globals null. *)
Lemma freeAllLists_release g h :
  freeAllLists g h
  = bind (release (generation_blocks g)) (λ _, ret unloaded) h.
Proof.
  assert (∀ m l (k : M globals),
            frees m l → ∀ h, bind m (λ _, k) h = bind (release l) (λ _, k) h)
    as Hcong.
  { intros m l k Hm h0. unfold bind. rewrite Hm. reflexivity. }
  unfold freeAllLists, generation_blocks.
  assert (frees
            (let* _ := removeProtocolList (protoPtr g) in
             let* _ := removeUnitList (uPtr g) in
             let* _ := removeDeviceList (devPtr g) in
             let* _ := removeCommandList (cmdPtr g) in
             release (config_blocks (cfgPtr g)))
            (protocol_blocks (protoPtr g) ++ unit_blocks (uPtr g)
               ++ device_blocks (devPtr g) ++ command_blocks (cmdPtr g)
               ++ config_blocks (cfgPtr g))) as Hall.
  { apply frees_bind; [apply frees_removeProtocolList|].
    apply frees_bind; [apply frees_removeUnitList|].
    apply frees_bind; [apply frees_removeDeviceList|].
    apply frees_bind; [apply frees_removeCommandList|].
    apply frees_release. }
  rewrite <- (Hcong _ _ (ret unloaded) Hall h).
  unfold bind.
  destruct (removeProtocolList (protoPtr g) h) as [[[] h1]| |]; [|reflexivity..].
  destruct (removeUnitList (uPtr g) h1) as [[[] h2]| |]; [|reflexivity..].
  destruct (removeDeviceList (devPtr g) h2) as [[[] h3]| |]; [|reflexivity..].
  destruct (removeCommandList (cmdPtr g) h3) as [[[] h4]| |]; [|reflexivity..].
  destruct (cfgPtr g) as [c|]; simpl; [|reflexivity].
  assert (frees
            (let* _ := free (cfg_tty c) in
             let* _ := free (cfg_logfile c) in
             let* _ := free (cfg_devID c) in
             let* _ := removeAllowList (cfg_aPtr c) in
             free_block (cfg_self c))
            (config_own c)) as Hcfg.
  { apply frees_bind; [apply frees_free|].
    apply frees_bind; [apply frees_free|].
    apply frees_bind; [apply frees_free|].
    apply frees_bind; [apply frees_removeAllowList|].
    apply frees_free_block. }
  rewrite <- (Hcfg h4). unfold bind.
  destruct (free (cfg_tty c) h4) as [[[] h5]| |]; [|reflexivity..].
  destruct (free (cfg_logfile c) h5) as [[[] h6]| |]; [|reflexivity..].
  destruct (free (cfg_devID c) h6) as [[[] h7]| |]; [|reflexivity..].
  destruct (removeAllowList (cfg_aPtr c) h7) as [[[] h8]| |]; [|reflexivity..].
  destruct (free_block (cfg_self c) h8) as [[[] h9]| |]; reflexivity.
Qed.

Lemma releasable_after g h h' : releasable g h → grows h h' → releasable g h'.
Proof.
  intros [Hnd Hlive] Hg. split; [exact Hnd|].
  intros b Hb. apply (grows_live h h' Hg). by apply Hlive.
Qed.

Lemma freeAllLists_releasable g h :
  releasable g h →
  freeAllLists g h = Ret (unloaded, without (generation_blocks g) h).
Proof.
  intros [Hnd Hlive]. rewrite freeAllLists_release. unfold bind.
  rewrite (release_live _ h Hnd Hlive). reflexivity.
Qed.

(** ** Runs of the loader *)

Lemma sections_walk_after E gas k :
  ∀ w h w' h' f,
    walk_after E gas k w h = Some (w', h') →
    sections E gas (k + f) w h = sections E gas f w' h'.
Proof.
  induction k as [|k IH]; intros w h w' h' f; simpl.
  - by intros [= -> ->].
  - destruct (w_cur w) as [|n next]; [discriminate|].
    unfold bind.
    destruct (section_step E gas n next w h) as [[[w1|] h1]| |]; try discriminate.
    apply IH.
Qed.

Ltac split_tests H :=
  repeat match type of H with
         | context [if ?b then _ else _] => destruct b eqn:?; try discriminate H
         end.

Lemma stage_fails_step E gas w h h' :
  stage_fails E gas w h h' →
  ∃ n next, w_cur w = n :: next ∧ section_step E gas n next w h = Ret (None, h').
Proof.
  intros [n next Hcur Hkind Hfound Hp|n next Hcur Hkind Hp
         |n next arg devs Hcur Hkind Hp|n next Hcur Hkind Hp];
    exists n, next; (split; [exact Hcur|]);
    unfold section_of in Hkind; split_tests Hkind;
    unfold section_step;
    repeat match goal with H : _ = false |- _ => rewrite H end;
    repeat match goal with H : _ = true |- _ => rewrite H end;
    unfold bind; rewrite Hp; reflexivity.
Qed.

(** A stage that fails after [k] iterations makes the walk return 0. *)
Lemma sections_abort E gas fuel k w0 h0 w h h' :
  walk_after E gas k w0 h0 = Some (w, h) →
  (k < fuel)%nat →
  stage_fails E gas w h h' →
  sections E gas fuel w0 h0 = Ret (None, h').
Proof.
  intros Hwalk Hk Hfail.
  replace fuel with (k + S (fuel - S k))%nat by lia.
  rewrite (sections_walk_after E gas k w0 h0 w h _ Hwalk).
  destruct (stage_fails_step E gas w h h' Hfail) as (n & next & Hcur & Hstep).
  simpl. rewrite Hcur. unfold bind. rewrite Hstep. reflexivity.
Qed.

Lemma compile_vcontrol_document E gas d root h :
  vcontrol_document d root →
  compile E gas (Some d) h
  = (let* r := sections E gas gas (walk0 (n_children root)) in
     match r with
     | None => ret None
     | Some w => resolveDefaults w
     end) h.
Proof.
  intros (Hroot & Hns & Hname & Hxi). unfold compile.
  rewrite Hroot, Hns, Hname. simpl.
  assert ((to_short (doc_xinclude d) <? 0) = false) as ->
    by (apply Z.ltb_ge; lia).
  reflexivity.
Qed.

Lemma build_fails_compile E gas doc h h' :
  build_fails E gas doc h h' → compile E gas doc h = Ret (None, h').
Proof.
  intros [d root k w hw -> Hdoc Hwalk Hk Hfail
         |d root w hw devs cfg -> Hdoc Hsec Hcopy Hcfg Hdev].
  - rewrite (compile_vcontrol_document E gas d root h Hdoc). unfold bind.
    rewrite (sections_abort E gas gas k _ _ w hw h' Hwalk Hk Hfail).
    reflexivity.
  - rewrite (compile_vcontrol_document E gas d root h Hdoc). unfold bind.
    rewrite Hsec. unfold resolveDefaults, bind. rewrite Hcopy, Hcfg. simpl.
    rewrite Hdev. reflexivity.
Qed.

(** ** Reload: failure *)

(** C1, as claimed, fails: when a device names an undeclared protocol the
    load returns 0 and keeps the globals, but the protocols, units and the
    configuration already built for the candidate stay allocated. *)
Lemma failed_load_keeps_candidate_blocks :
  ¬ (∀ E gas doc g h h',
       build_fails E gas doc h h' →
       parseXMLFile E gas doc g h = Ret ((0, g), h') ∧ live h' = live h).
Proof.
  intros H.
  assert (∃ h', build_fails host 40 unknown_protocol_document empty_heap h'
                ∧ live h' ≠ live empty_heap) as (h' & Hfail & Hlive).
  { eexists. split.
    - eapply (fails_in_stage host 40 _ _ _ _ _ 5%nat).
      + reflexivity.
      + split; [reflexivity|split; [reflexivity|split; [reflexivity|]]].
        vm_compute. discriminate.
      + vm_compute. reflexivity.
      + lia.
      + eapply devices_fail; [reflexivity|reflexivity|].
        vm_compute. reflexivity.
    - vm_compute. discriminate. }
  destruct (H host 40%nat unknown_protocol_document unloaded empty_heap h' Hfail)
    as [_ Heq].
  contradiction.
Qed.

Lemma parseXMLFile_failed E gas doc g h r g' h' :
  parseXMLFile E gas doc g h = Ret ((r, g'), h') → r = 0 →
  g' = g ∧ compile E gas doc h = Ret (None, h').
Proof.
  unfold parseXMLFile, bind.
  destruct (compile E gas doc h) as [[[T|] h1]| |]; try discriminate.
  - destruct (freeAllLists g h1) as [[g1 h2]| |]; try discriminate.
    intros [= <- <- <-]. discriminate.
  - by intros [= <- <- <-].
Qed.

(** C1 (amended): when a builder stage returns [NULL] or the default
    device does not resolve, [parseXMLFile] returns 0; and whenever it
    returns 0 the globals are what they were and nothing has been
    released, neither a block of the previously active generation nor a
    block allocated for the candidate, which stays allocated. *)
Theorem failed_load_keeps_active_generation
    E gas doc (g : globals) (h h' : heap) :
  (build_fails E gas doc h h' →
     parseXMLFile E gas doc g h = Ret ((0, g), h'))
  ∧ (∀ r g', parseXMLFile E gas doc g h = Ret ((r, g'), h') → r = 0 →
       g' = g ∧ grows h h'
       ∧ (∀ b, b ∈ generation_blocks g → b ∈ live h → b ∈ live h')).
Proof.
  split.
  - intros Hfail. unfold parseXMLFile, bind.
    rewrite (build_fails_compile E gas doc h h' Hfail). reflexivity.
  - intros r g' Hrun Hr.
    destruct (parseXMLFile_failed E gas doc g h r g' h' Hrun Hr) as [-> Hc].
    pose proof (allocates_compile E gas doc h None h' Hc) as Hg.
    split; [reflexivity|]. split; [exact Hg|].
    intros b _ Hb. by apply (grows_live h h' Hg).
Qed.

Lemma failed_load_keeps_active_generation_witness :
  ∃ h', parseXMLFile host 40 unknown_protocol_document loaded loaded_heap
        = Ret ((0, loaded), h').
Proof.
  eexists.
  apply (failed_load_keeps_active_generation host 40
           unknown_protocol_document loaded loaded_heap).
  eapply (fails_in_stage host 40 _ _ _ _ _ 5%nat).
  - reflexivity.
  - split; [reflexivity|split; [reflexivity|split; [reflexivity|]]].
    vm_compute. discriminate.
  - vm_compute. reflexivity.
  - lia.
  - eapply devices_fail; [reflexivity|reflexivity|].
    vm_compute. reflexivity.
Defined.

(** ** What a compile allocates

    Every block a candidate owns was handed out during its compile, and
    no two of its nodes own the same block: the strings that a device
    command or a copied default shares with a generic command belong to
    the generic command alone.  [within own pre m] carries this through
    the builders: what the result of [m] owns comes, block for block,
    from what went in ([pre]) and from what [m] allocated. *)

#[local] Instance app_submseteq :
  Proper (submseteq ==> submseteq ==> submseteq) (@app nat).
Proof. intros l1 l2 Hl k1 k2 Hk. by apply submseteq_app. Qed.

Lemma submseteq_NoDup (l k : list nat) : l ⊆+ k → NoDup k → NoDup l.
Proof.
  intros [rest Hperm]%submseteq_Permutation Hk. rewrite Hperm in Hk.
  by apply NoDup_app in Hk as [Hl _].
Qed.

Lemma allocated_app h h1 h2 :
  (brk h ≤ brk h1)%nat → (brk h1 ≤ brk h2)%nat →
  allocated h h1 ++ allocated h1 h2 = allocated h h2.
Proof.
  intros H1 H2. unfold allocated.
  replace (brk h2 - brk h)%nat with ((brk h1 - brk h) + (brk h2 - brk h1))%nat
    by lia.
  rewrite seq_app. do 2 f_equal. lia.
Qed.

Lemma allocated_refl h : allocated h h = [].
Proof. unfold allocated. by rewrite Nat.sub_diag. Qed.

Lemma within_ret {A} (own : A → list nat) pre (a : A) :
  own a ⊆+ pre → within own pre (ret a).
Proof.
  intros Ha h a' h' [= <- <-]. split; [lia|].
  by rewrite allocated_refl, app_nil_r.
Qed.

Lemma within_crash {A} (own : A → list nat) pre : within own pre crash.
Proof. intros h a h' [=]. Qed.

Lemma within_timeout {A} (own : A → list nat) pre : within own pre timeout.
Proof. intros h a h' [=]. Qed.

Lemma within_lift {A} (o : outcome A) pre : within (λ _, []) pre (lift o).
Proof.
  intros h a h'. unfold lift. destruct o; intros [=]; subst.
  split; [lia|]. apply submseteq_nil_l.
Qed.

Lemma within_weaken {A} (own : A → list nat) pre pre' (m : M A) :
  pre ⊆+ pre' → within own pre m → within own pre' m.
Proof.
  intros Hpre Hm h a h' Hr. destruct (Hm h a h' Hr) as [Hb Ho].
  split; [exact Hb|]. by rewrite Ho, Hpre.
Qed.

Lemma within_bind_frame {A B} (ownA : A → list nat) (ownB : B → list nat)
    frame pre (m : M A) (k : A → M B) :
  within ownA pre m →
  (∀ a, within ownB (frame ++ ownA a) (k a)) →
  within ownB (frame ++ pre) (bind m k).
Proof.
  intros Hm Hk h b h'. unfold bind.
  destruct (m h) as [[a h1]| |] eqn:Hmh; try discriminate.
  intros Hkh. destruct (Hm h a h1 Hmh) as [Hb1 Ho1].
  destruct (Hk a h1 b h' Hkh) as [Hb2 Ho2].
  split; [lia|].
  rewrite Ho2, Ho1, <- (allocated_app h h1 h') by lia.
  solve_submseteq.
Qed.

Lemma within_bind {A B} (ownA : A → list nat) (ownB : B → list nat)
    pre (m : M A) (k : A → M B) :
  within ownA [] m →
  (∀ a, within ownB (pre ++ ownA a) (k a)) →
  within ownB pre (bind m k).
Proof.
  intros Hm Hk. rewrite <- (app_nil_r pre).
  eapply within_bind_frame; [exact Hm|exact Hk].
Qed.

Lemma within_calloc : within (λ a, [a]) [] calloc.
Proof.
  intros h a h' [= <- <-]. simpl. split; [lia|].
  unfold allocated. simpl. replace (S (brk h) - brk h)%nat with 1%nat by lia.
  reflexivity.
Qed.

Lemma within_strdup s : within blk [] (strdup s).
Proof.
  intros h p h' [= <- <-]. simpl. split; [lia|].
  unfold allocated. simpl. replace (S (brk h) - brk h)%nat with 1%nat by lia.
  reflexivity.
Qed.

Lemma within_nullIT : within blk [] nullIT.
Proof. apply within_strdup. Qed.

Lemma within_copy_or_empty o : within blk [] (copy_or_empty o).
Proof. destruct o; [apply within_strdup|apply within_nullIT]. Qed.

(** Chains *)

Lemma chain_blocks_app {A} (own : A → list nat) (l1 l2 : list A) :
  chain_blocks own (l1 ++ l2) = chain_blocks own l2 ++ chain_blocks own l1.
Proof.
  induction l1 as [|x l1 IH]; simpl; [by rewrite app_nil_r|].
  by rewrite IH, app_assoc.
Qed.

Lemma chain_blocks_anchor {A} (own : A → list nat) (l : list A) (x : A) :
  chain_blocks own (anchor (linked l x) x) = own x ++ chain_blocks own l.
Proof. rewrite anchor_linked, chain_blocks_app. simpl. reflexivity. Qed.

Lemma chain_blocks_upd_last {A} (own : A → list nat) f extra
    `{!Writes own f extra} (l : list A) :
  chain_blocks own (upd_last f l) ⊆+ chain_blocks own l ++ extra.
Proof.
  induction l as [|x rest IH]; [apply submseteq_nil_l|].
  destruct rest as [|y rest].
  - simpl. apply writes.
  - change (upd_last f (x :: y :: rest)) with (x :: upd_last f (y :: rest)).
    change (chain_blocks own (x :: upd_last f (y :: rest)))
      with (chain_blocks own (upd_last f (y :: rest)) ++ own x).
    rewrite IH. simpl. solve_submseteq.
Qed.

Lemma chain_blocks_alter {A} (own : A → list nat) f extra
    `{!Writes own f extra} (l : list A) (i : nat) :
  chain_blocks own (alter f i l) ⊆+ chain_blocks own l ++ extra.
Proof.
  revert i. induction l as [|x rest IH]; intros i; [apply submseteq_nil_l|].
  destruct i as [|i]; simpl.
  - rewrite (writes x). solve_submseteq.
  - rewrite (IH i). solve_submseteq.
Qed.

Lemma within_with_last {A} (own : A → list nat) (f : A → M A) (l : list A) :
  (∀ x, within own (own x) (f x)) →
  within (chain_blocks own) (chain_blocks own l) (with_last f l).
Proof.
  intros Hf. induction l as [|x rest IH]; [apply within_crash|].
  destruct rest as [|y rest].
  - simpl. rewrite <- (app_nil_l (own x)).
    eapply within_bind_frame; [apply Hf|].
    intros z. apply within_ret. simpl. reflexivity.
  - change (with_last f (x :: y :: rest))
      with (let* r := with_last f (y :: rest) in ret (x :: r)).
    change (chain_blocks own (x :: y :: rest))
      with (chain_blocks own (y :: rest) ++ own x).
    eapply within_weaken;
      [|eapply (within_bind_frame (chain_blocks own) (chain_blocks own)
                  (own x)); [exact IH|]].
    + solve_submseteq.
    + intros r. apply within_ret. simpl. solve_submseteq.
Qed.

Lemma within_bind_thread {A B} (ownA : A → list nat) (ownB : B → list nat)
    pre (m : M A) (k : A → M B) :
  within ownA pre m →
  (∀ a, within ownB (ownA a) (k a)) →
  within ownB pre (bind m k).
Proof. intros Hm Hk. by apply (within_bind_frame ownA ownB [] pre). Qed.

Lemma within_bind_lift {A B} (ownB : B → list nat) pre (o : outcome A)
    (k : A → M B) :
  (∀ a, within ownB pre (k a)) → within ownB pre (bind (lift o) k).
Proof.
  intros Hk h b h'. unfold bind, lift. destruct o as [a| |]; try discriminate.
  apply Hk.
Qed.

Lemma within_bind_ret {A B} (ownB : B → list nat) pre (a : A) (k : A → M B) :
  within ownB pre (k a) → within ownB pre (bind (ret a) k).
Proof. intros Hk h b h'. apply Hk. Qed.

(** Assignments *)

Ltac writes_fields :=
  intros x;
  unfold macro_own, icmd_own, protocol_own, enum_own, unit_own, device_own,
    allow_own, command_all, command_own, command_strings; simpl;
  try solve_submseteq.

#[local] Instance writes_id {A} (own : A → list nat) : Writes own id [].
Proof. intros x. by rewrite app_nil_r. Qed.

#[local] Instance writes_set_m_command v : Writes macro_own (set_m_command v) (blk v).
Proof. writes_fields. Qed.

#[local] Instance writes_set_ic_send v : Writes icmd_own (set_ic_send v) (blk v).
Proof. writes_fields. Qed.

#[local] Instance writes_set_ic_retry v : Writes icmd_own (set_ic_retry v) [].
Proof. writes_fields. Qed.

#[local] Instance writes_set_ic_recvTimeout v :
  Writes icmd_own (set_ic_recvTimeout v) [].
Proof. writes_fields. Qed.

#[local] Instance writes_set_p_id v : Writes protocol_own (set_p_id v) [].
Proof. writes_fields. Qed.

#[local] Instance writes_set_p_mPtr m :
  Writes protocol_own (set_p_mPtr m) (macro_blocks m).
Proof. writes_fields. Qed.

#[local] Instance writes_set_p_icPtr i :
  Writes protocol_own (set_p_icPtr i) (icmd_blocks i).
Proof. writes_fields. Qed.

#[local] Instance writes_set_u_abbrev v : Writes unit_own (set_u_abbrev v) (blk v).
Proof. writes_fields. Qed.

#[local] Instance writes_set_u_gCalc v : Writes unit_own (set_u_gCalc v) (blk v).
Proof. writes_fields. Qed.

#[local] Instance writes_set_u_sCalc v : Writes unit_own (set_u_sCalc v) (blk v).
Proof. writes_fields. Qed.

#[local] Instance writes_set_u_gICalc v : Writes unit_own (set_u_gICalc v) (blk v).
Proof. writes_fields. Qed.

#[local] Instance writes_set_u_sICalc v : Writes unit_own (set_u_sICalc v) (blk v).
Proof. writes_fields. Qed.

#[local] Instance writes_set_u_type v : Writes unit_own (set_u_type v) (blk v).
Proof. writes_fields. Qed.

#[local] Instance writes_set_u_entity v : Writes unit_own (set_u_entity v) (blk v).
Proof. writes_fields. Qed.

Ltac writes_command :=
  writes_fields;
  match goal with
  | x : Command |- _ =>
      destruct (0 <? c_nodeType x); [destruct (c_nodeType x =? 1)|]; simpl;
      solve_submseteq
  end.

#[local] Instance writes_set_c_addr v : Writes command_own (set_c_addr v) (blk v).
Proof. writes_command. Qed.

#[local] Instance writes_set_c_errStr v :
  Writes command_own (set_c_errStr v) (blk v).
Proof. writes_command. Qed.

#[local] Instance writes_set_c_unit v : Writes command_own (set_c_unit v) (blk v).
Proof. writes_command. Qed.

#[local] Instance writes_set_c_precmd v :
  Writes command_own (set_c_precmd v) (blk v).
Proof. writes_command. Qed.

#[local] Instance writes_set_c_description v :
  Writes command_own (set_c_description v) (blk v).
Proof. writes_command. Qed.

#[local] Instance writes_set_c_len v : Writes command_own (set_c_len v) [].
Proof. writes_command. Qed.

#[local] Instance writes_set_c_bit v : Writes command_own (set_c_bit v) [].
Proof. writes_command. Qed.

#[local] Instance writes_all_set_c_addr v :
  Writes command_all (set_c_addr v) (blk v).
Proof. writes_fields. Qed.

#[local] Instance writes_all_set_c_errStr v :
  Writes command_all (set_c_errStr v) (blk v).
Proof. writes_fields. Qed.

#[local] Instance writes_all_set_c_unit v :
  Writes command_all (set_c_unit v) (blk v).
Proof. writes_fields. Qed.

#[local] Instance writes_all_set_c_precmd v :
  Writes command_all (set_c_precmd v) (blk v).
Proof. writes_fields. Qed.

#[local] Instance writes_all_set_c_description v :
  Writes command_all (set_c_description v) (blk v).
Proof. writes_fields. Qed.

#[local] Instance writes_all_set_c_len v : Writes command_all (set_c_len v) [].
Proof. writes_fields. Qed.

#[local] Instance writes_all_set_c_bit v : Writes command_all (set_c_bit v) [].
Proof. writes_fields. Qed.

#[local] Instance writes_attachCommand nc :
  Writes device_own (attachCommand nc) (command_own nc).
Proof.
  intros d. unfold device_own, attachCommand, addCommandNode, command_blocks.
  simpl. rewrite chain_blocks_anchor. solve_submseteq.
Qed.

(** The builders *)

Create HintDb own.
#[local] Hint Resolve within_calloc within_strdup within_nullIT
  within_copy_or_empty : own.

Ltac own_blocks :=
  cbn [from_option];
  unfold walk_blocks, candidate_blocks, generation_blocks, cmdret_blocks;
  cbn [TprotoPtr TuPtr TdevPtr TcmdPtr TcfgPtr goto set_w_prevPtr
       set_w_unixFound set_w_protocolsFound set_TprotoPtr set_TuPtr
       set_TdevPtr set_TcmdPtr set_TcfgPtr protoPtr uPtr devPtr cmdPtr cfgPtr
       fst snd arg_all from_option];
  unfold macro_blocks, icmd_blocks, protocol_blocks, enum_blocks, unit_blocks,
    command_blocks, device_blocks, allow_blocks in *;
  rewrite ?chain_blocks_anchor;
  rewrite ?chain_blocks_upd_last by apply _;
  unfold macro_own, icmd_own, protocol_own, enum_own, unit_own, device_own,
    allow_own, config_own, config_blocks, command_all, command_own,
    command_strings; simpl;
  unfold macro_blocks, icmd_blocks, protocol_blocks, enum_blocks, unit_blocks,
    command_blocks, device_blocks, allow_blocks;
  rewrite ?chain_blocks_anchor;
  solve_submseteq.

Ltac own_bind :=
  lazymatch goal with
  | |- within _ _ (bind (lift _) _) => apply within_bind_lift; intros ?
  | |- within _ _ (bind (ret _) _) => apply within_bind_ret
  | |- within _ _ (bind _ _) =>
      eapply within_bind; [solve [eauto with own]|intros ?]
  end.

Ltac own_loop IH :=
  repeat first
    [ apply within_timeout
    | apply within_crash
    | apply within_ret; own_blocks
    | eapply within_weaken; [|apply IH]; own_blocks
    | own_bind
    | match goal with
      | |- within _ _ (if ?b then _ else _) => destruct b
      | |- within _ _ (match ?x with _ => _ end) => destruct x
      | |- within _ _ ?c =>
          match c with context [match ?x with _ => _ end] => destruct x end
      | |- within ?own _ (bind _ _) =>
          eapply (within_bind_thread own own);
            [first [solve [eauto with own]|solve [own_loop IH]]|intros ?]
      end ].

Ltac own_new :=
  intros; eapply within_bind; [apply within_calloc|]; intros ?;
  apply within_ret; simpl; reflexivity.

Lemma within_newMacroNode ptr : within macro_own [] (newMacroNode ptr).
Proof. own_new. Qed.

Lemma within_newIcmdNode ptr : within icmd_own [] (newIcmdNode ptr).
Proof. own_new. Qed.

Lemma within_newProtocolNode ptr : within protocol_own [] (newProtocolNode ptr).
Proof. own_new. Qed.

Lemma within_newEnumNode ptr : within enum_own [] (newEnumNode ptr).
Proof. own_new. Qed.

Lemma within_newUnitNode ptr : within unit_own [] (newUnitNode ptr).
Proof. own_new. Qed.

Lemma within_newDeviceNode ptr : within device_own [] (newDeviceNode ptr).
Proof. own_new. Qed.

Lemma within_newAllowNode ptr : within allow_own [] (newAllowNode ptr).
Proof. own_new. Qed.

Lemma within_newCommandNode ptr : within command_all [] (newCommandNode ptr).
Proof. own_new. Qed.

#[local] Hint Resolve within_newMacroNode within_newIcmdNode
  within_newProtocolNode within_newEnumNode within_newUnitNode
  within_newDeviceNode within_newAllowNode within_newCommandNode : own.

Lemma within_parseMacro_loop fuel cur prevPtr macroFound mStartPtr :
  within macro_blocks (macro_blocks mStartPtr)
    (parseMacro_loop fuel cur prevPtr macroFound mStartPtr).
Proof.
  revert cur prevPtr macroFound mStartPtr.
  induction fuel as [|fuel IH]; intros [|n next] prevPtr macroFound mStartPtr;
    simpl; own_loop IH.
Qed.

Lemma within_parseMacro ge cur : within macro_blocks [] (parseMacro ge cur).
Proof. apply (within_parseMacro_loop ge cur None false []). Qed.

Lemma within_parseICmd_loop E fuel cur prevPtr commandFound icStartPtr :
  within icmd_blocks (icmd_blocks icStartPtr)
    (parseICmd_loop E fuel cur prevPtr commandFound icStartPtr).
Proof.
  revert cur prevPtr commandFound icStartPtr.
  induction fuel as [|fuel IH]; intros [|n next] prevPtr commandFound icStartPtr;
    simpl; own_loop IH.
Qed.

Lemma within_parseICmd E ge cur : within icmd_blocks [] (parseICmd E ge cur).
Proof. apply (within_parseICmd_loop E ge cur None false []). Qed.

#[local] Hint Resolve within_parseMacro within_parseICmd : own.

Lemma within_parseProtocol_loop E ge fuel cur prevPtr protoFound protoStartPtr :
  within protocol_blocks (protocol_blocks protoStartPtr)
    (parseProtocol_loop E ge fuel cur prevPtr protoFound protoStartPtr).
Proof.
  revert cur prevPtr protoFound protoStartPtr.
  induction fuel as [|fuel IH];
    intros [|n next] prevPtr protoFound protoStartPtr; simpl; own_loop IH.
Qed.

Lemma within_parseProtocol E ge cur :
  within protocol_blocks [] (parseProtocol E ge cur).
Proof. apply (within_parseProtocol_loop E ge ge cur None false []). Qed.

Lemma within_parseEnum E n text uPtr :
  within unit_own (unit_own uPtr) (parseEnum E n text uPtr).
Proof.
  unfold parseEnum. do 2 own_bind.
  eapply within_weaken;
    [|eapply (within_bind_frame enum_own unit_own (unit_own uPtr)
                (enum_own (set_e_text a0 a)))].
  - own_blocks.
  - own_loop I.
  - intros e. own_loop I.
Qed.

Lemma within_parseUnit_loop E fuel cur prevPtr unitFound uStartPtr :
  within unit_blocks (unit_blocks uStartPtr)
    (parseUnit_loop E fuel cur prevPtr unitFound uStartPtr).
Proof.
  revert cur prevPtr unitFound uStartPtr.
  induction fuel as [|fuel IH]; intros [|n next] prevPtr unitFound uStartPtr;
    simpl; own_loop IH.
  eapply within_bind_thread;
    [apply within_with_last; intros u; apply within_parseEnum|].
  intros start. own_loop IH.
Qed.

Lemma within_parseUnit E ge cur : within unit_blocks [] (parseUnit E ge cur).
Proof. apply (within_parseUnit_loop E ge cur None false []). Qed.

Lemma within_buildDevice n pPtr dStartPtr :
  within (from_option device_own []) [] (buildDevice n pPtr dStartPtr).
Proof. unfold buildDevice. own_loop I. Qed.

#[local] Hint Resolve within_buildDevice : own.

Lemma within_parseDevice_loop fuel cur prevPtr pPtr dStartPtr :
  within device_blocks (device_blocks dStartPtr)
    (parseDevice_loop fuel cur prevPtr pPtr dStartPtr).
Proof.
  revert cur prevPtr dStartPtr.
  induction fuel as [|fuel IH]; intros [|n next] prevPtr dStartPtr;
    simpl; own_loop IH.
Qed.

Lemma within_parseDevice ge cur pPtr :
  within device_blocks [] (parseDevice ge cur pPtr).
Proof. apply (within_parseDevice_loop ge cur None pPtr []). Qed.

Lemma within_parseAllow E chrPtr cfg :
  within config_own (config_own cfg)
    (parseAllow E chrPtr cfg).
Proof.
  unfold parseAllow. destruct chrPtr as [text|]; [|apply within_crash].
  apply within_bind_lift. intros [ip size]. own_loop I.
Qed.

Lemma within_parseConfig_loop E fuel cur prevPtr serialFound netFound logFound
    cfg :
  within config_own (config_own cfg)
    (parseConfig_loop E fuel cur prevPtr serialFound netFound logFound cfg).
Proof.
  revert cur prevPtr serialFound netFound logFound cfg.
  induction fuel as [|fuel IH];
    intros [|n next] prevPtr serialFound netFound logFound cfg;
    simpl; own_loop IH.
  eapply within_bind_thread; [apply within_parseAllow|].
  intros cfg'. own_loop IH.
Qed.

Lemma within_parseConfig E ge cur :
  within config_blocks [] (parseConfig E ge cur).
Proof.
  unfold parseConfig. own_bind.
  eapply (within_bind_thread config_own);
    [|intros cfg; apply within_ret; reflexivity].
  eapply within_weaken; [|apply within_parseConfig_loop].
  own_blocks.
Qed.




(** Commands *)

Lemma writes_weaken {A} (own : A → list nat) f extra extra' :
  extra ⊆+ extra' → Writes own f extra → Writes own f extra'.
Proof. intros He Hw x. rewrite (Hw x). by rewrite He. Qed.

Lemma assigns_ret f :
  Writes command_own f [] → Writes command_all f [] → assigns (ret f).
Proof.
  intros Ho Ha h f' h' [= <- <-]. rewrite allocated_refl. by split.
Qed.

Lemma assigns_copy (o : option string) (set : charp → Command → Command) :
  (∀ v, Writes command_own (set v) (blk v)) →
  (∀ v, Writes command_all (set v) (blk v)) →
  assigns (let* v := copy_or_empty o in ret (set v)).
Proof.
  intros Ho Ha h f h'. unfold bind.
  destruct (copy_or_empty o h) as [[v h1]| |] eqn:Hv; try discriminate.
  intros [= <- <-]. destruct (within_copy_or_empty o h v h1 Hv) as [Hb Hin].
  split; [exact Hb|].
  split; eapply writes_weaken; try exact Hin; auto.
Qed.

Lemma assigns_errorField E chrPtr : assigns (errorField E chrPtr).
Proof.
  unfold errorField. destruct chrPtr as [s|].
  - destruct (String.length (string2chr E s 256) =? 0)%nat.
    + apply assigns_ret; apply _.
    + intros h f h' [= <- <-]. simpl. split; [lia|].
      unfold allocated. simpl.
      replace (S (brk h) - brk h)%nat with 1%nat by lia.
      split; [apply (writes_set_c_errStr (Some (CStr (brk h) _)))
             |apply (writes_all_set_c_errStr (Some (CStr (brk h) _)))].
  - intros h f h' [= <- <-]. simpl. split; [lia|].
    unfold allocated. simpl.
    replace (S (brk h) - brk h)%nat with 1%nat by lia.
    split; [apply (writes_set_c_errStr (Some (CStr (brk h) _)))
           |apply (writes_all_set_c_errStr (Some (CStr (brk h) _)))].
Qed.

Lemma within_field s v :
  assigns v → within cmdstep_blocks (cmdloop_blocks s) (field s v).
Proof.
  intros Hv h r h'. unfold field, bind.
  destruct (v h) as [[f h1]| |] eqn:Hf; try discriminate.
  destruct (Hv h f h1 Hf) as (Hb & Ho & Ha).
  unfold lift.
  destruct (cmd_upd (cl_cPtr s) f (cl_cStartPtr s) (cl_arg s))
    as [[start arg]| |] eqn:Hupd; try discriminate.
  destruct (nextNode (cl_cur s) (cl_prevPtr s)) as [cur| |]; try discriminate.
  intros [= <- <-]. split; [exact Hb|].
  unfold cmd_upd in Hupd. destruct (cl_cPtr s); try discriminate.
  - destruct (cl_arg s) as [c|] eqn:Harg; try discriminate.
    injection Hupd as <- <-.
    unfold cmdstep_blocks, cmdloop_blocks.
    cbn [cl_cStartPtr cl_arg cl_dePtr]. rewrite Harg.
    cbn [arg_all]. rewrite (Ha c). solve_submseteq.
  - destruct (cl_cStartPtr s) as [|c0 rest] eqn:Hs; try discriminate.
    rewrite <- Hs in Hupd. injection Hupd as <- <-.
    unfold cmdstep_blocks, cmdloop_blocks, command_blocks.
    cbn [cl_cStartPtr cl_arg cl_dePtr].
    rewrite (chain_blocks_upd_last command_own f (allocated h h1)).
    solve_submseteq.
Qed.

Lemma within_bind_rd {A B} (ownB : B → list nat) pre (v : option A)
    (k : A → M B) :
  (∀ a, v = Some a → within ownB pre (k a)) →
  within ownB pre (bind (lift (rd v)) k).
Proof.
  intros Hk h b h'. unfold bind, lift, rd. destruct v as [a|]; try discriminate.
  by apply Hk.
Qed.

Lemma within_inheritCommand cPtr protocmd ncPtr :
  within command_own (command_all ncPtr) (inheritCommand cPtr protocmd ncPtr).
Proof.
  unfold inheritCommand.
  set (borrowed := λ c, command_own (set_c_nodeType 2 c)).
  set (nc := set_c_name (c_name cPtr)
               (set_c_description (c_description cPtr) ncPtr)).
  apply (within_weaken command_own (borrowed nc));
    [unfold borrowed, nc; own_blocks|].
  apply (within_bind_thread borrowed).
  { destruct (c_unit nc) as [u|]; [apply within_ret; reflexivity|].
    destruct (c_unit cPtr) as [u|]; [|apply within_ret; reflexivity].
    own_bind. apply within_ret. unfold borrowed. own_blocks. }
  intros nc1. apply (within_bind_thread borrowed).
  { destruct protocmd as [p|].
    - own_bind. apply within_ret. unfold borrowed. own_blocks.
    - apply within_bind_lift. intros p. own_bind.
      apply within_ret. unfold borrowed. own_blocks. }
  intros nc2. apply within_ret. reflexivity.
Qed.

Lemma within_deviceCommand rec n id s :
  (∀ cur nc de,
     within cmdret_blocks (command_all nc ++ device_blocks de) (rec cur nc de)) →
  within cmdstep_blocks (cmdloop_blocks s) (deviceCommand rec n id s).
Proof.
  intros Hrec. unfold deviceCommand.
  apply within_bind_lift. intros [|d0 found].
  { apply within_ret. unfold cmdstep_blocks, cmdret_blocks, cmdloop_blocks.
    simpl. solve_submseteq. }
  apply within_bind_lift. intros c. apply within_bind_lift. intros _.
  own_bind.
  set (frame := command_blocks (cl_cStartPtr s) ++ arg_all (cl_arg s)).
  eapply within_weaken;
    [|apply (within_bind_frame cmdret_blocks cmdstep_blocks frame
               (command_all a ++ device_blocks (cl_dePtr s)));
      [apply Hrec|]].
  { unfold frame, cmdloop_blocks. solve_submseteq. }
  intros [[r nc'] de']. apply within_bind_rd. intros nc1 ->.
  eapply within_weaken;
    [|apply (within_bind_frame command_own cmdstep_blocks
               (frame ++ device_blocks de') (command_all nc1));
      [apply within_inheritCommand|]].
  { unfold cmdret_blocks. simpl. solve_submseteq. }
  intros nc2. apply within_bind_lift. intros cur. apply within_ret.
  unfold cmdstep_blocks, cmdloop_blocks, frame. simpl.
  unfold device_blocks.
  rewrite (chain_blocks_alter device_own (attachCommand nc2) (command_own nc2)).
  solve_submseteq.
Qed.

Lemma within_command_step E rec n next s :
  (∀ cur nc de,
     within cmdret_blocks (command_all nc ++ device_blocks de) (rec cur nc de)) →
  within cmdstep_blocks (cmdloop_blocks s) (command_step E rec n next s).
Proof.
  intros Hrec. unfold command_step.
  repeat match goal with
         | |- within _ _ (if ?b then _ else _) => destruct b
         | |- within _ _ (match ?x with _ => _ end) => destruct x
         end;
    try (apply within_ret; reflexivity);
    try (apply within_deviceCommand; exact Hrec);
    try (apply within_field;
         first [apply assigns_errorField
               |apply assigns_copy; intros; apply _
               |apply assigns_ret; apply _]).
  - do 3 own_bind. apply within_ret.
    unfold cmdstep_blocks, cmdloop_blocks. simpl. own_blocks.
  - apply within_field. destruct (getTextNode n); apply assigns_ret; apply _.
  - apply within_field. destruct (getTextNode n); apply assigns_ret; apply _.
  - apply within_ret. unfold cmdstep_blocks, cmdret_blocks, cmdloop_blocks.
    simpl. solve_submseteq.
Qed.

Lemma within_parseCommand_loop E fuel s :
  within cmdret_blocks (cmdloop_blocks s) (parseCommand_loop E fuel s).
Proof.
  revert s. induction fuel as [|fuel IH]; intros s.
  - simpl. destruct (cl_cur s); [|apply within_timeout].
    apply within_ret. reflexivity.
  - cbn [parseCommand_loop]. destruct (cl_cur s) as [|n next].
    { apply within_ret. reflexivity. }
    apply (within_bind_thread cmdstep_blocks).
    + apply within_command_step. intros cur nc de.
      eapply within_weaken; [|apply IH].
      unfold cmdloop_blocks. simpl. reflexivity.
    + intros [s'|v]; [apply IH|apply within_ret; reflexivity].
Qed.

Lemma within_parseCommand E ge cur dePtr :
  within cmdret_blocks (device_blocks dePtr) (parseCommand E ge cur None dePtr).
Proof. apply (within_parseCommand_loop E ge (cmdloop0 cur None dePtr)). Qed.

(** The loader *)

Lemma allocated_one h l : allocated h (Heap (S (brk h)) l) = [brk h].
Proof.
  unfold allocated. simpl.
  by replace (S (brk h) - brk h)%nat with 1%nat by lia.
Qed.

Lemma within_copyCommand cPtr dPtr :
  within device_own (device_own dPtr) (copyCommand cPtr dPtr).
Proof.
  unfold copyCommand.
  destruct (getCommandNode (d_cmdPtr dPtr) (deref (c_name cPtr)));
    [|apply within_ret; reflexivity].
  intros h d h' [= <- <-]. split; [simpl; lia|].
  rewrite allocated_one. own_blocks.
Qed.

Lemma within_copyToDevices cPtr dPtr :
  within device_blocks (device_blocks dPtr) (copyToDevices cPtr dPtr).
Proof.
  induction dPtr as [|d next IH]; simpl; [apply within_ret; reflexivity|].
  apply (within_bind_frame device_own device_blocks (device_blocks next)
           (device_own d)); [apply within_copyCommand|].
  intros d'.
  apply (within_weaken device_blocks (device_own d' ++ device_blocks next));
    [solve_submseteq|].
  apply (within_bind_frame device_blocks device_blocks (device_own d')
           (device_blocks next)); [exact IH|].
  intros next'. apply within_ret. simpl. solve_submseteq.
Qed.

Lemma within_copyDefaults cPtr TdevPtr :
  within device_blocks (device_blocks TdevPtr) (copyDefaults cPtr TdevPtr).
Proof.
  revert TdevPtr. induction cPtr as [|c next IH]; intros TdevPtr; simpl.
  - apply within_ret. reflexivity.
  - eapply within_bind_thread; [apply within_copyToDevices|]. exact IH.
Qed.

#[local] Hint Resolve within_parseProtocol within_parseUnit within_parseDevice
  within_parseConfig : own.

Lemma within_section_step E ge n next w :
  within (from_option walk_blocks []) (walk_blocks w)
    (section_step E ge n next w).
Proof.
  unfold section_step. own_loop I.
  all: eapply within_weaken;
    [|apply (within_bind_frame cmdret_blocks (from_option walk_blocks [])
               (protocol_blocks (TprotoPtr w) ++ unit_blocks (TuPtr w)
                  ++ command_blocks (TcmdPtr w) ++ config_blocks (TcfgPtr w))
               (device_blocks (TdevPtr w)));
      [apply within_parseCommand|]];
    [unfold walk_blocks; solve_submseteq|intros [[c arg] devs]; own_loop I].
Qed.

Lemma within_sections E ge fuel w :
  within (from_option walk_blocks []) (walk_blocks w) (sections E ge fuel w).
Proof.
  revert w. induction fuel as [|fuel IH]; intros w.
  - simpl. destruct (w_cur w); [apply within_ret; reflexivity|].
    apply within_timeout.
  - cbn [sections]. destruct (w_cur w) as [|n next].
    { apply within_ret. reflexivity. }
    eapply within_bind_thread; [apply within_section_step|].
    intros [w'|]; [apply IH|apply within_ret; reflexivity].
Qed.

Lemma within_resolveDefaults w :
  within candidate_blocks (walk_blocks w) (resolveDefaults w).
Proof.
  unfold resolveDefaults.
  eapply within_weaken;
    [|apply (within_bind_frame device_blocks candidate_blocks
               (protocol_blocks (TprotoPtr w) ++ unit_blocks (TuPtr w)
                  ++ command_blocks (TcmdPtr w) ++ config_blocks (TcfgPtr w))
               (device_blocks (TdevPtr w)));
      [apply within_copyDefaults|]].
  { unfold walk_blocks. solve_submseteq. }
  intros devs. apply within_bind_rd. intros cfg Hcfg. rewrite Hcfg.
  own_loop I.
Qed.

Lemma within_compile E ge doc : within candidate_blocks [] (compile E ge doc).
Proof.
  unfold compile. own_loop I.
  eapply within_bind_thread; [apply within_sections|].
  intros [w|]; [apply within_resolveDefaults|apply within_ret; reflexivity].
Qed.

(** ** The candidate can be released

    What a compile hands over consists of blocks it has allocated itself,
    each owned once: the next successful load can release it. *)

Lemma compile_owned E ge doc h T h1 :
  compile E ge doc h = Ret (Some T, h1) →
  generation_blocks T ⊆+ allocated h h1.
Proof.
  intros Hc. by destruct (within_compile E ge doc h (Some T) h1 Hc) as [_ H].
Qed.

Lemma elem_of_allocated b h h' :
  b ∈ allocated h h' → (brk h ≤ b < brk h')%nat.
Proof. unfold allocated. rewrite elem_of_seq. lia. Qed.

Lemma candidate_releasable E ge doc g h T h1 :
  heap_ok h → releasable g h →
  compile E ge doc h = Ret (Some T, h1) →
  releasable T (without (generation_blocks g) h1)
  ∧ heap_ok (without (generation_blocks g) h1).
Proof.
  intros Hok [Hnd Hlive] Hc.
  pose proof (compile_owned E ge doc h T h1 Hc) as Hown.
  pose proof (allocates_compile E ge doc h (Some T) h1 Hc) as [Hb Hl].
  split; [split|].
  - eapply submseteq_NoDup; [exact Hown|apply NoDup_seq].
  - intros b Hin. unfold without. simpl. apply elem_of_difference.
    pose proof (elem_of_submseteq _ _ _ Hin Hown) as Hnew.
    apply elem_of_allocated in Hnew. split.
    + apply Hl. by right.
    + rewrite elem_of_list_to_set. intros Hold.
      apply Hlive, Hok in Hold. lia.
  - intros b. unfold without. simpl. rewrite elem_of_difference.
    intros [Hin _]. apply Hl in Hin as [Hin|Hin]; [|lia].
    apply Hok in Hin. lia.
Qed.

(** A load, whatever it returns, leaves globals that the next load can
    release. *)
Lemma parseXMLFile_keeps_releasable E ge doc g h r g' h' :
  heap_ok h → releasable g h →
  parseXMLFile E ge doc g h = Ret ((r, g'), h') →
  releasable g' h' ∧ heap_ok h'.
Proof.
  intros Hok Hrel. unfold parseXMLFile, bind.
  destruct (compile E ge doc h) as [[[T|] h1]| |] eqn:Hc; try discriminate.
  - pose proof (allocates_compile E ge doc h (Some T) h1 Hc) as Hg.
    rewrite (freeAllLists_releasable g h1 (releasable_after g h h1 Hrel Hg)).
    intros [= <- <- <-]. by apply (candidate_releasable E ge doc g h T h1).
  - pose proof (allocates_compile E ge doc h None h1 Hc) as Hg.
    intros [= <- <- <-]. split.
    + by apply (releasable_after g h h1).
    + by apply (grows_heap_ok h h1).
Qed.

(** ** Reload: success *)

Lemma compile_some_inv E gas doc h T h1 :
  compile E gas doc h = Ret (Some T, h1) →
  ∃ d root w hw cfg found,
    doc = Some d ∧ vcontrol_document d root
    ∧ sections E gas gas (walk0 (n_children root)) h = Ret (Some w, hw)
    ∧ copyDefaults (TcmdPtr w) (TdevPtr w) hw = Ret (devPtr T, h1)
    ∧ TcfgPtr w = Some cfg
    ∧ getDeviceNode (devPtr T) (deref (cfg_devID cfg)) = Ret found
    ∧ found ≠ []
    ∧ T = Build_globals (TprotoPtr w) (TuPtr w) (devPtr T)
            (Some (set_cfg_devPtr found cfg)) (TcmdPtr w).
Proof.
  unfold compile. destruct doc as [d|]; [|discriminate].
  destruct (doc_root d) as [root|] eqn:Hroot; [|discriminate].
  destruct (doc_ns d) eqn:Hns; [|discriminate]. simpl.
  destruct (streq (n_name root) "V-Control") eqn:Hname; [|discriminate]. simpl.
  destruct (to_short (doc_xinclude d) <? 0) eqn:Hxi; [discriminate|].
  unfold bind.
  destruct (sections E gas gas (walk0 (n_children root)) h)
    as [[[w|] hw]| |] eqn:Hsec; try discriminate.
  unfold resolveDefaults, bind.
  destruct (copyDefaults (TcmdPtr w) (TdevPtr w) hw) as [[devs h2]| |] eqn:Hcopy;
    try discriminate.
  destruct (TcfgPtr w) as [cfg|] eqn:Hcfg; [|discriminate]. simpl.
  destruct (getDeviceNode devs (deref (cfg_devID cfg))) as [found| |] eqn:Hdev;
    try discriminate.
  simpl. destruct found as [|d0 rest]; [discriminate|].
  intros [= <- <-].
  exists d, root, w, hw, cfg, (d0 :: rest). simpl.
  repeat split; try assumption; try reflexivity.
  - by apply streq_eq.
  - apply Z.ltb_ge in Hxi. lia.
  - discriminate.
Qed.







(** ** Default commands *)

Lemma scan_app_found {A} (stop : A → bool) (l extra : list A) :
  scan stop l ≠ [] → scan stop (l ++ extra) = scan stop l ++ extra.
Proof.
  induction l as [|x rest IH]; simpl; [congruence|].
  destruct (stop x); [reflexivity|exact IH].
Qed.

Lemma scan_app_last {A} (stop : A → bool) (l : list A) (x : A) :
  stop x = true → scan stop (l ++ [x]) ≠ [].
Proof.
  intros Hx. induction l as [|y rest IH]; simpl.
  - rewrite Hx. discriminate.
  - destruct (stop y); [discriminate|exact IH].
Qed.

Lemma copyCommand_absent c d h :
  getCommandNode (d_cmdPtr d) (deref (c_name c)) = [] →
  ∃ n, copyCommand c d h
       = Ret (set_d_cmdPtr (d_cmdPtr d ++ [n]) d,
              Heap (S (brk h)) ({[ brk h ]} ∪ live h))
    ∧ c_self n = brk h ∧ default_copy c n.
Proof.
  intros Hnone. unfold copyCommand. rewrite Hnone.
  unfold newCommandNode, bind, calloc, ret. rewrite anchor_linked.
  eexists. split; [reflexivity|]. split; [reflexivity|].
  repeat split; reflexivity.
Qed.

Lemma copyCommand_present c d h :
  getCommandNode (d_cmdPtr d) (deref (c_name c)) ≠ [] →
  copyCommand c d h = Ret (d, h).
Proof.
  intros Hsome. unfold copyCommand.
  destruct (getCommandNode _ _); [congruence|reflexivity].
Qed.

Lemma extended_refl cmds d : extended cmds d d.
Proof.
  exists []. rewrite app_nil_r. split; [by destruct d|constructor].
Qed.

Lemma extended_trans l1 l2 d1 d2 d3 :
  extended l1 d1 d2 → extended l2 d2 d3 → extended (l1 ++ l2) d1 d3.
Proof.
  intros (a1 & -> & H1) (a2 & -> & H2). exists (a1 ++ a2). simpl.
  split; [by rewrite app_assoc|].
  apply Forall_app. split.
  - eapply Forall_impl; [exact H1|]. simpl. intros n (c & Hc & Hn).
    exists c. split; [|exact Hn]. apply elem_of_app. by left.
  - eapply Forall_impl; [exact H2|]. simpl. intros n (c & Hc & Hn).
    exists c. split; [|exact Hn]. apply elem_of_app. by right.
Qed.

Lemma copyCommand_extended c d h :
  ∃ d' h', copyCommand c d h = Ret (d', h') ∧ extended [c] d d'
    ∧ getCommandNode (d_cmdPtr d') (deref (c_name c)) ≠ [].
Proof.
  destruct (getCommandNode (d_cmdPtr d) (deref (c_name c))) as [|x rest] eqn:Hg.
  - destruct (copyCommand_absent c d h Hg) as (n & Hcopy & _ & Hn).
    eexists _, _. split; [exact Hcopy|]. split.
    + exists [n]. split; [reflexivity|].
      constructor; [|constructor]. exists c. split; [by left|exact Hn].
    + simpl. rewrite getCommandNode_scan. apply scan_app_last.
      destruct Hn as ((Hname & _) & _). unfold command_stops. rewrite Hname.
      destruct (c_name c) as [s|]; simpl; [|reflexivity].
      by apply streq_eq.
  - exists d, h. split; [apply copyCommand_present; congruence|].
    split; [apply extended_refl|]. congruence.
Qed.

Lemma extended_found cmds d d' name :
  extended cmds d d' →
  getCommandNode (d_cmdPtr d) name ≠ [] →
  ∃ added, getCommandNode (d_cmdPtr d') name
           = getCommandNode (d_cmdPtr d) name ++ added.
Proof.
  intros (added & -> & _) Hf. exists added. simpl.
  rewrite !getCommandNode_scan in *. by apply scan_app_found.
Qed.

Lemma copyToDevices_extended c devs :
  ∀ h, ∃ devs' h', copyToDevices c devs h = Ret (devs', h')
    ∧ Forall2 (extended [c]) devs devs'
    ∧ Forall (λ d', getCommandNode (d_cmdPtr d') (deref (c_name c)) ≠ []) devs'.
Proof.
  induction devs as [|d next IH]; intros h; simpl.
  - exists [], h. repeat split; constructor.
  - destruct (copyCommand_extended c d h) as (d' & h1 & Hc & Hext & Hf).
    destruct (IH h1) as (next' & h2 & Hn & Hall & Hfound).
    exists (d' :: next'), h2. unfold bind. rewrite Hc, Hn.
    split; [reflexivity|]. split; by constructor.
Qed.

Lemma copyDefaults_extended cmds :
  ∀ devs h, ∃ devs' h', copyDefaults cmds devs h = Ret (devs', h')
    ∧ Forall2 (extended cmds) devs devs'
    ∧ Forall (λ d', ∀ c, c ∈ cmds →
                getCommandNode (d_cmdPtr d') (deref (c_name c)) ≠ []) devs'.
Proof.
  induction cmds as [|c next IH]; intros devs h; simpl.
  - exists devs, h. split; [reflexivity|]. split.
    + induction devs; constructor; [apply extended_refl|assumption].
    + apply Forall_forall. intros d' _ c Hc. by apply elem_of_nil in Hc.
  - destruct (copyToDevices_extended c devs h) as (devs1 & h1 & Hc & Hext & Hf).
    destruct (IH devs1 h1) as (devs2 & h2 & Hn & Hext2 & Hf2).
    exists devs2, h2. unfold bind. rewrite Hc. split; [exact Hn|]. split.
    + clear -Hext Hext2. revert devs2 Hext2.
      induction Hext as [|d d1 devs devs1 Hd Hrest IHr]; intros devs2 Hext2;
        inversion Hext2; subst; constructor.
      * by apply (extended_trans [c] next d d1).
      * by apply IHr.
    + clear -Hf Hf2 Hext2. revert Hf Hf2.
      induction Hext2 as [|d1 d2 devs1 devs2 Hd Hrest IHr]; intros Hf Hf2;
        [constructor|].
      apply Forall_cons in Hf as [Hf1 Hf]. apply Forall_cons in Hf2 as [Hf21 Hf2].
      constructor; [|by apply IHr].
      intros c' [->|Hc']%elem_of_cons; [|by apply Hf21].
      destruct (extended_found next d1 d2 _ Hd Hf1) as (added & ->).
      destruct (getCommandNode (d_cmdPtr d1) (deref (c_name c)));
        [congruence|discriminate].
Qed.

(** C3, as claimed, fails: the record copied into a device that lacks
    the command does not carry tag 2, the tag of a borrowing record. *)
Lemma copied_default_is_not_tagged_borrowed :
  ¬ (∀ c d h d' h',
       getCommandNode (d_cmdPtr d) (deref (c_name c)) = [] →
       copyCommand c d h = Ret (d', h') →
       ∃ n, d_cmdPtr d' = d_cmdPtr d ++ [n] ∧ borrows n c ∧ c_nodeType n = 2).
Proof.
  intros H.
  destruct (H (Build_Command 0 (Some (CStr 1 "getTempA")) None None None None
                 None None None 0 (-1) 1 [])
              (Build_Device 2 None (Some (CStr 3 "2098")) [] [])
              (Heap 4 {[ 0%nat; 1%nat; 2%nat; 3%nat ]}) _ _
              eq_refl eq_refl) as (n & Hn & _ & Htag).
  simpl in Hn. injection Hn as <-. simpl in Htag. discriminate.
Qed.

(** C3 (amended): the loops over the default commands and the devices
    always end; a device whose chain has no entry for the name of a
    default command (no entry whose name is null or equal to it) gets a
    new record at the end of its chain that holds the very fields of the
    default command and is tagged 0, owning nothing; a device that has
    such an entry is left as it is; a lookup that found an entry before
    finds the same entry afterwards; and after a successful compile every
    device has an entry for every default command. *)
Theorem default_commands_reach_every_device :
  (∀ c d h, getCommandNode (d_cmdPtr d) (deref (c_name c)) = [] →
     ∃ n, copyCommand c d h
          = Ret (set_d_cmdPtr (d_cmdPtr d ++ [n]) d,
                 Heap (S (brk h)) ({[ brk h ]} ∪ live h))
       ∧ c_self n = brk h ∧ default_copy c n)
  ∧ (∀ c d h, getCommandNode (d_cmdPtr d) (deref (c_name c)) ≠ [] →
       copyCommand c d h = Ret (d, h))
  ∧ (∀ cmds devs h,
       ∃ devs' h', copyDefaults cmds devs h = Ret (devs', h')
         ∧ Forall2 (extended cmds) devs devs'
         ∧ Forall2 (λ d d', ∀ name,
                      getCommandNode (d_cmdPtr d) name ≠ [] →
                      head (getCommandNode (d_cmdPtr d') name)
                      = head (getCommandNode (d_cmdPtr d) name)) devs devs')
  ∧ (∀ E gas doc h T h1,
       compile E gas doc h = Ret (Some T, h1) →
       ∀ d c, d ∈ devPtr T → c ∈ cmdPtr T →
              getCommandNode (d_cmdPtr d) (deref (c_name c)) ≠ []).
Proof.
  split; [|split; [|split]].
  - apply copyCommand_absent.
  - apply copyCommand_present.
  - intros cmds devs h.
    destruct (copyDefaults_extended cmds devs h) as (devs' & h' & Hc & Hext & _).
    exists devs', h'. split; [exact Hc|]. split; [exact Hext|].
    eapply Forall2_impl; [exact Hext|]. simpl. intros d d' Hd name Hf.
    destruct (extended_found cmds d d' name Hd Hf) as (added & ->).
    destruct (getCommandNode (d_cmdPtr d) name); [congruence|reflexivity].
  - intros E gas doc h T h1 Hcomp d c Hd Hcin.
    destruct (compile_some_inv E gas doc h T h1 Hcomp)
      as (x & root & w & hw & cfg & found & _ & _ & _ & Hcopy & _ & _ & _ & HT).
    destruct (copyDefaults_extended (TcmdPtr w) (TdevPtr w) hw)
      as (devs' & h' & Hc & _ & Hall).
    rewrite Hcopy in Hc. injection Hc as <- <-.
    rewrite Forall_forall in Hall. apply (Hall d Hd).
    rewrite HT in Hcin. exact Hcin.
Qed.

Lemma default_commands_reach_every_device_witness :
  copyCommand
    (Build_Command 0 (Some (CStr 1 "getTempA")) None None None None None None
       None 0 (-1) 1 [])
    (Build_Device 2 None (Some (CStr 3 "2053")) []
       [Build_Command 4 (Some (CStr 1 "getTempA")) None None None None None
          None None 0 (-1) 2 []])
    (Heap 5 {[ 0%nat; 1%nat; 2%nat; 3%nat; 4%nat ]})
  = Ret (Build_Device 2 None (Some (CStr 3 "2053")) []
           [Build_Command 4 (Some (CStr 1 "getTempA")) None None None None None
              None None 0 (-1) 2 []],
         Heap 5 {[ 0%nat; 1%nat; 2%nat; 3%nat; 4%nat ]}).
Proof.
  apply default_commands_reach_every_device. vm_compute. discriminate.
Defined.

(** ** Device commands *)

Lemma device_grown_refl d : device_grown d d.
Proof. repeat split. exists []. by rewrite app_nil_r. Qed.

Lemma device_grown_trans d1 d2 d3 :
  device_grown d1 d2 → device_grown d2 d3 → device_grown d1 d3.
Proof.
  intros (? & ? & ? & ? & a1 & Ha1) (? & ? & ? & ? & a2 & Ha2).
  repeat split; try congruence.
  exists (a1 ++ a2). rewrite Ha2, Ha1. by rewrite app_assoc.
Qed.

Lemma chain_grown_refl devs : Forall2 device_grown devs devs.
Proof. induction devs; constructor; [apply device_grown_refl|assumption]. Qed.

Lemma chain_grown_trans l1 l2 l3 :
  Forall2 device_grown l1 l2 → Forall2 device_grown l2 l3 →
  Forall2 device_grown l1 l3.
Proof.
  intros H12. revert l3. induction H12; intros l3 H23; inversion H23; subst;
    constructor; [by eapply device_grown_trans|auto].
Qed.

Lemma chain_grown_alter devs i nc :
  Forall2 device_grown devs (alter (attachCommand nc) i devs).
Proof.
  revert i. induction devs as [|d rest IH]; intros i; [constructor|].
  destruct i as [|i]; simpl.
  - constructor; [|apply chain_grown_refl].
    repeat split. exists [nc]. unfold attachCommand, addCommandNode. simpl.
    apply anchor_linked.
  - constructor; [apply device_grown_refl|apply IH].
Qed.

Lemma field_keeps s v h r h' :
  field s v h = Ret (r, h') →
  match r with
  | inl s' => Forall2 device_grown (cl_dePtr s) (cl_dePtr s')
              ∧ (is_Some (cl_arg s) → is_Some (cl_arg s'))
  | inr v => keeps_chain (cl_dePtr s) (cl_arg s) v
  end.
Proof.
  unfold field, bind, lift.
  destruct (v h) as [[f h1]| |]; try discriminate.
  destruct (cmd_upd _ _ _ _) as [[start arg]| |] eqn:Hupd; try discriminate.
  destruct (nextNode _ _); try discriminate.
  intros [= <- <-]. simpl. split; [apply chain_grown_refl|].
  unfold cmd_upd in Hupd.
  destruct (cl_cPtr s); try discriminate.
  - destruct (cl_arg s); [|discriminate]. injection Hupd as <- <-. by eexists.
  - destruct (cl_cStartPtr s); [discriminate|]. by injection Hupd as <- <-.
Qed.

Lemma deviceCommand_keeps rec n id s h r h' :
  (∀ cur nc de h1 v h2, rec cur nc de h1 = Ret (v, h2) →
                        keeps_chain de (Some nc) v) →
  deviceCommand rec n id s h = Ret (r, h') →
  match r with
  | inl s' => Forall2 device_grown (cl_dePtr s) (cl_dePtr s')
              ∧ (is_Some (cl_arg s) → is_Some (cl_arg s'))
  | inr v => keeps_chain (cl_dePtr s) (cl_arg s) v
  end.
Proof.
  intros Hrec. unfold deviceCommand, bind, lift.
  destruct (getDeviceNode _ _) as [[|d rest]| |]; try discriminate.
  - intros [= <- <-]. split; [apply chain_grown_refl|done].
  - destruct (cmd_at _ _ _) as [c| |]; try discriminate.
    destruct (rd (c_description c)); try discriminate.
    destruct (newCommandNode [] h) as [[nc0 h1]| |]; try discriminate.
    destruct (rec _ _ _ h1) as [[[[rv arg'] devs] h2]| |] eqn:Hr;
      try discriminate.
    destruct (rd arg'); try discriminate.
    destruct (inheritCommand _ _ _ h2) as [[nc h3]| |]; try discriminate.
    destruct (nextNode _ _); try discriminate.
    intros [= <- <-]. simpl. split; [|done].
    apply Hrec in Hr as [Hchain _]. simpl in Hchain.
    eapply chain_grown_trans; [exact Hchain|apply chain_grown_alter].
Qed.

Lemma command_step_keeps E rec n next s h r h' :
  (∀ cur nc de h1 v h2, rec cur nc de h1 = Ret (v, h2) →
                        keeps_chain de (Some nc) v) →
  command_step E rec n next s h = Ret (r, h') →
  match r with
  | inl s' => Forall2 device_grown (cl_dePtr s) (cl_dePtr s')
              ∧ (is_Some (cl_arg s) → is_Some (cl_arg s'))
  | inr v => keeps_chain (cl_dePtr s) (cl_arg s) v
  end.
Proof.
  intros Hrec. unfold command_step.
  repeat match goal with
         | |- context [if ?b then _ else _] => destruct b
         end;
    try (apply field_keeps);
    try (intros [= <- <-]; split; [apply chain_grown_refl|done]).
  - destruct (getPropertyNode (n_properties n) "name").
    + destruct (getPropertyNode (n_properties n) "protocmd");
        unfold copy_or_empty, nullIT, bind, newCommandNode, strdup, bind,
          calloc, ret;
        intros [= <- <-]; (split; [apply chain_grown_refl|done]).
    + intros [= <- <-]. split; [apply chain_grown_refl|done].
  - destruct (getPropertyNode (n_properties n) "ID").
    + by apply deviceCommand_keeps.
    + intros [= <- <-]. split; [apply chain_grown_refl|done].
Qed.

Lemma parseCommand_loop_keeps E fuel :
  ∀ s h v h', parseCommand_loop E fuel s h = Ret (v, h') →
              keeps_chain (cl_dePtr s) (cl_arg s) v.
Proof.
  induction fuel as [|fuel IH]; intros s h v h'; simpl;
    destruct (cl_cur s) as [|n next];
    try (intros [= <- <-]; split; [apply chain_grown_refl|done]);
    try discriminate.
  unfold bind.
  destruct (command_step E _ n next s h) as [[[s'|r] h1]| |] eqn:Hstep;
    try discriminate.
  - apply command_step_keeps in Hstep as [Hchain Harg].
    + intros Hloop. apply IH in Hloop as [Hchain' Harg']. split.
      * eapply chain_grown_trans; eassumption.
      * auto.
    + intros cur nc de h2 v' h3 Hr. apply IH in Hr. exact Hr.
  - apply command_step_keeps in Hstep.
    + by intros [= <- <-].
    + intros cur nc de h2 v' h3 Hr. apply IH in Hr. exact Hr.
Qed.

Lemma strdup_fresh s h :
  heap_ok h →
  ∃ p h', strdup s h = Ret (p, h') ∧ grows h h' ∧ fresh_copy s p h h'.
Proof.
  intros Hok. eexists _, _. split; [reflexivity|]. split.
  - eapply (allocates_strdup s h). reflexivity.
  - exists (brk h). split; [reflexivity|]. split.
    + intros Hin. apply Hok in Hin. lia.
    + simpl. set_solver.
Qed.

Lemma fresh_copy_grows s p h1 h2 h3 :
  heap_ok h1 → grows h1 h2 → grows h2 h3 →
  (fresh_copy s p h1 h2 → fresh_copy s p h1 h3)
  ∧ (fresh_copy s p h2 h3 → fresh_copy s p h1 h3).
Proof.
  intros Hok H12 H23. split; intros (a & -> & Hn & Hl); exists a;
    (split; [reflexivity|]); split.
  - exact Hn.
  - by apply (grows_live h2 h3 H23).
  - intros Hin. apply Hn. by apply (grows_live h1 h2 H12).
  - exact Hl.
Qed.

Lemma inheritCommand_spec c protocmd nested h :
  heap_ok h → is_Some (effective_pcmd protocmd c) →
  ∃ n h' text,
    inheritCommand c protocmd nested h = Ret (n, h') ∧ grows h h'
    ∧ c_name n = c_name c ∧ c_description n = c_description c
    ∧ unit_inherited nested c n h h'
    ∧ effective_pcmd protocmd c = Some text ∧ fresh_copy text (c_pcmd n) h h'
    ∧ c_nodeType n = 2
    ∧ c_self n = c_self nested ∧ c_addr n = c_addr nested
    ∧ c_errStr n = c_errStr nested ∧ c_precmd n = c_precmd nested
    ∧ c_len n = c_len nested ∧ c_bit n = c_bit nested.
Proof.
  intros Hok [text Htext].
  unfold inheritCommand, unit_inherited.
  set (n1 := set_c_name (c_name c) (set_c_description (c_description c) nested)).
  assert (c_unit n1 = c_unit nested) as Hu1 by reflexivity.
  rewrite Hu1.
  assert (∃ n2 h2, (match c_unit nested, c_unit c with
                    | None, Some u =>
                        let* v := strdup (val u) in ret (set_c_unit v n1)
                    | _, _ => ret n1
                    end) h = Ret (n2, h2)
            ∧ grows h h2
            ∧ (c_name n2 = c_name c ∧ c_description n2 = c_description c
               ∧ c_self n2 = c_self nested ∧ c_addr n2 = c_addr nested
               ∧ c_errStr n2 = c_errStr nested ∧ c_precmd n2 = c_precmd nested
               ∧ c_len n2 = c_len nested ∧ c_bit n2 = c_bit nested)
            ∧ match c_unit nested, c_unit c with
              | Some u, _ => c_unit n2 = Some u
              | None, Some u => fresh_copy (val u) (c_unit n2) h h2
              | None, None => c_unit n2 = None
              end) as (n2 & h2 & Hn2 & Hg2 & Hfields & Hunit).
  { destruct (c_unit nested) as [u|] eqn:Hun.
    - exists n1, h. split; [reflexivity|]. split; [apply grows_refl|].
      split; [repeat split; reflexivity|exact Hun].
    - destruct (c_unit c) as [u|] eqn:Huc.
      + destruct (strdup_fresh (val u) h Hok) as (p & h2 & Hp & Hg & Hf).
        exists (set_c_unit p n1), h2. unfold bind. rewrite Hp.
        split; [reflexivity|]. split; [exact Hg|].
        split; [repeat split; reflexivity|exact Hf].
      + exists n1, h. split; [reflexivity|]. split; [apply grows_refl|].
        split; [repeat split; reflexivity|exact Hun]. }
  pose proof (grows_heap_ok h h2 Hok Hg2) as Hok2.
  destruct (strdup_fresh text h2 Hok2) as (p & h3 & Hp & Hg3 & Hf3).
  exists (set_c_nodeType 2 (set_c_pcmd p n2)), h3, text.
  split.
  { unfold bind at 1. rewrite Hn2. unfold bind, lift.
    unfold effective_pcmd in Htext. destruct protocmd as [pc|].
    - injection Htext as ->. rewrite Hp. reflexivity.
    - destruct (c_pcmd c) as [pv|]; [|discriminate]. simpl in Htext.
      injection Htext as <-. unfold rd. rewrite Hp. reflexivity. }
  split; [by eapply grows_trans|].
  destruct Hfields as (? & ? & ? & ? & ? & ? & ? & ?).
  repeat split; try assumption; try reflexivity.
  - simpl. destruct (c_unit nested) as [u|]; [exact Hunit|].
    destruct (c_unit c) as [u|]; [|exact Hunit].
    destruct (fresh_copy_grows (val u) (c_unit n2) h h2 h3 Hok Hg2 Hg3)
      as [Hearly _].
    apply Hearly, Hunit.
  - simpl.
    destruct (fresh_copy_grows text p h h2 h3 Hok Hg2 Hg3) as [_ Hlate].
    apply Hlate, Hf3.
Qed.

Lemma getDeviceNode_suffix devs id found :
  getDeviceNode devs id = Ret found → ∃ before, devs = before ++ found.
Proof.
  revert found. induction devs as [|d rest IH]; intros found; simpl.
  - intros [= <-]. by exists [].
  - destruct (d_id d) as [s|], id as [i|]; try discriminate.
    destruct (negb (streq (val s) i)).
    + intros Hf. destruct (IH found Hf) as (before & ->).
      by exists (d :: before).
    + intros [= <-]. by exists [].
Qed.

Lemma position_lookup {A} (before : list A) (x : A) (rest : list A) :
  (before ++ x :: rest) !! position (before ++ x :: rest) (x :: rest) = Some x.
Proof.
  unfold position. rewrite length_app.
  replace (List.length before + List.length (x :: rest)
           - List.length (x :: rest))%nat
    with (List.length before + 0)%nat by lia.
  by rewrite lookup_app_r, Nat.add_0_r, Nat.sub_diag by lia.
Qed.

(** What C4 says holds wherever the loop gets past the element: at a
    [device] element with an [ID] below a command [c] that has a
    description, once the device [d] is found in the chain and the
    children of the element have been read into the record [nested], the
    loop goes on with a device chain in which the record [ncPtr] has been
    appended to the command chain of [d]; [ncPtr] holds the name and the
    description of [c] (the same pointers), its own unit if the children
    gave one and else a copy by value of the unit of [c], a copy by value
    of the [protocmd] attribute or else of the protocol command of [c],
    and tag 2. *)
Theorem device_command_inherits_from_enclosing
    E fuel (s : cmdloop) n next id d rest c desc (h : heap)
    nc0 h1 rv arg dePtr' h2 cur' :
  heap_ok h →
  cl_cur s = n :: next →
  xmlIsBlankNode n = false →
  streq (n_name n) "command" = false →
  cl_commandFound s = true →
  strstr (n_name n) "device" = true →
  getPropertyNode (n_properties n) "ID" = Some id →
  getDeviceNode (cl_dePtr s) (Some id) = Ret (d :: rest) →
  cmd_at (cl_cPtr s) (cl_cStartPtr s) (cl_arg s) = Ret c →
  c_description c = Some desc →
  is_Some (effective_pcmd (getPropertyNode (n_properties n) "protocmd") c) →
  newCommandNode [] h = Ret (nc0, h1) →
  parseCommand_loop E fuel (cmdloop0 (n_children n) (Some nc0) (cl_dePtr s)) h1
  = Ret ((rv, arg, dePtr'), h2) →
  nextNode (n :: next) (cl_prevPtr s) = Ret cur' →
  ∃ nested ncPtr D text h3,
    arg = Some nested
    ∧ dePtr' !! position (cl_dePtr s) (d :: rest) = Some D
    ∧ device_grown d D
    ∧ parseCommand_loop E (S fuel) s h
      = parseCommand_loop E fuel
          (Build_cmdloop cur' (cl_prevPtr s) true (cl_cStartPtr s) (cl_cPtr s)
             (cl_arg s)
             (<[position (cl_dePtr s) (d :: rest)
                := set_d_cmdPtr (d_cmdPtr D ++ [ncPtr]) D]> dePtr')) h3
    ∧ c_name ncPtr = c_name c
    ∧ c_description ncPtr = c_description c
    ∧ unit_inherited nested c ncPtr h2 h3
    ∧ effective_pcmd (getPropertyNode (n_properties n) "protocmd") c = Some text
    ∧ fresh_copy text (c_pcmd ncPtr) h2 h3
    ∧ c_nodeType ncPtr = 2.
Proof.
  intros Hok Hcur Hblank Hcmd Hfound Hdev Hid Hget Hat Hdesc Hpcmd Hnew Hrec Hnext.
  pose proof (parseCommand_loop_keeps E fuel _ _ _ _ Hrec) as [Hchain Harg].
  simpl in Hchain, Harg.
  destruct Harg as [nested ->]; [by eexists|].
  destruct (getDeviceNode_suffix _ _ _ Hget) as (before & Hbefore).
  assert (cl_dePtr s !! position (cl_dePtr s) (d :: rest) = Some d) as Hpos.
  { rewrite Hbefore at 1 2. apply position_lookup. }
  destruct (Forall2_lookup_l _ _ _ _ _ Hchain Hpos) as (D & HD & Hgrown).
  assert (heap_ok h2) as Hok2.
  { eapply grows_heap_ok; [|eapply (allocates_parseCommand_loop E fuel); exact Hrec].
    eapply grows_heap_ok; [exact Hok|].
    eapply (allocates_newCommandNode []); exact Hnew. }
  destruct (inheritCommand_spec c
              (getPropertyNode (n_properties n) "protocmd") nested h2 Hok2 Hpcmd)
    as (ncPtr & h3 & text & Hinh & Hg & Hname & Hdescr & Hunit & Htext & Hcopy
        & Htag & _).
  exists nested, ncPtr, D, text, h3.
  split; [reflexivity|]. split; [exact HD|]. split; [exact Hgrown|].
  split.
  { cbn [parseCommand_loop]. rewrite Hcur. unfold bind at 1. unfold command_step.
    rewrite Hblank, Hcmd, Hfound, Hdev, Hid. cbn [andb].
    unfold deviceCommand, bind, lift.
    rewrite Hget, Hat, Hdesc. unfold rd. rewrite Hnew, Hrec.
    rewrite Hinh, Hcur, Hnext, Hfound. unfold ret.
    f_equal. f_equal.
    apply list_eq. intros i.
    destruct (decide (i = position (cl_dePtr s) (d :: rest))) as [->|Hne].
    - rewrite list_lookup_alter_eq, HD. simpl.
      rewrite list_lookup_insert_eq by (by eapply lookup_lt_Some).
      f_equal. unfold attachCommand, addCommandNode. by rewrite anchor_linked.
    - rewrite list_lookup_alter_ne by done.
      by rewrite list_lookup_insert_ne by done. }
  repeat split; assumption.
Qed.

Lemma device_command_inherits_from_enclosing_witness :
  ∃ ncPtr,
    c_nodeType ncPtr = 2
    ∧ c_name ncPtr = Some (CStr 4 "getTempA")
    ∧ c_description ncPtr = Some (CStr 8 "outside temperature").
Proof.
  destruct (device_command_inherits_from_enclosing host 3 example_loop
              example_element [] "2053" example_device [] example_command
              (CStr 8 "outside temperature") example_heap
              (Build_Command 9 None None None None None None None None 0 (-1) 0 [])
              (Heap 10 (list_to_set (seq 0 10)))
              []
              (Some (Build_Command 9 None None None (Some (CStr 10 "0801")) None
                       None None None 0 (-1) 0 []))
              [example_device]
              (Heap 11 (list_to_set (seq 0 11)))
              [])
    as (nested & ncPtr & D & text & h3 & _ & _ & _ & _ & Hname & Hdesc & _ & _
        & _ & Htag).
  - apply heap_ok_check. vm_compute. reflexivity.
  - reflexivity.
  - reflexivity.
  - reflexivity.
  - reflexivity.
  - reflexivity.
  - reflexivity.
  - reflexivity.
  - reflexivity.
  - reflexivity.
  - eexists. reflexivity.
  - vm_compute. reflexivity.
  - vm_compute. reflexivity.
  - reflexivity.
  - exists ncPtr. split; [exact Htag|]. split; [exact Hname|exact Hdesc].
Defined.

(** C4 (defect of the code): at a [device] element with an [ID] that
    names a device of the chain, below a command whose description has
    not been read yet, [parseCommand] copies the description into its
    scratch buffer ([strncpy(string, cPtr->description, ...)], a copy
    that nothing reads afterwards) and thereby reads through a null
    pointer: no record is made and none is appended to the device. *)
Theorem device_before_description_is_dereferenced
    E fuel (s : cmdloop) id d rest c (h : heap) :
  at_device_element s id →
  getDeviceNode (cl_dePtr s) (Some id) = Ret (d :: rest) →
  cmd_at (cl_cPtr s) (cl_cStartPtr s) (cl_arg s) = Ret c →
  c_description c = None →
  parseCommand_loop E (S fuel) s h = Crash.
Proof.
  intros (n & next & Hcur & Hblank & Hcmd & Hfound & Hdev & Hid) Hget Hat Hdesc.
  cbn [parseCommand_loop]. rewrite Hcur. unfold bind at 1, command_step.
  rewrite Hblank, Hcmd, Hfound, Hdev, Hid. cbn [andb].
  unfold deviceCommand, bind, lift. rewrite Hget, Hat, Hdesc. reflexivity.
Qed.

Lemma device_before_description_is_dereferenced_witness :
  parseCommand_loop host 40 undescribed_loop example_heap = Crash.
Proof.
  eapply (device_before_description_is_dereferenced host 39 undescribed_loop
            "2053").
  - eexists _, _. repeat split; reflexivity.
  - reflexivity.
  - reflexivity.
  - reflexivity.
Defined.

(** The same at the level of the load: the example document with the
    description moved behind the [device] element. *)
Lemma undescribed_document_load :
  parseXMLFile host 40 undescribed_document unloaded empty_heap = Crash.
Proof. vm_compute. reflexivity. Qed.


(** ** The devices section *)

Lemma getProtocolNode_named pPtr proto :
  named_protocols pPtr → ∃ found, getProtocolNode pPtr proto = Ret found.
Proof.
  induction 1 as [|p rest Hp _ IH]; simpl; [by eexists|].
  destruct (p_name p) as [s|]; [|congruence].
  destruct (negb (streq (val s) proto)); [exact IH|by eexists].
Qed.

Lemma buildDevice_without_protocol n pPtr start h :
  getPropertyNode (n_properties n) "protocol" = None →
  buildDevice n pPtr start h = Ret (None, h).
Proof. intros Hp. unfold buildDevice. rewrite Hp. reflexivity. Qed.

Lemma copy_or_empty_val a h :
  ∃ p h', copy_or_empty a h = Ret (p, h') ∧ deref p = Some (or_empty a).
Proof. destruct a; eexists _, _; (split; reflexivity). Qed.

Lemma buildDevice_with_protocol n pPtr start h proto found :
  getPropertyNode (n_properties n) "protocol" = Some proto →
  getProtocolNode pPtr proto = Ret found →
  ∃ h', grows h h'
    ∧ match found with
      | [] => buildDevice n pPtr start h = Ret (None, h')
      | _ :: _ =>
          ∃ d, buildDevice n pPtr start h = Ret (Some d, h')
            ∧ d_protoPtr d = found ∧ d_cmdPtr d = []
            ∧ deref (d_name d)
              = Some (or_empty (getPropertyNode (n_properties n) "name"))
            ∧ deref (d_id d)
              = Some (or_empty (getPropertyNode (n_properties n) "ID"))
      end.
Proof.
  intros Hp Hfound.
  assert (∃ r h', buildDevice n pPtr start h = Ret (r, h')) as (r & h' & Hb).
  { unfold buildDevice, bind, lift. rewrite Hp. simpl.
    destruct (copy_or_empty_val (getPropertyNode (n_properties n) "name")
                (Heap (S (brk h)) ({[brk h]} ∪ live h)))
      as (p1 & h1 & -> & _).
    destruct (copy_or_empty_val (getPropertyNode (n_properties n) "ID") h1)
      as (p2 & h2 & -> & _).
    rewrite Hfound. destruct found; by eexists _, _. }
  exists h'. split; [by apply (allocates_buildDevice n pPtr start h r h')|].
  revert Hb. unfold buildDevice, bind, lift. rewrite Hp. simpl.
  destruct (copy_or_empty_val (getPropertyNode (n_properties n) "name")
              (Heap (S (brk h)) ({[brk h]} ∪ live h)))
    as (p1 & h1 & -> & Hv1).
  destruct (copy_or_empty_val (getPropertyNode (n_properties n) "ID") h1)
    as (p2 & h2 & -> & Hv2).
  rewrite Hfound. destruct found as [|p ps]; intros [= <- <-]; [reflexivity|].
  eexists. split; [reflexivity|]. simpl. by repeat split.
Qed.

Lemma buildDevice_unresolved n pPtr start h :
  named_protocols pPtr → ¬ protocol_resolves pPtr n →
  ∃ h', buildDevice n pPtr start h = Ret (None, h').
Proof.
  intros Hnamed Hno.
  destruct (getPropertyNode (n_properties n) "protocol") as [proto|] eqn:Hp.
  - destruct (getProtocolNode_named pPtr proto Hnamed) as (found & Hf).
    destruct (buildDevice_with_protocol n pPtr start h proto found Hp Hf)
      as (h' & _ & Hb).
    destruct found as [|p ps]; [by exists h'|].
    exfalso. apply Hno. exists proto, (p :: ps). by repeat split.
  - exists h. by apply buildDevice_without_protocol.
Qed.

Lemma parseDevice_loop_unresolved pPtr cur :
  named_protocols pPtr →
  Forall (λ n, is_text_type (n_type n) = true ∨ device_element n) cur →
  Exists (λ n, device_element n ∧ ¬ protocol_resolves pPtr n) cur →
  ∀ fuel prevPtr start h,
    (List.length cur ≤ fuel)%nat →
    ∃ h', parseDevice_loop fuel cur prevPtr pPtr start h = Ret ([], h').
Proof.
  intros Hnamed Hshape. induction Hshape as [|n next Hn Hshape IH];
    intros Hbad fuel prevPtr start h Hfuel; [by apply Exists_nil in Hbad|].
  destruct fuel as [|fuel]; [simpl in Hfuel; lia|]. simpl in Hfuel. simpl.
  destruct Hn as [Htext|[Htext Hdev]].
  - rewrite Htext. apply IH; [|lia].
    apply Exists_cons in Hbad as [[[Hnt _] _]|Hbad]; [congruence|exact Hbad].
  - rewrite Htext, Hdev. unfold bind.
    destruct (getPropertyNode (n_properties n) "protocol") as [proto|] eqn:Hp.
    + destruct (getProtocolNode_named pPtr proto Hnamed) as (found & Hf).
      destruct (buildDevice_with_protocol n pPtr start h proto found Hp Hf)
        as (h1 & _ & Hb).
      destruct found as [|p ps].
      * rewrite Hb. by exists h1.
      * destruct Hb as (d & -> & _). apply IH; [|lia].
        apply Exists_cons in Hbad as [[_ Hno]|Hbad]; [|exact Hbad].
        exfalso. apply Hno. exists proto, (p :: ps). by repeat split.
    + rewrite (buildDevice_without_protocol n pPtr start h Hp). by exists h.
Qed.

(** C9, as claimed, fails: a [device] element without the attributes
    [name] and [ID] whose protocol resolves does not make the build fail. *)
Lemma device_without_name_and_id_is_built :
  ¬ (∀ n pPtr start h,
       device_element n → named_protocols pPtr →
       getPropertyNode (n_properties n) "name" = None
       ∨ getPropertyNode (n_properties n) "ID" = None
       ∨ ¬ protocol_resolves pPtr n →
       ∃ h', buildDevice n pPtr start h = Ret (None, h')).
Proof.
  intros H.
  destruct (H (elem "device" [attr "protocol" "KW2"] []) example_protocols []
              example_heap) as (h' & Hb).
  - split; reflexivity.
  - repeat constructor. discriminate.
  - left. reflexivity.
  - vm_compute in Hb. discriminate.
Qed.

(** C9 (amended): a [device] element must carry a [protocol] attribute
    that names a protocol of the chain built before: without it the build
    of the device fails, a devices section of [device] elements that
    holds such an element makes [parseDevice] return [NULL], and the load
    then returns 0.  The attributes [name] and [ID] may be missing: the
    device is built with the empty string in their place. *)
Theorem device_needs_resolvable_protocol :
  (∀ n pPtr start h,
     named_protocols pPtr → ¬ protocol_resolves pPtr n →
     ∃ h', buildDevice n pPtr start h = Ret (None, h'))
  ∧ (∀ n pPtr start h proto p ps,
       getPropertyNode (n_properties n) "protocol" = Some proto →
       getProtocolNode pPtr proto = Ret (p :: ps) →
       ∃ d h', buildDevice n pPtr start h = Ret (Some d, h')
         ∧ d_protoPtr d = p :: ps
         ∧ deref (d_name d)
           = Some (or_empty (getPropertyNode (n_properties n) "name"))
         ∧ deref (d_id d)
           = Some (or_empty (getPropertyNode (n_properties n) "ID")))
  ∧ (∀ gas cur pPtr h,
       named_protocols pPtr →
       Forall (λ n, is_text_type (n_type n) = true ∨ device_element n) cur →
       Exists (λ n, device_element n ∧ ¬ protocol_resolves pPtr n) cur →
       (List.length cur ≤ gas)%nat →
       ∃ h', parseDevice gas cur pPtr h = Ret ([], h'))
  ∧ (∀ E gas d root k w hw n next g h h',
       vcontrol_document d root →
       walk_after E gas k (walk0 (n_children root)) h = Some (w, hw) →
       (k < gas)%nat →
       w_cur w = n :: next → section_of n = SDevices →
       parseDevice gas (n_children n) (TprotoPtr w) hw = Ret ([], h') →
       parseXMLFile E gas (Some d) g h = Ret ((0, g), h')).
Proof.
  split; [|split; [|split]].
  - apply buildDevice_unresolved.
  - intros n pPtr start h proto p ps Hp Hf.
    destruct (buildDevice_with_protocol n pPtr start h proto (p :: ps) Hp Hf)
      as (h' & _ & d & Hb & Hproto & _ & Hname & Hid).
    by exists d, h'.
  - intros gas cur pPtr h Hnamed Hshape Hbad Hgas.
    by apply parseDevice_loop_unresolved.
  - intros E gas d root k w hw n next g h h' Hdoc Hwalk Hk Hcur Hkind Hnull.
    unfold parseXMLFile, bind.
    rewrite (build_fails_compile E gas (Some d) h h'); [reflexivity|].
    eapply fails_in_stage; [reflexivity|exact Hdoc|exact Hwalk|exact Hk|].
    eapply devices_fail; eassumption.
Qed.

Lemma device_needs_resolvable_protocol_witness :
  ∃ h', parseDevice 2
          [elem "device" [attr "ID" "2098"; attr "name" "V200KW2";
                          attr "protocol" "KW2"] [];
           elem "device" [attr "ID" "2053"; attr "name" "GWG";
                          attr "protocol" "P300"] []]
          example_protocols example_heap
        = Ret ([], h').
Proof.
  apply device_needs_resolvable_protocol.
  - repeat constructor. discriminate.
  - repeat constructor; right; split; reflexivity.
  - apply Exists_cons_tl, Exists_cons_hd. split; [split; reflexivity|].
    intros (proto & found & Hp & Hf & Hne).
    vm_compute in Hp. injection Hp as <-. vm_compute in Hf.
    injection Hf as <-. congruence.
  - simpl. lia.
Defined.

(** ** Unresolved references *)

Lemma parseCommand_loop_cmd_after E k :
  ∀ fuel s h s' h',
    cmd_after E fuel k s h = Some (s', h') →
    ∃ f', fuel = (k + f')%nat
      ∧ parseCommand_loop E fuel s h = parseCommand_loop E f' s' h'.
Proof.
  induction k as [|k IH]; intros fuel s h s' h'; cbn [cmd_after].
  - intros [= -> ->]. by exists fuel.
  - destruct fuel as [|f]; [discriminate|].
    destruct (cl_cur s) as [|n next] eqn:Hcur; [discriminate|].
    destruct (command_step E _ n next s h) as [[[s1|r] h1]| |] eqn:Hstep;
      try discriminate.
    intros Hafter. destruct (IH f s1 h1 s' h' Hafter) as (f' & -> & Heq).
    exists f'. split; [reflexivity|].
    cbn [parseCommand_loop]. rewrite Hcur. unfold bind. rewrite Hstep.
    exact Heq.
Qed.

Lemma parseCommand_loop_unknown_device E fuel s h id :
  at_device_element s id →
  getDeviceNode (cl_dePtr s) (Some id) = Ret [] →
  parseCommand_loop E (S fuel) s h = Ret (leave [] s, h).
Proof.
  intros (n & next & Hcur & Hblank & Hcmd & Hfound & Hdev & Hid) Hget.
  cbn [parseCommand_loop]. rewrite Hcur. unfold bind at 1, command_step.
  rewrite Hblank, Hcmd, Hfound, Hdev, Hid. cbn [andb].
  unfold deviceCommand, bind, lift. rewrite Hget. reflexivity.
Qed.

Lemma getDeviceNode_found devs id d rest :
  getDeviceNode devs id = Ret (d :: rest) →
  ∃ i, id = Some i ∧ deref (d_id d) = Some i.
Proof.
  induction devs as [|x next IH]; simpl; [discriminate|].
  destruct (d_id x) as [s|] eqn:Hx, id as [i|]; try discriminate.
  destruct (negb (streq (val s) i)) eqn:Hs; [exact IH|].
  intros [= -> ->]. exists i. split; [reflexivity|].
  rewrite Hx. simpl. f_equal. apply streq_eq.
  by destruct (streq (val s) i).
Qed.

Lemma parseXMLFile_loaded E gas doc g h T h' :
  parseXMLFile E gas doc g h = Ret ((1, T), h') →
  ∃ h1, compile E gas doc h = Ret (Some T, h1).
Proof.
  unfold parseXMLFile, bind.
  destruct (compile E gas doc h) as [[[T'|] h1]| |]; try discriminate.
  destruct (freeAllLists g h1) as [[g' h2]| |]; try discriminate.
  intros [= <- <-]. by exists h1.
Qed.

Lemma unknown_unit_load_run :
  parseXMLFile host 40 unknown_unit_document unloaded empty_heap
  = Ret ((1, unknown_unit_model), Heap 47 (list_to_set (seq 0 47))).
Proof. vm_compute. reflexivity. Qed.

(** C8, as claimed, fails: a load succeeds although the unit of a
    command names no unit of the unit chain. *)
Lemma load_succeeds_with_unknown_unit :
  ¬ (∀ E gas doc g h T h',
       parseXMLFile E gas doc g h = Ret ((1, T), h') →
       ∀ c u, c ∈ cmdPtr T → c_unit c = Some u →
              getUnitNode (uPtr T) (val u) ≠ []).
Proof.
  intros H.
  pose proof (H host 40%nat unknown_unit_document unloaded empty_heap _ _
                unknown_unit_load_run) as Hunits.
  eapply Hunits.
  - apply list_elem_of_here.
  - reflexivity.
  - vm_compute. reflexivity.
Qed.

(** C8 (amended): a [device] element below a command whose [ID] names no
    device of the chain makes [parseCommand] return [NULL] at once, and
    when that happens in the call for the commands section the load
    returns 0; a configuration whose default device is not in the device
    chain makes the load return 0; in a model that was loaded the default
    device of the configuration is a device of the chain with that id.
    The unit named by a command is not looked up during the load. *)
Theorem unresolved_device_reference_aborts :
  (∀ E fuel k s h s' h' id,
     cmd_after E fuel k s h = Some (s', h') → (k < fuel)%nat →
     at_device_element s' id →
     getDeviceNode (cl_dePtr s') (Some id) = Ret [] →
     parseCommand_loop E fuel s h = Ret (leave [] s', h'))
  ∧ (∀ E gas d root k w hw n next kc s' id g h h',
       vcontrol_document d root →
       walk_after E gas k (walk0 (n_children root)) h = Some (w, hw) →
       (k < gas)%nat →
       w_cur w = n :: next → section_of n = SCommands →
       cmd_after E gas kc (cmdloop0 (n_children n) None (TdevPtr w)) hw
       = Some (s', h') →
       (kc < gas)%nat →
       at_device_element s' id →
       getDeviceNode (cl_dePtr s') (Some id) = Ret [] →
       parseXMLFile E gas (Some d) g h = Ret ((0, g), h'))
  ∧ (∀ E gas d root w hw devs cfg g h h',
       vcontrol_document d root →
       sections E gas gas (walk0 (n_children root)) h = Ret (Some w, hw) →
       copyDefaults (TcmdPtr w) (TdevPtr w) hw = Ret (devs, h') →
       TcfgPtr w = Some cfg →
       getDeviceNode devs (deref (cfg_devID cfg)) = Ret [] →
       parseXMLFile E gas (Some d) g h = Ret ((0, g), h'))
  ∧ (∀ E gas doc g h T h',
       parseXMLFile E gas doc g h = Ret ((1, T), h') →
       ∃ cfg dev rest before id,
         cfgPtr T = Some cfg ∧ cfg_devPtr cfg = dev :: rest
         ∧ devPtr T = before ++ dev :: rest
         ∧ deref (cfg_devID cfg) = Some id ∧ deref (d_id dev) = Some id).
Proof.
  assert (∀ E fuel k s h s' h' id,
            cmd_after E fuel k s h = Some (s', h') → (k < fuel)%nat →
            at_device_element s' id →
            getDeviceNode (cl_dePtr s') (Some id) = Ret [] →
            parseCommand_loop E fuel s h = Ret (leave [] s', h')) as Hloop.
  { intros E fuel k s h s' h' id Hafter Hk Hat Hget.
    destruct (parseCommand_loop_cmd_after E k fuel s h s' h' Hafter)
      as (f' & -> & ->).
    destruct f' as [|f']; [lia|].
    by apply (parseCommand_loop_unknown_device E f' s' h' id). }
  split; [exact Hloop|]. split; [|split].
  - intros E gas d root k w hw n next kc s' id g h h'
      Hdoc Hwalk Hk Hcur Hkind Hafter Hkc Hat Hget.
    unfold parseXMLFile, bind.
    rewrite (build_fails_compile E gas (Some d) h h'); [reflexivity|].
    eapply fails_in_stage; [reflexivity|exact Hdoc|exact Hwalk|exact Hk|].
    eapply commands_fail; [exact Hcur|exact Hkind|].
    unfold parseCommand.
    rewrite (Hloop E gas kc _ hw s' h' id Hafter Hkc Hat Hget). reflexivity.
  - intros E gas d root w hw devs cfg g h h' Hdoc Hsec Hcopy Hcfg Hget.
    unfold parseXMLFile, bind.
    rewrite (build_fails_compile E gas (Some d) h h'); [reflexivity|].
    eapply fails_default_device; [reflexivity|eassumption..].
  - intros E gas doc g h T h' Hrun.
    destruct (parseXMLFile_loaded E gas doc g h T h' Hrun) as (h1 & Hc).
    destruct (compile_some_inv E gas doc h T h1 Hc)
      as (d & root & w & hw & cfg & found & _ & _ & _ & _ & _ & Hget & Hne & HT).
    destruct found as [|dev rest]; [congruence|].
    destruct (getDeviceNode_suffix _ _ _ Hget) as (before & Hbefore).
    destruct (getDeviceNode_found _ _ _ _ Hget) as (id & Hid & Hdev).
    exists (set_cfg_devPtr (dev :: rest) cfg), dev, rest, before, id.
    rewrite HT at 1. simpl. by repeat split.
Qed.

Lemma unresolved_device_reference_aborts_witness :
  ∃ h', parseXMLFile host 40 unknown_device_document unloaded empty_heap
        = Ret ((0, unloaded), h').
Proof.
  eexists.
  eapply (proj1 (proj2 unresolved_device_reference_aborts) host 40%nat _ _ 6%nat
            _ _ _ _ 5%nat _ "20CB").
  - split; [reflexivity|split; [reflexivity|split; [reflexivity|]]].
    vm_compute. discriminate.
  - vm_compute. reflexivity.
  - lia.
  - reflexivity.
  - reflexivity.
  - vm_compute. reflexivity.
  - lia.
  - eexists _, _. repeat split; reflexivity.
  - vm_compute. reflexivity.
Defined.

(** * Further properties of the loader *)

(** ** Release *)




(** X2: every block that the lists of a compiled candidate own was
    handed out during this compile and is owned once: the candidate
    shares no block with what was allocated before, and all its blocks
    are live when the compile returns. *)
Theorem candidate_owns_fresh_blocks E gas doc (h : heap) (T : globals) h1 :
  compile E gas doc h = Ret (Some T, h1) →
  NoDup (generation_blocks T)
  ∧ ∀ b, b ∈ generation_blocks T →
         (brk h ≤ b < brk h1)%nat ∧ b ∈ live h1 ∧ (heap_ok h → b ∉ live h).
Proof.
  intros Hc.
  pose proof (compile_owned E gas doc h T h1 Hc) as Hown.
  pose proof (allocates_compile E gas doc h (Some T) h1 Hc) as [Hb Hl].
  split; [eapply submseteq_NoDup; [exact Hown|apply NoDup_seq]|].
  intros b Hin.
  pose proof (elem_of_submseteq _ _ _ Hin Hown) as Hnew.
  apply elem_of_allocated in Hnew. split; [exact Hnew|]. split.
  - apply Hl. by right.
  - intros Hok Hold. apply Hok in Hold. lia.
Qed.

Lemma candidate_owns_fresh_blocks_witness :
  ∃ T h1, compile host 40 good_document loaded_heap = Ret (Some T, h1)
          ∧ NoDup (generation_blocks T).
Proof.
  assert (∃ T h1, compile host 40 good_document loaded_heap
                  = Ret (Some T, h1)) as (T & h1 & Hc).
  { eexists _, _. vm_compute. reflexivity. }
  exists T, h1. split; [exact Hc|].
  apply (candidate_owns_fresh_blocks host 40 good_document loaded_heap T h1 Hc).
Defined.

(** ** Documents that are not vcontrol documents *)



(** ** Attributes *)

Lemma prefix_append (needle post : string) :
  String.prefix needle (String.append needle post) = true.
Proof.
  induction needle as [|a needle IH]; simpl; [by destruct post|].
  destruct (ascii_dec a a); [exact IH|congruence].
Qed.

Lemma prefix_inv (needle hay : string) :
  String.prefix needle hay = true → ∃ post, hay = String.append needle post.
Proof.
  revert hay. induction needle as [|a needle IH]; intros hay.
  - intros _. by exists hay.
  - destruct hay as [|b hay]; simpl; [discriminate|].
    destruct (ascii_dec a b) as [->|]; [|discriminate].
    intros [post ->]%IH. by exists post.
Qed.

Lemma strstr_prefix (hay needle : string) :
  String.prefix needle hay = true → strstr hay needle = true.
Proof. intros Hp. destruct hay; cbn [strstr]; by rewrite Hp. Qed.

Lemma strstr_contains (hay needle : string) :
  strstr hay needle = true
  ↔ ∃ pre post, hay = String.append pre (String.append needle post).
Proof.
  split.
  - induction hay as [|c hay IH]; cbn [strstr].
    + rewrite orb_false_r. intros Hp.
      destruct (prefix_inv _ _ Hp) as [post Hpost]. by exists "", post.
    + intros [Hp|Hin]%orb_true_iff.
      * destruct (prefix_inv _ _ Hp) as [post Hpost]. by exists "", post.
      * destruct (IH Hin) as (pre & post & ->). by exists (String c pre), post.
  - intros (pre & post & ->). induction pre as [|c pre IH].
    + change (String.append "" (String.append needle post))
        with (String.append needle post).
      apply strstr_prefix, prefix_append.
    + change (String.append (String c pre) (String.append needle post))
        with (String c (String.append pre (String.append needle post))).
      cbn [strstr]. rewrite IH. apply orb_true_r.
Qed.

(** X4: [getPropertyNode] returns the text of the first attribute whose
    name contains the searched name, wherever in the name: the attributes
    before it are those that do not contain it, the attributes after it
    are not looked at, and without such an attribute the result is
    [NULL]. *)
Theorem getPropertyNode_first_containing (name : string) :
  (∀ before a after,
     Forall (λ b, attribute_named name b = false) before →
     attribute_named name a = true →
     getPropertyNode (before ++ a :: after) name = getTextNode a)
  ∧ (∀ cur, Forall (λ b, attribute_named name b = false) cur →
       getPropertyNode cur name = None)
  ∧ (∀ a, attribute_named name a = true
          ↔ n_type a = XML_ATTRIBUTE_NODE
            ∧ ∃ pre post,
                n_name a = String.append pre (String.append name post)).
Proof.
  split; [|split].
  - intros before a after Hb Ha.
    induction Hb as [|b before Hb _ IH]; simpl.
    + unfold attribute_named in Ha. by rewrite Ha.
    + unfold attribute_named in Hb. by rewrite Hb.
  - intros cur Hb. induction Hb as [|b cur Hb _ IH]; simpl; [reflexivity|].
    unfold attribute_named in Hb. by rewrite Hb.
  - intros a. unfold attribute_named. rewrite andb_true_iff, strstr_contains.
    split; intros [Ht Hn]; (split; [|exact Hn]).
    + by destruct (n_type a).
    + by rewrite Ht.
Qed.

Lemma getPropertyNode_first_containing_witness :
  getPropertyNode [attr "protocolID" "7"; attr "ID" "2098"] "ID" = Some "7".
Proof.
  apply (proj1 (getPropertyNode_first_containing "ID") []
           (attr "protocolID" "7") [attr "ID" "2098"]).
  - constructor.
  - reflexivity.
Defined.

(** ** Prefix masks *)

Lemma allow_mask_full (k : nat) :
  Nat.iter (31 + k) (λ mask, Z.lor (Z.shiftr mask 1) 0x80000000) 0x80000000
  = 0xFFFFFFFF.
Proof.
  induction k as [|k IH]; [vm_compute; reflexivity|].
  replace (31 + S k)%nat with (S (31 + k)) by lia.
  rewrite Nat.iter_succ, IH. reflexivity.
Qed.

(** X5: whatever prefix length an [allow] rule states, the mask that
    [parseConfig] assembles is a prefix mask of 0 to 32 bits: no bit for
    length 0, all 32 bits for a length above 32, one bit for a negative
    length; and a rule with the empty mask lets every address pass. *)
Theorem allow_mask_is_prefix_mask :
  (∀ size, allow_mask size = 2 ^ 32 - 2 ^ (32 - prefix_length size))
  ∧ (∀ size, 0 ≤ prefix_length size ≤ 32)
  ∧ (∀ E a rest testIP,
       a_mask a = allow_mask 0 → getAllowNode E (a :: rest) testIP = a :: rest).
Proof.
  split; [|split].
  - intros size. unfold prefix_length.
    destruct (size =? 0) eqn:H0.
    { apply Z.eqb_eq in H0 as ->. reflexivity. }
    apply Z.eqb_neq in H0.
    destruct (size <? 0) eqn:Hneg.
    { apply Z.ltb_lt in Hneg. unfold allow_mask.
      assert ((size =? 0) = false) as -> by (apply Z.eqb_neq; lia).
      replace (Z.to_nat (size - 1)) with 0%nat by lia. reflexivity. }
    apply Z.ltb_ge in Hneg.
    destruct (Z.le_gt_cases size 32) as [Hle|Hgt].
    + rewrite Z.min_l by lia. apply allow_mask_prefix. lia.
    + rewrite Z.min_r by lia. unfold allow_mask.
      assert ((size =? 0) = false) as -> by (apply Z.eqb_neq; lia).
      replace (Z.to_nat (size - 1)) with (31 + Z.to_nat (size - 32))%nat by lia.
      rewrite allow_mask_full. reflexivity.
  - intros size. unfold prefix_length.
    destruct (size =? 0); [lia|]. destruct (size <? 0) eqn:Hneg; [lia|].
    apply Z.ltb_ge in Hneg. lia.
  - intros E a rest testIP Hmask. simpl. rewrite Hmask.
    change (allow_mask 0) with 0. by rewrite !Z.land_0_r.
Qed.

Lemma allow_mask_is_prefix_mask_witness :
  getAllowNode host [Build_Allow 0 None 0 0] (inet_addr host "10.0.0.5")
  = [Build_Allow 0 None 0 0].
Proof.
  apply (proj2 (proj2 allow_mask_is_prefix_mask)). reflexivity.
Defined.

(** ** Device and protocol lookups *)

Lemma getDeviceNode_first devs id :
  Forall (λ d, is_Some (d_id d)) devs →
  ∃ found, getDeviceNode devs (Some id) = Ret found
    ∧ first_where (has_id id) devs found.
Proof.
  induction 1 as [|d next [s Hs] _ (found & Hget & before & Heq & Hb & Hh)];
    simpl.
  - exists []. split; [reflexivity|]. by exists [].
  - rewrite Hs. destruct (streq (val s) id) eqn:Hsid; simpl.
    + exists (d :: next). split; [reflexivity|]. exists []. simpl.
      repeat split; [constructor|]. unfold has_id. rewrite Hs. simpl.
      f_equal. by apply streq_eq.
    + exists found. split; [exact Hget|]. exists (d :: before). simpl.
      rewrite Heq. repeat split; [|exact Hh]. constructor; [|exact Hb].
      unfold has_id. rewrite Hs. simpl. intros [= Hv].
      apply streq_eq in Hv. congruence.
Qed.

Lemma getProtocolNode_first pPtr name :
  Forall (λ p, is_Some (p_name p)) pPtr →
  ∃ found, getProtocolNode pPtr name = Ret found
    ∧ first_where (has_name name) pPtr found.
Proof.
  induction 1 as [|p next [s Hs] _ (found & Hget & before & Heq & Hb & Hh)];
    simpl.
  - exists []. split; [reflexivity|]. by exists [].
  - rewrite Hs. destruct (streq (val s) name) eqn:Hsn; simpl.
    + exists (p :: next). split; [reflexivity|]. exists []. simpl.
      repeat split; [constructor|]. unfold has_name. rewrite Hs. simpl.
      f_equal. by apply streq_eq.
    + exists found. split; [exact Hget|]. exists (p :: before). simpl.
      rewrite Heq. repeat split; [|exact Hh]. constructor; [|exact Hb].
      unfold has_name. rewrite Hs. simpl. intros [= Hv].
      apply streq_eq in Hv. congruence.
Qed.

(** X6: on a chain in which every device has an ID, [getDeviceNode]
    returns the chain from the first device with the searched ID, or
    [NULL]; it compares through null pointers otherwise: a device without
    ID that the scan reaches, or a null searched ID on a chain that is
    not empty, is undefined behaviour.  [getProtocolNode] does the same
    with protocol names. *)
Theorem device_and_protocol_lookup_first_match :
  (∀ devs id, Forall (λ d, is_Some (d_id d)) devs →
     ∃ found, getDeviceNode devs (Some id) = Ret found
       ∧ first_where (has_id id) devs found)
  ∧ (∀ d next, getDeviceNode (d :: next) None = Crash)
  ∧ (∀ d next id, d_id d = None → getDeviceNode (d :: next) id = Crash)
  ∧ (∀ pPtr name, Forall (λ p, is_Some (p_name p)) pPtr →
       ∃ found, getProtocolNode pPtr name = Ret found
         ∧ first_where (has_name name) pPtr found)
  ∧ (∀ p next name, p_name p = None →
       getProtocolNode (p :: next) name = Crash).
Proof.
  split; [|split; [|split; [|split]]].
  - apply getDeviceNode_first.
  - intros d next. simpl. by destruct (d_id d).
  - intros d next id Hd. simpl. by rewrite Hd.
  - apply getProtocolNode_first.
  - intros p next name Hp. simpl. by rewrite Hp.
Qed.

Lemma device_and_protocol_lookup_first_match_witness :
  ∃ found, getDeviceNode (devPtr loaded) (Some "2053") = Ret found
    ∧ first_where (has_id "2053") (devPtr loaded) found.
Proof.
  apply (proj1 device_and_protocol_lookup_first_match).
  vm_compute. repeat constructor; by eexists.
Defined.

(** ** Elements without their key *)

(** X7: a [unit] element without a [name] attribute, a [macro] element
    without a [name] attribute and a protocol [command] element without a
    [name] attribute leave the cursor where it is: the loop of the
    builder never ends, whatever its budget. *)
Theorem entity_without_name_never_returns :
  (∀ E fuel n next prevPtr unitFound uStartPtr h,
     is_text_type (n_type n) = false →
     strstr (n_name n) "unit" = true →
     getPropertyNode (n_properties n) "name" = None →
     parseUnit_loop E fuel (n :: next) prevPtr unitFound uStartPtr h = Timeout)
  ∧ (∀ fuel n next prevPtr macroFound mStartPtr h,
       is_text_type (n_type n) = false →
       strstr (n_name n) "macro" = true →
       getPropertyNode (n_properties n) "name" = None →
       parseMacro_loop fuel (n :: next) prevPtr macroFound mStartPtr h
       = Timeout)
  ∧ (∀ E fuel n next prevPtr commandFound icStartPtr h,
       xmlIsBlankNode n = false →
       strstr (n_name n) "command" = true →
       getPropertyNode (n_properties n) "name" = None →
       parseICmd_loop E fuel (n :: next) prevPtr commandFound icStartPtr h
       = Timeout).
Proof.
  split; [|split].
  - intros E fuel n next prevPtr unitFound uStartPtr h Htext Hname Hkey.
    induction fuel as [|fuel IH]; simpl; [reflexivity|].
    by rewrite Htext, Hname, Hkey.
  - intros fuel n next prevPtr macroFound mStartPtr h Htext Hname Hkey.
    induction fuel as [|fuel IH]; simpl; [reflexivity|].
    by rewrite Htext, Hname, Hkey.
  - intros E fuel n next prevPtr commandFound icStartPtr h Hblank Hname Hkey.
    induction fuel as [|fuel IH]; simpl; [reflexivity|].
    by rewrite Hblank, Hname, Hkey.
Qed.

Lemma entity_without_name_never_returns_witness :
  parseUnit host 40 [elem "unit" [] [leaf "abbrev" "UT"]] empty_heap = Timeout.
Proof.
  apply (proj1 entity_without_name_never_returns host 40%nat); reflexivity.
Defined.

(** X8: in [parseCommand] a [command] element without a [name]
    attribute, and below a command a [device] element without an [ID]
    attribute, leave the cursor where it is: the loop never ends. *)
Theorem command_without_key_never_returns :
  (∀ E fuel s n next h,
     cl_cur s = n :: next →
     xmlIsBlankNode n = false →
     streq (n_name n) "command" = true →
     getPropertyNode (n_properties n) "name" = None →
     parseCommand_loop E fuel s h = Timeout)
  ∧ (∀ E fuel s n next h,
       cl_cur s = n :: next →
       xmlIsBlankNode n = false →
       streq (n_name n) "command" = false →
       cl_commandFound s = true →
       strstr (n_name n) "device" = true →
       getPropertyNode (n_properties n) "ID" = None →
       parseCommand_loop E fuel s h = Timeout).
Proof.
  split.
  - intros E fuel s n next h Hcur Hblank Hname Hkey.
    induction fuel as [|fuel IH]; cbn [parseCommand_loop]; rewrite Hcur;
      [reflexivity|].
    unfold bind at 1, command_step. rewrite Hblank, Hname, Hkey.
    unfold ret. exact IH.
  - intros E fuel s n next h Hcur Hblank Hname Hfound Hdev Hkey.
    induction fuel as [|fuel IH]; cbn [parseCommand_loop]; rewrite Hcur;
      [reflexivity|].
    unfold bind at 1, command_step. rewrite Hblank, Hname, Hfound, Hdev, Hkey.
    cbn [andb]. unfold ret. exact IH.
Qed.

Lemma command_without_key_never_returns_witness :
  parseCommand host 40 [elem "command" [attr "protocmd" "getaddr"] []]
    None [] empty_heap
  = Timeout.
Proof.
  apply (proj1 command_without_key_never_returns host 40%nat _
           (elem "command" [attr "protocmd" "getaddr"] []) []);
    reflexivity.
Defined.

(** ** Elements the builders do not know *)

(** X9: in the units section, in a macros block, among the commands of a
    protocol and in the commands section an element that is neither the
    entity nor one of its fields, or a field before the first entity,
    ends the builder with [NULL] at once; what it had built stays
    allocated. *)
Theorem unknown_element_ends_the_builder :
  (∀ E fuel n next prevPtr unitFound uStartPtr h,
     is_text_type (n_type n) = false →
     strstr (n_name n) "unit" = false →
     unitFound && unit_field n = false →
     parseUnit_loop E (S fuel) (n :: next) prevPtr unitFound uStartPtr h
     = Ret ([], h))
  ∧ (∀ fuel n next prevPtr macroFound mStartPtr h,
       is_text_type (n_type n) = false →
       strstr (n_name n) "macro" = false →
       macroFound && strstr (n_name n) "command" = false →
       parseMacro_loop (S fuel) (n :: next) prevPtr macroFound mStartPtr h
       = Ret ([], h))
  ∧ (∀ E fuel n next prevPtr commandFound icStartPtr h,
       xmlIsBlankNode n = false →
       strstr (n_name n) "command" = false →
       commandFound && icmd_field n = false →
       parseICmd_loop E (S fuel) (n :: next) prevPtr commandFound icStartPtr h
       = Ret ([], h))
  ∧ (∀ E fuel s n next h,
       cl_cur s = n :: next →
       xmlIsBlankNode n = false →
       streq (n_name n) "command" = false →
       cl_commandFound s && command_field n = false →
       parseCommand_loop E (S fuel) s h = Ret (leave [] s, h)).
Proof.
  split; [|split; [|split]].
  - intros E fuel n next prevPtr unitFound uStartPtr h Htext Hname Hfield.
    simpl. rewrite Htext, Hname.
    destruct unitFound; [|reflexivity]. unfold unit_field in Hfield.
    simpl in Hfield. repeat apply orb_false_iff in Hfield as [Hfield ?].
    by repeat match goal with H : _ = false |- _ => rewrite H; clear H end.
  - intros fuel n next prevPtr macroFound mStartPtr h Htext Hname Hfield.
    simpl. by rewrite Htext, Hname, Hfield.
  - intros E fuel n next prevPtr commandFound icStartPtr h Hblank Hname Hfield.
    simpl. rewrite Hblank, Hname.
    destruct commandFound; [|reflexivity]. unfold icmd_field in Hfield.
    simpl in Hfield. repeat apply orb_false_iff in Hfield as [Hfield ?].
    by repeat match goal with H : _ = false |- _ => rewrite H; clear H end.
  - intros E fuel s n next h Hcur Hblank Hname Hfield.
    cbn [parseCommand_loop]. rewrite Hcur. unfold bind at 1, command_step.
    rewrite Hblank, Hname.
    destruct (cl_commandFound s); [|reflexivity]. unfold command_field in Hfield.
    simpl in Hfield. repeat apply orb_false_iff in Hfield as [Hfield ?].
    by repeat match goal with H : _ = false |- _ => rewrite H; clear H end.
Qed.

Lemma unknown_element_ends_the_builder_witness :
  parseUnit host 40 [leaf "abbrev" "UT"] empty_heap = Ret ([], empty_heap).
Proof.
  apply (proj1 unknown_element_ends_the_builder host 39%nat); reflexivity.
Defined.

(** ** Sections *)

Lemma sections_step_none E gas fuel k w0 h0 w h n next h' :
  walk_after E gas k w0 h0 = Some (w, h) →
  (k < fuel)%nat →
  w_cur w = n :: next →
  section_step E gas n next w h = Ret (None, h') →
  sections E gas fuel w0 h0 = Ret (None, h').
Proof.
  intros Hwalk Hk Hcur Hstep.
  replace fuel with (k + S (fuel - S k))%nat by lia.
  rewrite (sections_walk_after E gas k w0 h0 w h _ Hwalk).
  cbn [sections]. rewrite Hcur. unfold bind. by rewrite Hstep.
Qed.

(** X10: a second [unix] element and a second protocols section are
    errors: when the walk over the sections comes to one, [parseXMLFile]
    returns 0 and keeps the globals, with the candidate built so far
    left allocated. *)
Theorem repeated_section_aborts E gas d root k w hw (g : globals) (h : heap) :
  vcontrol_document d root →
  walk_after E gas k (walk0 (n_children root)) h = Some (w, hw) →
  (k < gas)%nat →
  repeated_section w →
  parseXMLFile E gas (Some d) g h = Ret ((0, g), hw).
Proof.
  intros Hdoc Hwalk Hk (n & next & Hcur & Hrep).
  unfold parseXMLFile, bind.
  rewrite (compile_vcontrol_document E gas d root h Hdoc). unfold bind.
  rewrite (sections_step_none E gas gas k _ h w hw n next hw Hwalk Hk Hcur);
    [reflexivity|].
  unfold section_step.
  destruct Hrep as [[Hkind Hfound]|[Hkind Hfound]];
    unfold section_of in Hkind; split_tests Hkind;
    repeat match goal with H : _ = false |- _ => rewrite H end;
    repeat match goal with H : _ = true |- _ => rewrite H end;
    reflexivity.
Qed.

Lemma repeated_section_aborts_witness :
  ∃ h', parseXMLFile host 40
          (bare_document [protocols_section; protocols_section])
          unloaded empty_heap
        = Ret ((0, unloaded), h').
Proof.
  eexists.
  eapply (repeated_section_aborts host 40 _ _ 1%nat).
  - split; [reflexivity|split; [reflexivity|split; [reflexivity|]]].
    vm_compute. discriminate.
  - vm_compute. reflexivity.
  - lia.
  - eexists _, _. split; [reflexivity|]. right. split; reflexivity.
Defined.



(** X12: the search for the default device reads the configuration
    without testing it: when the walk ends without a configuration, and
    when the configuration names no default device while there are
    devices, [parseXMLFile] compares through a null pointer instead of
    returning 0; with no default device and no devices it returns 0. *)
Theorem default_device_is_read_unchecked
    E gas d root w hw (g : globals) (h : heap) :
  vcontrol_document d root →
  sections E gas gas (walk0 (n_children root)) h = Ret (Some w, hw) →
  (TcfgPtr w = None → parseXMLFile E gas (Some d) g h = Crash)
  ∧ (∀ cfg, TcfgPtr w = Some cfg → cfg_devID cfg = None →
       (TdevPtr w ≠ [] → parseXMLFile E gas (Some d) g h = Crash)
       ∧ (TdevPtr w = [] →
            ∃ h', parseXMLFile E gas (Some d) g h = Ret ((0, g), h'))).
Proof.
  intros Hdoc Hsec.
  destruct (copyDefaults_extended (TcmdPtr w) (TdevPtr w) hw)
    as (devs & h1 & Hcopy & Hext & _).
  assert (parseXMLFile E gas (Some d) g h
          = match resolveDefaults w hw with
            | Ret (Some T, h2) =>
                (let* _ := freeAllLists g in ret (1, T)) h2
            | Ret (None, h2) => Ret ((0, g), h2)
            | Crash => Crash
            | Timeout => Timeout
            end) as ->.
  { unfold parseXMLFile, bind at 1.
    rewrite (compile_vcontrol_document E gas d root h Hdoc).
    unfold bind at 1. rewrite Hsec.
    by destruct (resolveDefaults w hw) as [[[T|] h2]| |]. }
  unfold resolveDefaults, bind. rewrite Hcopy. split.
  - intros ->. reflexivity.
  - intros cfg -> Hid. simpl. rewrite Hid. simpl. split.
    + intros Hdevs. destruct Hext as [|x y xs ys _ _]; [congruence|].
      simpl. by destruct (d_id y).
    + intros Hdevs. rewrite Hdevs in Hext. inversion Hext. subst.
      simpl. by exists h1.
Qed.

Lemma default_device_is_read_unchecked_witness :
  parseXMLFile host 40 (bare_document [protocols_section]) unloaded empty_heap
  = Crash.
Proof.
  assert (∃ w hw, sections host 40 40
                    (walk0 [protocols_section]) empty_heap
                  = Ret (Some w, hw) ∧ TcfgPtr w = None)
    as (w & hw & Hsec & Hcfg).
  { eexists _, _. split; [vm_compute; reflexivity|reflexivity]. }
  apply (proj1 (default_device_is_read_unchecked host 40
                  (Build_xmlDoc
                     (Some (elem "V-Control" [] [protocols_section])) true 0)
                  (elem "V-Control" [] [protocols_section]) w hw unloaded
                  empty_heap
                  ltac:(split; [reflexivity|split; [reflexivity|
                        split; [reflexivity|vm_compute; discriminate]]])
                  Hsec) Hcfg).
Defined.

(** ** Blocks of a protocol *)



(** ** What the builders hand over *)

Lemma yields_ret {A} (P : A → Prop) (a : A) : P a → yields P (ret a).
Proof. by intros Ha h a' h' [= <- <-]. Qed.

Lemma yields_crash {A} (P : A → Prop) : yields P crash.
Proof. intros h a h' [=]. Qed.

Lemma yields_timeout {A} (P : A → Prop) : yields P timeout.
Proof. intros h a h' [=]. Qed.

Lemma yields_bind {A B} (Q : A → Prop) (P : B → Prop) (m : M A) (k : A → M B) :
  yields Q m → (∀ a, Q a → yields P (k a)) → yields P (bind m k).
Proof.
  intros Hm Hk h b h'. unfold bind.
  destruct (m h) as [[a h1]| |] eqn:Hmh; try discriminate.
  apply (Hk a (Hm h a h1 Hmh)).
Qed.

Lemma yields_bind_any {A B} (P : B → Prop) (m : M A) (k : A → M B) :
  (∀ a, yields P (k a)) → yields P (bind m k).
Proof. intros Hk. apply (yields_bind (λ _, True)); [done|auto]. Qed.

Lemma yields_bind_ret {A B} (P : B → Prop) (a : A) (k : A → M B) :
  yields P (k a) → yields P (bind (ret a) k).
Proof. intros Hk h b h'. apply Hk. Qed.

Lemma yields_assoc {A B C} (P : C → Prop) (m : M A) (f : A → M B)
    (k : B → M C) :
  yields P (bind m (λ a, bind (f a) k)) → yields P (bind (bind m f) k).
Proof.
  intros H h c h' Hrun. apply (H h c h'). revert Hrun. unfold bind.
  by destruct (m h) as [[a h1]| |].
Qed.

Lemma yields_strdup s : yields is_Some (strdup s).
Proof. intros h p h' [= <- _]. by eexists. Qed.

Lemma yields_nullIT : yields is_Some nullIT.
Proof. apply yields_strdup. Qed.

Lemma yields_copy_or_empty o : yields is_Some (copy_or_empty o).
Proof. destruct o; [apply yields_strdup|apply yields_nullIT]. Qed.

Lemma Forall_anchor_linked {A} (P : A → Prop) (l : list A) (x : A) :
  Forall P l → P x → Forall P (anchor (linked l x) x).
Proof.
  intros Hl Hx. rewrite anchor_linked. apply Forall_app. by repeat constructor.
Qed.

Lemma Forall_upd_last {A} (P : A → Prop) (f : A → A) (l : list A) :
  (∀ x, P x → P (f x)) → Forall P l → Forall P (upd_last f l).
Proof.
  intros Hf. induction 1 as [|x rest Hx Hrest IH]; [constructor|].
  destruct rest as [|y rest]; simpl.
  - constructor; [by apply Hf|constructor].
  - constructor; [exact Hx|exact IH].
Qed.

Lemma yields_with_last {A} (P : A → Prop) (f : A → M A) (l : list A) :
  (∀ x, P x → yields P (f x)) → Forall P l → yields (Forall P) (with_last f l).
Proof.
  intros Hf. induction 1 as [|x rest Hx Hrest IH]; [apply yields_crash|].
  destruct rest as [|y rest].
  - simpl. apply (yields_bind P); [by apply Hf|].
    intros z Hz. apply yields_ret. by repeat constructor.
  - change (with_last f (x :: y :: rest))
      with (let* r := with_last f (y :: rest) in ret (x :: r)).
    apply (yields_bind (Forall P)); [exact IH|].
    intros r Hr. apply yields_ret. by constructor.
Qed.

Create HintDb inv.
#[local] Hint Resolve yields_strdup yields_nullIT yields_copy_or_empty : inv.

Ltac inv_bind :=
  lazymatch goal with
  | |- yields _ (bind (bind _ _) _) => apply yields_assoc
  | |- yields _ (bind (ret _) _) => apply yields_bind_ret
  | |- yields _ (bind _ _) =>
      first [ eapply yields_bind; [solve [eauto with inv]|intros ? ?]
            | apply yields_bind_any; intros ? ]
  end.

Ltac inv_loop IH fin :=
  repeat first
    [ apply yields_timeout
    | apply yields_crash
    | apply yields_ret; fin
    | apply IH; fin
    | inv_bind
    | match goal with
      | |- yields _ (if ?b then _ else _) => destruct b
      | |- yields _ (match ?x with _ => _ end) => destruct x
      | |- yields _ ?c =>
          match c with context [match ?x with _ => _ end] => destruct x end
      end ].

Ltac inv_chain :=
  repeat first
    [ assumption
    | apply Forall_anchor_linked
    | apply Forall_upd_last; [intros ? ?|]
    | match goal with
      | |- Forall _ (match ?x with _ => _ end) => destruct x
      end
    | constructor ];
  simpl; try done.

Lemma yields_parseMacro_loop fuel cur prevPtr macroFound mStartPtr :
  Forall (λ m, is_Some (m_name m)) mStartPtr →
  yields (Forall (λ m, is_Some (m_name m)))
    (parseMacro_loop fuel cur prevPtr macroFound mStartPtr).
Proof.
  revert cur prevPtr macroFound mStartPtr.
  induction fuel as [|fuel IH];
    intros [|n next] prevPtr macroFound mStartPtr Hstart;
    simpl; unfold newMacroNode; inv_loop IH inv_chain.
Qed.

Lemma yields_parseMacro ge cur :
  yields (Forall (λ m, is_Some (m_name m))) (parseMacro ge cur).
Proof. by apply yields_parseMacro_loop. Qed.

Lemma yields_parseICmd_loop E fuel cur prevPtr commandFound icStartPtr :
  Forall (λ i, is_Some (ic_name i)) icStartPtr →
  yields (Forall (λ i, is_Some (ic_name i)))
    (parseICmd_loop E fuel cur prevPtr commandFound icStartPtr).
Proof.
  revert cur prevPtr commandFound icStartPtr.
  induction fuel as [|fuel IH];
    intros [|n next] prevPtr commandFound icStartPtr Hstart;
    simpl; unfold newIcmdNode; inv_loop IH inv_chain.
Qed.

Lemma yields_parseICmd E ge cur :
  yields (Forall (λ i, is_Some (ic_name i))) (parseICmd E ge cur).
Proof. by apply yields_parseICmd_loop. Qed.

#[local] Hint Resolve yields_parseMacro yields_parseICmd : inv.

Lemma yields_parseProtocol_loop E ge fuel cur prevPtr protoFound protoStartPtr :
  Forall keyed_protocol protoStartPtr →
  yields (Forall keyed_protocol)
    (parseProtocol_loop E ge fuel cur prevPtr protoFound protoStartPtr).
Proof.
  revert cur prevPtr protoFound protoStartPtr.
  induction fuel as [|fuel IH];
    intros [|n next] prevPtr protoFound protoStartPtr Hstart;
    simpl; unfold newProtocolNode;
    inv_loop IH ltac:(inv_chain; unfold keyed_protocol in *; simpl;
                      naive_solver).
Qed.

(** X14: every protocol that [parseProtocol] hands over has a name, and
    so have all its macros and all its commands: the lookups by name on
    these chains never meet an entry without key. *)
Theorem parseProtocol_entries_are_keyed E gas cur (h : heap) ps h' :
  parseProtocol E gas cur h = Ret (ps, h') →
  Forall keyed_protocol ps
  ∧ (∀ name, ∃ found, getProtocolNode ps name = Ret found
       ∧ first_where (has_name name) ps found)
  ∧ (∀ p name, p ∈ ps →
       first_where (λ m, deref (m_name m) = Some name) (p_mPtr p)
         (getMacroNode (p_mPtr p) name)
       ∧ first_where (λ i, deref (ic_name i) = Some name) (p_icPtr p)
           (getIcmdNode (p_icPtr p) name)).
Proof.
  intros Hrun.
  pose proof (yields_parseProtocol_loop E gas gas cur None false []
                (List.Forall_nil _) h ps h' Hrun) as Hall.
  split; [exact Hall|]. split.
  - intros name. apply getProtocolNode_first.
    eapply Forall_impl; [exact Hall|]. by intros p (Hp & _).
  - intros p name Hp. rewrite Forall_forall in Hall.
    destruct (Hall p Hp) as (_ & Hm & Hi). split.
    + rewrite getMacroNode_scan.
      induction Hm as [|m rest [s Hs] _ (before & Heq & Hb & Hh)]; simpl.
      * by exists [].
      * unfold key_stops at 1. rewrite Hs.
        destruct (streq (val s) name) eqn:Hsn.
        -- exists []. repeat split; [constructor|]. rewrite Hs. simpl.
           f_equal. by apply streq_eq.
        -- exists (m :: before). simpl. rewrite <- Heq.
           repeat split; [|exact Hh]. constructor; [|exact Hb].
           rewrite Hs. simpl. intros [= Hv]. apply streq_eq in Hv. congruence.
    + rewrite getIcmdNode_scan.
      induction Hi as [|i rest [s Hs] _ (before & Heq & Hb & Hh)]; simpl.
      * by exists [].
      * unfold key_stops at 1. rewrite Hs.
        destruct (streq (val s) name) eqn:Hsn.
        -- exists []. repeat split; [constructor|]. rewrite Hs. simpl.
           f_equal. by apply streq_eq.
        -- exists (i :: before). simpl. rewrite <- Heq.
           repeat split; [|exact Hh]. constructor; [|exact Hb].
           rewrite Hs. simpl. intros [= Hv]. apply streq_eq in Hv. congruence.
Qed.

Lemma parseProtocol_entries_are_keyed_witness :
  ∃ ps h', parseProtocol host 40 (n_children protocols_section) empty_heap
           = Ret (ps, h')
    ∧ Forall keyed_protocol ps.
Proof.
  assert (∃ ps h', parseProtocol host 40 (n_children protocols_section)
                     empty_heap = Ret (ps, h')) as (ps & h' & Hrun).
  { eexists _, _. vm_compute. reflexivity. }
  exists ps, h'. split; [exact Hrun|].
  apply (parseProtocol_entries_are_keyed host 40 _ _ ps h' Hrun).
Defined.

Lemma yields_parseEnum E n text uPtr :
  named_unit uPtr → yields named_unit (parseEnum E n text uPtr).
Proof.
  intros [Hname Henums]. unfold parseEnum, newEnumNode.
  destruct (getPropertyNode (n_properties n) "bytes") as [b|];
    inv_loop I ltac:(split; [exact Hname|]; simpl;
                     apply Forall_anchor_linked; [exact Henums|];
                     split; simpl; done).
Qed.

Lemma yields_enum_of_last E n text (l : list Unit) :
  Forall named_unit l →
  yields (Forall named_unit) (with_last (parseEnum E n text) l).
Proof.
  intros Hl. apply yields_with_last; [|exact Hl].
  intros x Hx. by apply yields_parseEnum.
Qed.

#[local] Hint Resolve yields_enum_of_last : inv.

Lemma yields_parseUnit_loop E fuel cur prevPtr unitFound uStartPtr :
  Forall named_unit uStartPtr →
  yields (Forall named_unit)
    (parseUnit_loop E fuel cur prevPtr unitFound uStartPtr).
Proof.
  revert cur prevPtr unitFound uStartPtr.
  induction fuel as [|fuel IH];
    intros [|n next] prevPtr unitFound uStartPtr Hstart;
    simpl; unfold newUnitNode;
    inv_loop IH ltac:(inv_chain; unfold named_unit in *; simpl;
                      first [done | tauto]).
Qed.

(** X15: every unit that [parseUnit] hands over has a name, and every
    entry of its enumeration has a text and a length field that counts
    the bytes of its pattern, 0 for an entry without pattern. *)
Theorem parseUnit_units_are_named E gas cur (h : heap) us h' :
  parseUnit E gas cur h = Ret (us, h') →
  Forall named_unit us
  ∧ (∀ u e, u ∈ us → e ∈ u_ePtr u →
       is_Some (e_text e)
       ∧ (e_bytes e = None → e_len e = 0)
       ∧ (∀ b, e_bytes e = Some b →
            e_len e = Z.of_nat (String.length (val b)))).
Proof.
  intros Hrun.
  pose proof (yields_parseUnit_loop E gas cur None false []
                (List.Forall_nil _) h us h' Hrun) as Hall.
  split; [exact Hall|].
  intros u e Hu He. rewrite Forall_forall in Hall.
  destruct (Hall u Hu) as [_ Henums]. rewrite Forall_forall in Henums.
  destruct (Henums e He) as [Htext Hlen]. split; [exact Htext|].
  split.
  - intros Hb. by rewrite Hb in Hlen.
  - intros b Hb. by rewrite Hb in Hlen.
Qed.

Lemma parseUnit_units_are_named_witness :
  ∃ us h', parseUnit host 40 (n_children units_section) empty_heap
           = Ret (us, h')
    ∧ us ≠ [] ∧ Forall named_unit us.
Proof.
  assert (∃ us h', parseUnit host 40 (n_children units_section) empty_heap
                   = Ret (us, h') ∧ us ≠ []) as (us & h' & Hrun & Hne).
  { eexists _, _. split; [vm_compute; reflexivity|discriminate]. }
  exists us, h'. split; [exact Hrun|]. split; [exact Hne|].
  apply (parseUnit_units_are_named host 40 _ _ us h' Hrun).
Defined.

Lemma getProtocolNode_suffix pPtr name found :
  getProtocolNode pPtr name = Ret found → found `suffix_of` pPtr.
Proof.
  induction pPtr as [|p next IH]; simpl.
  - by intros [= <-].
  - destruct (p_name p) as [s|]; [|discriminate].
    destruct (negb (streq (val s) name)).
    + intros Hget. apply suffix_cons_r. by apply IH.
    + by intros [= <-].
Qed.

Lemma yields_getProtocolNode pPtr name :
  yields (λ found, found `suffix_of` pPtr) (lift (getProtocolNode pPtr name)).
Proof.
  intros h found h'. unfold lift.
  destruct (getProtocolNode pPtr name) as [pp| |] eqn:Hget; try discriminate.
  intros [= <- _]. by eapply getProtocolNode_suffix.
Qed.

#[local] Hint Resolve yields_getProtocolNode : inv.

Lemma yields_buildDevice n pPtr dStartPtr :
  yields (from_option (complete_device pPtr) True)
    (buildDevice n pPtr dStartPtr).
Proof.
  unfold buildDevice, newDeviceNode.
  inv_loop I ltac:(simpl; try done; unfold complete_device; simpl;
                   repeat split; done).
Qed.

#[local] Hint Resolve yields_buildDevice : inv.

Lemma yields_parseDevice_loop fuel cur prevPtr pPtr dStartPtr :
  Forall (complete_device pPtr) dStartPtr →
  yields (Forall (complete_device pPtr))
    (parseDevice_loop fuel cur prevPtr pPtr dStartPtr).
Proof.
  revert cur prevPtr dStartPtr.
  induction fuel as [|fuel IH]; intros [|n next] prevPtr dStartPtr Hstart;
    simpl; inv_loop IH ltac:(simpl in *; inv_chain).
Qed.

(** X16: every device that [parseDevice] hands over has a name and an
    ID, empty where the element gave none, and refers to a protocol of
    the chain it was given: its protocol pointer is a part of that chain
    and not null.  A search by ID over these devices therefore returns
    the first device with the ID, or [NULL], and never compares through a
    null pointer. *)
Theorem parseDevice_devices_are_complete gas cur pPtr (h : heap) ds h' :
  parseDevice gas cur pPtr h = Ret (ds, h') →
  Forall (complete_device pPtr) ds
  ∧ (∀ id, ∃ found, getDeviceNode ds (Some id) = Ret found
       ∧ first_where (has_id id) ds found).
Proof.
  intros Hrun.
  pose proof (yields_parseDevice_loop gas cur None pPtr []
                (List.Forall_nil _) h ds h' Hrun) as Hall.
  split; [exact Hall|].
  intros id. apply getDeviceNode_first.
  eapply Forall_impl; [exact Hall|]. by intros d (_ & Hid & _).
Qed.

Lemma parseDevice_devices_are_complete_witness :
  ∃ ds h', parseDevice 40 (n_children (devices_section "KW2"))
             (protoPtr loaded) loaded_heap
           = Ret (ds, h')
    ∧ ds ≠ [] ∧ Forall (complete_device (protoPtr loaded)) ds.
Proof.
  assert (∃ ds h', parseDevice 40 (n_children (devices_section "KW2"))
                     (protoPtr loaded) loaded_heap = Ret (ds, h')
                   ∧ ds ≠ []) as (ds & h' & Hrun & Hne).
  { eexists _, _. split; [vm_compute; reflexivity|discriminate]. }
  exists ds, h'. split; [exact Hrun|]. split; [exact Hne|].
  apply (parseDevice_devices_are_complete 40 _ _ _ ds h' Hrun).
Defined.

